(** * laitos: the command processor and its filter chains

    A shallow embedding of
    - package [filter] (command filters [PINAndShortcuts] and
      [TranslateSequences]; result filters [LintText], [NotifyViaEmail]
      and [SayEmptyOutput]), and
    - package [common] ([CommandProcessor]: [initialiseOnce], [Process]),
    together with the few functions of Go's standard library those two
    packages call ([strings.TrimSpace], [strings.Replace], [strings.Split],
    [subtle.ConstantTimeCompare], [strconv.Atoi], the two regular
    expressions).

    Go strings are byte sequences: [gostring] is [list byte].  Go's [int] is
    modelled by [Z]; the only place where its 64-bit width is visible to the
    code below is [strconv.Atoi], whose range error is written out. *)

From Stdlib Require Import ZArith NArith List Bool Lia.
From Stdlib Require Import Strings.String Strings.Byte.
From stdpp Require Import base option list gmap.

Local Open Scope Z_scope.

(* ===================================================================== *)
(** ** Bytes and Go strings *)
(* ===================================================================== *)

Abbreviation gostring := (list byte).

(** A Go string literal. *)
Definition str (s : string) : gostring := list_byte_of_string s.

#[global] Instance byte_eq_dec : EqDecision byte.
Proof.
  intros a b. destruct (Byte.eqb a b) eqn:E.
  - left. now apply Byte.byte_dec_bl.
  - right. now apply Byte.eqb_false.
Defined.

#[global] Instance byte_countable : Countable byte :=
  inj_countable Byte.to_N Byte.of_N Byte.of_to_N.

(** [b] lies in the closed range [lo..hi] (both given as numbers). *)
Definition inRange (lo hi : N) (b : byte) : bool :=
  (lo <=? Byte.to_N b)%N && (Byte.to_N b <=? hi)%N.

(** [b < utf8.RuneSelf]: a byte that is a whole (ASCII) rune. *)
Definition isASCII (b : byte) : bool := (Byte.to_N b <? 128)%N.

(** The six ASCII white space characters: tab, line feed, vertical tab, form
    feed, carriage return and space.  This is [unicode.IsSpace] below 128 and
    the class [[:space:]] of Go's regular expressions. *)
Definition asciiSpace (b : byte) : bool :=
  match b with
  | x09 | x0a | x0b | x0c | x0d | x20 => true
  | _ => false
  end.

(** [s[n:]] and [s[0:n]] for an index that the caller has checked. *)
Definition sliceFrom (n : nat) (s : gostring) : gostring := drop n s.
Definition sliceTo (n : nat) (s : gostring) : gostring := take n s.

(** [strings.HasPrefix]. *)
Fixpoint HasPrefix (s p : gostring) {struct p} : bool :=
  match p, s with
  | [], _ => true
  | _ :: _, [] => false
  | a :: p', b :: s' => bool_decide (a = b) && HasPrefix s' p'
  end.

(* --------------------------------------------------------------------- *)
(** *** strings.TrimSpace

    [strings.TrimSpace] removes every leading and every trailing rune for
    which [unicode.IsSpace] holds.  Those runes are the code points of the
    Unicode property White_Space; a rune is decoded from the head (resp. the
    tail) of the string exactly when the string starts (resp. ends) with its
    UTF-8 encoding, so the function is written over the encodings. *)
(* --------------------------------------------------------------------- *)

Definition whiteSpaceEncodings : list gostring :=
  [ [x09]; [x0a]; [x0b]; [x0c]; [x0d]; [x20];        (* U+0009..U+000D, U+0020 *)
    [xc2; x85]; [xc2; xa0];                          (* U+0085, U+00A0 *)
    [xe1; x9a; x80];                                 (* U+1680 *)
    [xe2; x80; x80]; [xe2; x80; x81]; [xe2; x80; x82];
    [xe2; x80; x83]; [xe2; x80; x84]; [xe2; x80; x85];
    [xe2; x80; x86]; [xe2; x80; x87]; [xe2; x80; x88];
    [xe2; x80; x89]; [xe2; x80; x8a];                (* U+2000..U+200A *)
    [xe2; x80; xa8]; [xe2; x80; xa9];                (* U+2028, U+2029 *)
    [xe2; x80; xaf];                                 (* U+202F *)
    [xe2; x81; x9f];                                 (* U+205F *)
    [xe3; x80; x80] ].                               (* U+3000 *)

(** Width in bytes of the encoding among [encs] that [s] starts with; 0 when
    there is none. *)
Fixpoint leadWidth (encs : list gostring) (s : gostring) : nat :=
  match encs with
  | [] => 0%nat
  | e :: encs' => if HasPrefix s e then length e else leadWidth encs' s
  end.

(** Drop leading runes as long as one of [encs] starts the string.  [skip]
    counts the bytes of the current rune that are still to be dropped. *)
Fixpoint stripLeading (encs : list gostring) (skip : nat) (s : gostring) : gostring :=
  match s with
  | [] => []
  | _ :: s' =>
    match skip with
    | S k => stripLeading encs k s'
    | O =>
      match leadWidth encs s with
      | O => s
      | S k => stripLeading encs k s'
      end
    end
  end.

Definition TrimLeftSpace (s : gostring) : gostring :=
  stripLeading whiteSpaceEncodings 0 s.

Definition TrimRightSpace (s : gostring) : gostring :=
  reverse (stripLeading (map reverse whiteSpaceEncodings) 0 (reverse s)).

Definition TrimSpace (s : gostring) : gostring :=
  TrimRightSpace (TrimLeftSpace s).

(* --------------------------------------------------------------------- *)
(** *** strings.Split(s, "\n") *)
(* --------------------------------------------------------------------- *)

(** The pieces of [s] between line feeds; [n] line feeds give [n+1] pieces,
    and the empty string gives one empty piece. *)
Fixpoint splitLF (s : gostring) : list gostring :=
  match s with
  | [] => [[]]
  | b :: s' =>
    if bool_decide (b = x0a) then [] :: splitLF s'
    else match splitLF s' with
         | l :: ls => (b :: l) :: ls
         | [] => [[b]]
         end
  end.

(* --------------------------------------------------------------------- *)
(** *** utf8.DecodeRuneInString: the width of the first rune *)
(* --------------------------------------------------------------------- *)

(** Go's decoder: a first byte selects the width and the range its second
    byte must lie in; the remaining bytes must be continuation bytes
    (80..BF).  Anything else is the error rune, of width 1. *)
Definition isCont (b : byte) : bool := inRange 128 191 b.

Definition runeWidth (s : gostring) : nat :=
  match s with
  | [] => 0%nat
  | b0 :: t =>
    if isASCII b0 then 1%nat
    else if inRange 194 223 b0 then                              (* C2..DF *)
      match t with
      | b1 :: _ => if isCont b1 then 2%nat else 1%nat
      | _ => 1%nat
      end
    else if inRange 224 239 b0 then                              (* E0..EF *)
      match t with
      | b1 :: b2 :: _ =>
        let lo := if bool_decide (b0 = xe0) then 160%N else 128%N in
        let hi := if bool_decide (b0 = xed) then 159%N else 191%N in
        if inRange lo hi b1 && isCont b2 then 3%nat else 1%nat
      | _ => 1%nat
      end
    else if inRange 240 244 b0 then                              (* F0..F4 *)
      match t with
      | b1 :: b2 :: b3 :: _ =>
        let lo := if bool_decide (b0 = xf0) then 144%N else 128%N in
        let hi := if bool_decide (b0 = xf4) then 143%N else 191%N in
        if inRange lo hi b1 && isCont b2 && isCont b3 then 4%nat else 1%nat
      | _ => 1%nat
      end
    else 1%nat
  end.

(* --------------------------------------------------------------------- *)
(** *** strings.Replace(s, old, new, -1) *)
(* --------------------------------------------------------------------- *)

(** Leftmost, non-overlapping occurrences of a non-empty [old] are replaced.
    [skip] counts the bytes of the occurrence just replaced that are still
    to be passed over. *)
Fixpoint replaceFrom (old new : gostring) (skip : nat) (s : gostring) : gostring :=
  match s with
  | [] => []
  | b :: s' =>
    match skip with
    | S k => replaceFrom old new k s'
    | O =>
      if HasPrefix s old then new ++ replaceFrom old new (length old - 1) s'
      else b :: replaceFrom old new 0 s'
    end
  end.

(** An empty [old] matches before every rune and at the end of the string. *)
Fixpoint insertAround (new : gostring) (skip : nat) (s : gostring) : gostring :=
  match s with
  | [] => new
  | b :: s' =>
    match skip with
    | S k => b :: insertAround new k s'
    | O => new ++ b :: insertAround new (runeWidth s - 1) s'
    end
  end.

Definition ReplaceAll (s old new : gostring) : gostring :=
  if bool_decide (old = new) then s
  else match old with
       | [] => insertAround new 0 s
       | _ :: _ => replaceFrom old new 0 s
       end.

(* --------------------------------------------------------------------- *)
(** *** subtle.ConstantTimeCompare *)
(* --------------------------------------------------------------------- *)

Definition byteZ (b : byte) : Z := Z.of_N (Byte.to_N b).

(** [v |= x[i] ^ y[i]] over all positions, without an early exit. *)
Fixpoint xorFold (v : Z) (x y : gostring) : Z :=
  match x, y with
  | a :: x', b :: y' => xorFold (Z.lor v (Z.lxor (byteZ a) (byteZ b))) x' y'
  | _, _ => v
  end.

(** Returns 1 when the two slices have equal contents and 0 otherwise; slices
    of different lengths give 0 at once. *)
Definition ConstantTimeCompare (x y : gostring) : Z :=
  if negb (length x =? length y)%nat then 0
  else if xorFold 0 x y =? 0 then 1 else 0.

(* ===================================================================== *)
(** ** Package toolbox: commands, results and errors *)
(* ===================================================================== *)

(** Go's [error] values met by the processor.  The sentinels are compared by
    identity in the source, hence one constructor each; the two errors made
    on the spot by [errors.New] have their own constructors as well.  An
    error of a feature or of a filter from elsewhere is [ErrOther]. *)
Inductive error : Type :=
  | ErrPINAndShortcutNotFound      (* filter.ErrPINAndShortcutNotFound *)
  | ErrPINAndShortcutsUndefined    (* errors.New in PINAndShortcuts.Transform *)
  | ErrBadPrefix                   (* common.ErrBadPrefix *)
  | ErrBadPLT                      (* common.ErrBadPLT *)
  | ErrRateLimitExceeded           (* common.ErrRateLimitExceeded *)
  | ErrPLTNotAvailable             (* errors.New in CommandProcessor.Process *)
  | ErrEmergencyLockDown           (* misc.ErrEmergencyLockDown *)
  | ErrEmptyCommand                (* the validation error of Command.Trim *)
  | ErrOther (msg : gostring).

#[global] Instance error_eq_dec : EqDecision error.
Proof. solve_decision. Defined.

(** Modelled from the spec: the type [toolbox.Command] (its declaration is not
    part of the sources at hand): content, timeout in seconds and the tag of
    the originating daemon. *)
Record Command : Type := mkCommand {
  Content : gostring;
  TimeoutSec : Z;
  DaemonName : gostring
}.

(** [Command{}] *)
Definition zeroCommand : Command := mkCommand [] 0 [].

(** [c.Content = s] on a copy of [c]. *)
Definition withContent (c : Command) (s : gostring) : Command :=
  mkCommand s (TimeoutSec c) (DaemonName c).

(** [c.TimeoutSec = t] on a copy of [c]. *)
Definition withTimeoutSec (c : Command) (t : Z) : Command :=
  mkCommand (Content c) t (DaemonName c).

(** Modelled from the spec: [Command.Lines], "yields the content split by
    line terminators". *)
Definition Lines (c : Command) : list gostring := splitLF (Content c).

(** Modelled from the spec: the type [toolbox.Result]. *)
Record Result : Type := mkResult {
  ResCommand : Command;
  Output : gostring;
  Error : option error;
  CombinedOutput : gostring
}.

(** [&toolbox.Result{Error: e}] *)
Definition errorResult (e : option error) : Result :=
  mkResult zeroCommand [] e [].

Definition withCombinedOutput (r : Result) (s : gostring) : Result :=
  mkResult (ResCommand r) (Output r) (Error r) s.

Definition withResCommand (r : Result) (c : Command) : Result :=
  mkResult c (Output r) (Error r) (CombinedOutput r).

(* ===================================================================== *)
(** ** Package filter: command filters *)
(* ===================================================================== *)

Module PINAndShortcuts.

Record t : Type := mk {
  PIN : gostring;
  Shortcuts : option (gmap gostring gostring)   (* [None] is the nil map *)
}.

(** [pin.PIN == "" && (pin.Shortcuts == nil || len(pin.Shortcuts) == 0)] *)
Definition undefined (pin : t) : bool :=
  bool_decide (PIN pin = []) &&
  match Shortcuts pin with
  | None => true
  | Some m => bool_decide (size m = 0%nat)
  end.

(** [shortcut, exists := pin.Shortcuts[line]] guarded by the nil test. *)
Definition lookupShortcut (pin : t) (line : gostring) : option gostring :=
  match Shortcuts pin with
  | None => None
  | Some m => m !! line
  end.

(** [len(line) > len(pin.PIN) &&
     subtle.ConstantTimeCompare([]byte(line[0:len(pin.PIN)]), []byte(pin.PIN)) == 1] *)
Definition matchPIN (pin : t) (line : gostring) : bool :=
  (length (PIN pin) <? length line)%nat &&
  (ConstantTimeCompare (sliceTo (length (PIN pin)) line) (PIN pin) =? 1).

(** The loop over the lines of the command. *)
Fixpoint scanLines (pin : t) (cmd : Command) (lines : list gostring)
  : Command * option error :=
  match lines with
  | [] => (cmd, Some ErrPINAndShortcutNotFound)
  | line :: rest =>
    let line := TrimSpace line in
    match lookupShortcut pin line with
    | Some shortcut => (withContent cmd shortcut, None)
    | None =>
      if matchPIN pin line
      then (withContent cmd (sliceFrom (length (PIN pin)) line), None)
      else scanLines pin cmd rest
    end
  end.

Definition Transform (pin : t) (cmd : Command) : Command * option error :=
  if undefined pin then (zeroCommand, Some ErrPINAndShortcutsUndefined)
  else scanLines pin cmd (Lines cmd).

End PINAndShortcuts.

Module TranslateSequences.

Record t : Type := mk {
  Sequences : option (list (list gostring))     (* [None] is the nil slice *)
}.

(** The loop over the tuples; a tuple whose length is not 2 is passed over. *)
Fixpoint translate (tuples : list (list gostring)) (content : gostring) : gostring :=
  match tuples with
  | [] => content
  | tuple :: rest =>
    match tuple with
    | [old; new] => translate rest (ReplaceAll content old new)
    | _ => translate rest content
    end
  end.

Definition Transform (tr : t) (cmd : Command) : Command * option error :=
  match Sequences tr with
  | None => (cmd, None)
  | Some tuples => (withContent cmd (translate tuples (Content cmd)), None)
  end.

End TranslateSequences.

(* ===================================================================== *)
(** ** Package filter: result filters *)
(* ===================================================================== *)

Module LintText.

Record t : Type := mk {
  TrimSpaces : bool;
  CompressToSingleLine : bool;
  KeepVisible7BitCharOnly : bool;
  CompressSpaces : bool;
  BeginPosition : Z;
  MaxLength : Z
}.

(** [filter.LintText{}], the value of a declared but unassigned variable. *)
Definition zero : t := mk false false false false 0 0.

(** Step 1: every line trimmed and followed by a line feed, the whole
    trimmed again. *)
Definition trimLines (s : gostring) : gostring :=
  TrimSpace (concat (map (fun line => TrimSpace line ++ [x0a]) (splitLF s))).

(** Step 2: [strings.Replace(ret, "\n", ";", -1)]. *)
Definition joinLines (s : gostring) : gostring := ReplaceAll s [x0a] [x3b].

(** [unicode.IsPrint] below 128: space up to tilde. *)
Definition asciiPrint (b : byte) : bool := inRange 32 126 b.

(** Step 3: the loop over the runes of the string.  A rune below 128 that
    is printable or white space is kept, every other rune (the error rune
    of an invalid byte included) becomes a question mark. *)
Fixpoint keepVisible (skip : nat) (s : gostring) : gostring :=
  match s with
  | [] => []
  | b :: s' =>
    match skip with
    | S k => keepVisible k s'
    | O =>
      (if isASCII b && (asciiPrint b || asciiSpace b) then b else x3f)
        :: keepVisible (runeWidth s - 1) s'
    end
  end.

(** Step 4: [RegexConsecutiveSpaces.ReplaceAllString(ret, " ")], every
    maximal run of [[:space:]] becomes one space.  [inRun] tells that the
    previous byte belonged to a run. *)
Fixpoint compressSpaces (inRun : bool) (s : gostring) : gostring :=
  match s with
  | [] => []
  | b :: s' =>
    if asciiSpace b
    then (if inRun then compressSpaces true s' else x20 :: compressSpaces true s')
    else b :: compressSpaces false s'
  end.

(** Step 5: cut leading bytes. *)
Definition cutLeading (begin : Z) (s : gostring) : gostring :=
  if 0 <? begin then
    if begin <? Z.of_nat (length s) then sliceFrom (Z.to_nat begin) s else []
  else s.

(** Step 6: cut trailing bytes. *)
Definition cutTrailing (max : Z) (s : gostring) : gostring :=
  if 0 <? max then
    if max <? Z.of_nat (length s) then sliceTo (Z.to_nat max) s else s
  else s.

(** The text that [Transform] stores into [result.CombinedOutput]. *)
Definition lint (l : t) (s : gostring) : gostring :=
  let s := if TrimSpaces l then trimLines s else s in
  let s := if CompressToSingleLine l then joinLines s else s in
  let s := if KeepVisible7BitCharOnly l then keepVisible 0 s else s in
  let s := if CompressSpaces l then compressSpaces false s else s in
  let s := cutLeading (BeginPosition l) s in
  cutTrailing (MaxLength l) s.

(** The result after the in-place update, and the returned error (always
    nil). *)
Definition Transform (l : t) (result : Result) : Result * option error :=
  (withCombinedOutput result (lint l (CombinedOutput result)), None).

End LintText.

Module NotifyViaEmail.

(** [MailClientIsConfigured] stands for [notify.MailClient.IsConfigured()];
    the mail client is outside the sources at hand. *)
Record t : Type := mk {
  Recipients : option (list gostring);
  MailClientIsConfigured : bool
}.

Definition IsConfigured (n : t) : bool :=
  match Recipients n with
  | None => false
  | Some rs => (0 <? length rs)%nat && MailClientIsConfigured n
  end.

(** Whether a mail is handed to the detached sender. *)
Definition sends (n : t) (result : Result) : bool :=
  IsConfigured n && negb (bool_decide (Error result = Some ErrPINAndShortcutNotFound)).

(** The result is left as it is. *)
Definition Transform (n : t) (result : Result) : Result * option error :=
  (result, None).

End NotifyViaEmail.

Module SayEmptyOutput.

(** [[:graph:]]: the visible ASCII characters. *)
Definition isGraph (b : byte) : bool := inRange 33 126 b.

Definition EmptyOutputText : gostring := str "EMPTY OUTPUT".

Definition Transform (result : Result) : Result * option error :=
  if existsb isGraph (CombinedOutput result) then (result, None)
  else (withCombinedOutput result EmptyOutputText, None).

End SayEmptyOutput.

(** The interface [filter.CommandFilter] with the two implementations of the
    package told apart (the processor asks for the dynamic type); [CFOther] is
    an implementation from elsewhere. *)
Inductive CommandFilter : Type :=
  | CFPINAndShortcuts (pin : PINAndShortcuts.t)
  | CFTranslateSequences (tr : TranslateSequences.t)
  | CFOther (transform : Command -> Command * option error).

Definition CommandFilter_Transform (f : CommandFilter) (cmd : Command)
  : Command * option error :=
  match f with
  | CFPINAndShortcuts pin => PINAndShortcuts.Transform pin cmd
  | CFTranslateSequences tr => TranslateSequences.Transform tr cmd
  | CFOther transform => transform cmd
  end.

(** The interface [filter.ResultFilter].  [Transform] works on [*Result]: it
    gives the result as it is after the call, and the error. *)
Inductive ResultFilter : Type :=
  | RFLintText (lint : LintText.t)
  | RFNotifyViaEmail (notify : NotifyViaEmail.t)
  | RFSayEmptyOutput
  | RFOther (transform : Result -> Result * option error).

Definition ResultFilter_Transform (f : ResultFilter) (result : Result)
  : Result * option error :=
  match f with
  | RFLintText lint => LintText.Transform lint result
  | RFNotifyViaEmail notify => NotifyViaEmail.Transform notify result
  | RFSayEmptyOutput => SayEmptyOutput.Transform result
  | RFOther transform => transform result
  end.

(* ===================================================================== *)
(** ** strconv.Atoi and the regular expression of the PLT prefix *)
(* ===================================================================== *)

Definition isDigit (b : byte) : bool := inRange 48 57 b.

Definition digitsValue (s : gostring) : Z :=
  fold_left (fun acc b => 10 * acc + (byteZ b - 48)) s 0.

Definition maxInt : Z := 2 ^ 63 - 1.
Definition minInt : Z := - 2 ^ 63.

(** The value and whether an error is returned.  A string that is not an
    optional sign followed by digits gives 0 and an error; a number outside
    the 64-bit range gives the nearest bound and an error. *)
Definition Atoi (s : gostring) : Z * bool :=
  let '(neg, ds) :=
    match s with
    | x2b :: ds => (false, ds)
    | x2d :: ds => (true, ds)
    | _ => (false, s)
    end in
  match ds with
  | [] => (0, true)
  | _ :: _ =>
    if forallb isDigit ds then
      let v := if neg then - digitsValue ds else digitsValue ds in
      if maxInt <? v then (maxInt, true)
      else if v <? minInt then (minInt, true)
      else (v, false)
    else (0, true)
  end.

(** The character classes of [RegexCommandWithPLT]. *)
Inductive charClass : Type :=
  | Digit          (* a decimal digit *)
  | NonDigit       (* anything but a decimal digit *)
  | AnyButLF.      (* the dot: anything but a line feed *)

Definition inClass (c : charClass) (b : byte) : bool :=
  match c with
  | Digit => isDigit b
  | NonDigit => negb (isDigit b)
  | AnyButLF => negb (bool_decide (b = x0a))
  end.

(** One repetition [c*] or [c+], captured or not. *)
Record piece : Type := mkPiece {
  cls : charClass;
  atLeastOne : bool;
  captured : bool
}.

(** [common.RegexCommandWithPLT]: any non-digits, a group of digits, at least
    one non-digit, a group of digits, any non-digits, a group of digits, and
    as the fourth group whatever follows up to the end of the line. *)
Definition RegexCommandWithPLT : list piece :=
  [ mkPiece NonDigit false false;
    mkPiece Digit true true;
    mkPiece NonDigit true false;
    mkPiece Digit true true;
    mkPiece NonDigit false false;
    mkPiece Digit true true;
    mkPiece AnyButLF false true ].

(** Length of the longest prefix of [s] within the class. *)
Fixpoint runLength (c : charClass) (s : gostring) : nat :=
  match s with
  | b :: s' => if inClass c b then S (runLength c s') else 0%nat
  | [] => 0%nat
  end.

(** A match of the pieces at the head of [s]: the captured groups and the
    number of bytes matched.  Every repetition is greedy and gives back one
    character at a time until the rest matches, which is the order in which
    Go's matcher prefers the matches.  The classes are classes of runes; as
    the digits and the line feed are ASCII, a run of runes of a class is a
    run of bytes, and a position inside a rune cannot start a digit. *)
Fixpoint matchPieces (ps : list piece) (s : gostring) : option (list gostring * nat) :=
  match ps with
  | [] => Some ([], 0%nat)
  | p :: ps' =>
    (fix try (k : nat) : option (list gostring * nat) :=
       let here :=
         if ((if atLeastOne p then 1 else 0) <=? k)%nat then
           match matchPieces ps' (drop k s) with
           | Some (gs, n) =>
             Some (if captured p then take k s :: gs else gs, (k + n)%nat)
           | None => None
           end
         else None in
       match here with
       | Some r => Some r
       | None => match k with O => None | S k' => try k' end
       end) (runLength (cls p) s)
  end.

(** [re.FindStringSubmatch(s)]: the leftmost match; the text of the match
    followed by the text of each group, [None] for the nil slice. *)
Fixpoint FindStringSubmatch (re : list piece) (s : gostring) : option (list gostring) :=
  match matchPieces re s with
  | Some (gs, n) => Some (take n s :: gs)
  | None =>
    match s with
    | [] => None
    | _ :: s' => FindStringSubmatch re s'
    end
  end.

(* ===================================================================== *)
(** ** Package toolbox: operations on commands and results *)
(* ===================================================================== *)

(** Modelled from the spec: [Command.Trim], "returns a Result with a
    validation error if content is empty after trimming, else nil".  The
    command is given back with its content trimmed. *)
Definition Trim (c : Command) : Command * option Result :=
  let c' := withContent c (TrimSpace (Content c)) in
  match Content c' with
  | [] => (c', Some (errorResult (Some ErrEmptyCommand)))
  | _ :: _ => (c', None)
  end.

(** Modelled from the spec: [Command.FindAndRemovePrefix], "returns whether
    p occurs as a prefix (after trim) and, if so, strips it". *)
Definition FindAndRemovePrefix (c : Command) (p : gostring) : Command * bool :=
  let trimmed := TrimSpace (Content c) in
  if HasPrefix trimmed p then (withContent c (sliceFrom (length p) trimmed), true)
  else (c, false).

(** Modelled from the spec: the interface [toolbox.Feature], reduced to the
    method the processor calls.  [Execute] gives a result (the processor
    dereferences what it gets without a test). *)
Record Feature : Type := mkFeature {
  Execute : Command -> Result
}.

(** Modelled from the spec: [toolbox.FeatureSet].  [LookupByTrigger] is a Go
    map and the processor ranges over it; the list gives its entries in the
    order in which that loop meets them. *)
Record FeatureSet : Type := mkFeatureSet {
  LookupByTrigger : list (gostring * Feature)
}.

(** Modelled from the spec: [misc.RateLimit], "per-key integer counter",
    [MaxCount] "admissions per window per key".  The reset of the counters
    when the window has passed is left to the clock. *)
Record RateLimit : Type := mkRateLimit {
  UnitSecs : Z;
  MaxCount : Z;
  counter : gmap gostring Z
}.

Definition RateLimit_count (rl : RateLimit) (key : gostring) : Z :=
  default 0 (counter rl !! key).

(** [limit.Add(key, true)]: whether the event is admitted, and the limiter
    afterwards. *)
Definition RateLimit_Add (rl : RateLimit) (key : gostring) : RateLimit * bool :=
  let n := RateLimit_count rl key in
  if n <? MaxCount rl
  then (mkRateLimit (UnitSecs rl) (MaxCount rl) (<[key := n + 1]> (counter rl)), true)
  else (rl, false).

(* ===================================================================== *)
(** ** Package common: the command processor *)
(* ===================================================================== *)

Definition PrefixCommandPLT : gostring := str ".plt".
Definition MaxCmdPerSecHardLimit : Z := 1000.

(** The redaction marker of the log. *)
Definition hiddenContent : gostring :=
  str "<hidden due to AESDecryptTrigger or TwoFATrigger>".

(** [initOnce] tells whether the [sync.Once] has fired. *)
Record CommandProcessor : Type := mkCommandProcessor {
  Features : option FeatureSet;               (* [None] is the nil pointer *)
  CommandFilters : list CommandFilter;
  ResultFilters : list ResultFilter;
  MaxCmdPerSec : Z;
  rateLimit : option RateLimit;               (* [None] is the nil pointer *)
  initOnce : bool
}.

(** A processor as a front end builds it: the unexported fields are zero. *)
Definition newCommandProcessor (fs : option FeatureSet) (cf : list CommandFilter)
    (rf : list ResultFilter) (maxCmdPerSec : Z) : CommandProcessor :=
  mkCommandProcessor fs cf rf maxCmdPerSec None false.

Definition initialiseOnce (proc : CommandProcessor) : CommandProcessor :=
  if initOnce proc then proc
  else
    let maxCmd :=
      if (MaxCmdPerSec proc <? 1) || (MaxCmdPerSecHardLimit <? MaxCmdPerSec proc)
      then MaxCmdPerSecHardLimit else MaxCmdPerSec proc in
    let limiter :=
      match rateLimit proc with
      | None => Some (mkRateLimit 1 maxCmd ∅)
      | Some rl => Some rl
      end in
    mkCommandProcessor (Features proc) (CommandFilters proc) (ResultFilters proc)
                       maxCmd limiter true.

Definition withRateLimit (proc : CommandProcessor) (rl : RateLimit) : CommandProcessor :=
  mkCommandProcessor (Features proc) (CommandFilters proc) (ResultFilters proc)
                     (MaxCmdPerSec proc) (Some rl) (initOnce proc).

(** What a call of [Process] does that can be seen from outside, in the order
    in which it happens. *)
Inductive event : Type :=
  | EvCommandFilter (f : CommandFilter) (cmd : Command)   (* f.Transform(cmd) *)
  | EvLogGoingToRun (content : gostring)                  (* "going to run %s" *)
  | EvExecute (trigger : gostring) (cmd : Command)        (* feature.Execute(cmd) *)
  | EvResultFilter (f : ResultFilter) (result : Result)   (* f.Transform(result) *)
  | EvLogFinished (content : gostring) (ok : bool)        (* "finished %s (ok? %v)" *)
  | EvStats.                                              (* CommandStats.Trigger *)

(** The local variables of [Process], and what it has deferred. *)
Record locals : Type := mkLocals {
  cmd : Command;
  filterDisapproval : option error;
  overrideLintText : LintText.t;
  hasOverrideLintText : bool;
  logCommandContent : gostring;
  deferredStats : bool;
  deferredLog : bool;
  trace : list event
}.

Definition initialLocals (c : Command) : locals :=
  mkLocals c None LintText.zero false [] false false [].

Definition setCmd (l : locals) (c : Command) : locals :=
  mkLocals c (filterDisapproval l) (overrideLintText l) (hasOverrideLintText l)
           (logCommandContent l) (deferredStats l) (deferredLog l) (trace l).
Definition setFilterDisapproval (l : locals) (e : option error) : locals :=
  mkLocals (cmd l) e (overrideLintText l) (hasOverrideLintText l)
           (logCommandContent l) (deferredStats l) (deferredLog l) (trace l).
Definition setOverride (l : locals) (o : LintText.t) (has : bool) : locals :=
  mkLocals (cmd l) (filterDisapproval l) o has
           (logCommandContent l) (deferredStats l) (deferredLog l) (trace l).
Definition setLogCommandContent (l : locals) (s : gostring) : locals :=
  mkLocals (cmd l) (filterDisapproval l) (overrideLintText l) (hasOverrideLintText l)
           s (deferredStats l) (deferredLog l) (trace l).
Definition deferStats (l : locals) : locals :=
  mkLocals (cmd l) (filterDisapproval l) (overrideLintText l) (hasOverrideLintText l)
           (logCommandContent l) true (deferredLog l) (trace l).
Definition deferLog (l : locals) : locals :=
  mkLocals (cmd l) (filterDisapproval l) (overrideLintText l) (hasOverrideLintText l)
           (logCommandContent l) (deferredStats l) true (trace l).
Definition emit (l : locals) (e : event) : locals :=
  mkLocals (cmd l) (filterDisapproval l) (overrideLintText l) (hasOverrideLintText l)
           (logCommandContent l) (deferredStats l) (deferredLog l) (trace l ++ [e]).

(** Where control goes after a part of the body of [Process]. *)
Inductive flow : Type :=
  | Next (l : locals)                       (* on to the next statement *)
  | GotoResult (l : locals) (ret : Result). (* [goto result] with [ret] set *)

Definition andThen (f : flow) (k : locals -> flow) : flow :=
  match f with
  | Next l => k l
  | GotoResult l ret => GotoResult l ret
  end.

(** How the body ends: at the label [result] with [ret] set, or in the panic
    of a nil pointer dereference. *)
Inductive bodyEnd : Type :=
  | AtResult (l : locals) (ret : Result)
  | Panicked (l : locals).

(** What [Process] leaves behind: the processor, the returned result ([None]
    when the call panicked), the final value of [logCommandContent] and the
    events of the call. *)
Record outcome : Type := mkOutcome {
  procAfter : CommandProcessor;
  returned : option Result;
  logged : gostring;
  events : list event
}.

Definition withBeginPosition (lt : LintText.t) (p : Z) : LintText.t :=
  LintText.mk (LintText.TrimSpaces lt) (LintText.CompressToSingleLine lt)
              (LintText.KeepVisible7BitCharOnly lt) (LintText.CompressSpaces lt)
              p (LintText.MaxLength lt).

Definition withMaxLength (lt : LintText.t) (m : Z) : LintText.t :=
  LintText.mk (LintText.TrimSpaces lt) (LintText.CompressToSingleLine lt)
              (LintText.KeepVisible7BitCharOnly lt) (LintText.CompressSpaces lt)
              (LintText.BeginPosition lt) m.

(** The first [*filter.LintText] among the result filters. *)
Fixpoint findLintText (fs : list ResultFilter) : option LintText.t :=
  match fs with
  | [] => None
  | RFLintText lt :: _ => Some lt
  | _ :: fs' => findLintText fs'
  end.

(** The loop over the entries of [LookupByTrigger]: the first trigger that
    [FindAndRemovePrefix] finds, its feature, and the command without it. *)
Fixpoint lookupTrigger (entries : list (gostring * Feature)) (c : Command)
  : option (gostring * Feature * Command) :=
  match entries with
  | [] => None
  | (prefix, feature) :: rest =>
    let '(c', found) := FindAndRemovePrefix c prefix in
    if found then Some (prefix, feature, c') else lookupTrigger rest c
  end.

Section Processor.

(** The constants of package toolbox that name the sensitive triggers, and
    the texts of the two errors declared outside the sources at hand. *)
Variables AESDecryptTrigger TwoFATrigger : gostring.
Variables EmergencyLockDownText EmptyCommandText : gostring.

(** [err.Error()] *)
Definition errorText (e : error) : gostring :=
  match e with
  | ErrPINAndShortcutNotFound => str "failed to match PIN/shortcut"
  | ErrPINAndShortcutsUndefined => str "both PIN and shortcuts are undefined"
  | ErrBadPrefix => str "bad prefix or feature is not configured"
  | ErrBadPLT => PrefixCommandPLT ++ str " P L T command"
  | ErrRateLimitExceeded =>
    str "command processor internal rate limit has been exceeded"
  | ErrPLTNotAvailable => str "PLT is not available because LintText is not used"
  | ErrEmergencyLockDown => EmergencyLockDownText
  | ErrEmptyCommand => EmptyCommandText
  | ErrOther msg => msg
  end.

(** Modelled from the spec: [Result.ResetCombinedText], "recomputes it as
    Error|Output when an error is present else Output". *)
Definition ResetCombinedText (r : Result) : Result :=
  withCombinedOutput r
    match Error r with
    | Some e => errorText e ++ str "|" ++ Output r
    | None => Output r
    end.

(** "Walk the command through all filters". *)
Fixpoint walkCommandFilters (fs : list CommandFilter) (l : locals) : flow :=
  match fs with
  | [] => Next l
  | f :: fs' =>
    let '(c, err) := CommandFilter_Transform f (cmd l) in
    let l := emit l (EvCommandFilter f (cmd l)) in
    let l := setFilterDisapproval (setCmd l c) err in
    match err with
    | Some _ => GotoResult l (errorResult err)
    | None => walkCommandFilters fs' l
    end
  end.

(** The statistics are deferred, then "trim spaces and expect non-empty
    command". *)
Definition trimCommand (l : locals) : flow :=
  let l := deferStats l in
  let '(c, r) := Trim (cmd l) in
  let l := setCmd l c in
  match r with
  | Some ret => GotoResult l ret
  | None => Next l
  end.

(** "Look for PLT (position, length, timeout) override". *)
Definition overridePLT (rfs : list ResultFilter) (l : locals) : flow :=
  let '(c, found) := FindAndRemovePrefix (cmd l) PrefixCommandPLT in
  if negb found then Next l
  else
    let l := setCmd l c in
    match findLintText rfs with
    | None => GotoResult l (errorResult (Some ErrPLTNotAvailable))
    | Some lt =>
      let l := setOverride l lt true in
      match FindStringSubmatch RegexCommandWithPLT (Content (cmd l)) with
      | Some [_; p1; p2; p3; p4] =>
        let '(p, err1) := Atoi p1 in
        let l := setOverride l (withBeginPosition (overrideLintText l) p) true in
        if err1 then GotoResult l (errorResult (Some ErrBadPLT))
        else
          let '(m, err2) := Atoi p2 in
          let l := setOverride l (withMaxLength (overrideLintText l) m) true in
          if err2 then GotoResult l (errorResult (Some ErrBadPLT))
          else
            let '(t, err3) := Atoi p3 in
            let l := setCmd l (withTimeoutSec (cmd l) t) in
            if err3 then GotoResult l (errorResult (Some ErrBadPLT))
            else
              let l := setCmd l (withContent (cmd l) p4) in
              match p4 with
              | [] => GotoResult l (errorResult (Some ErrBadPLT))
              | _ :: _ => Next l
              end
      | _ => GotoResult l (errorResult (Some ErrBadPLT))
      end
    end.

(** The snapshot for the log, the search for the trigger, and the run of
    the feature, which falls through to the label [result]. *)
Definition dispatch (proc : CommandProcessor) (l : locals) : bodyEnd :=
  let l := setLogCommandContent l (Content (cmd l)) in
  match Features proc with
  | None => Panicked l
  | Some fs =>
    match lookupTrigger (LookupByTrigger fs) (cmd l) with
    | None => AtResult l (errorResult (Some ErrBadPrefix))
    | Some (prefix, feature, c) =>
      let l := setCmd l c in
      let l :=
        if bool_decide (prefix = AESDecryptTrigger) || bool_decide (prefix = TwoFATrigger)
        then setLogCommandContent l hiddenContent else l in
      let l := emit l (EvLogGoingToRun (logCommandContent l)) in
      let l := deferLog l in
      let l := emit l (EvExecute prefix (cmd l)) in
      AtResult l (Execute feature (cmd l))
    end
  end.

(** The body of [Process] from the first loop down to the label. *)
Definition body (proc : CommandProcessor) (l : locals) : bodyEnd :=
  match andThen (andThen (walkCommandFilters (CommandFilters proc) l) trimCommand)
                (overridePLT (ResultFilters proc)) with
  | Next l => dispatch proc l
  | GotoResult l ret => AtResult l ret
  end.

(** "Walk through result filters": the result as the filters left it, the
    error of the filter that stopped the walk, and the events. *)
Fixpoint walkResultFilters (fs : list ResultFilter) (has : bool)
    (override : LintText.t) (ret : Result) (tr : list event)
  : Result * option error * list event :=
  match fs with
  | [] => (ret, None, tr)
  | f :: fs' =>
    let f :=
      match f with
      | RFLintText _ => if has then RFLintText override else f
      | _ => f
      end in
    let '(ret', err) := ResultFilter_Transform f ret in
    let tr := tr ++ [EvResultFilter f ret] in
    match err with
    | Some e => (ret', Some e, tr)
    | None => walkResultFilters fs' has override ret' tr
    end
  end.

(** The statements at the label [result], before the result filters. *)
Definition atLabel (l : locals) (ret : Result) : Result :=
  ResetCombinedText (withResCommand ret (withContent (cmd l) (logCommandContent l))).

(** The deferred calls, last deferred first. *)
Definition runDeferred (l : locals) (ret : Result) (tr : list event) : list event :=
  tr ++ (if deferredLog l
         then [EvLogFinished (logCommandContent l) (bool_decide (Error ret = None))]
         else [])
     ++ (if deferredStats l then [EvStats] else []).

(** From the label [result] to the return. *)
Definition finish (proc : CommandProcessor) (l : locals) (ret : Result)
    (runResultFilters : bool) : Result * list event :=
  let ret := atLabel l ret in
  let '(ret, tr) :=
    if runResultFilters then
      match walkResultFilters (ResultFilters proc) (hasOverrideLintText l)
                              (overrideLintText l) ret (trace l) with
      | (ret', Some _, tr) =>
        (mkResult (ResCommand ret') [] (filterDisapproval l) [], tr)
      | (ret', None, tr) => (ret', tr)
      end
    else (ret, trace l) in
  (ret, runDeferred l ret tr).

(** [lockDown] is the value of [misc.EmergencyLockDown] at the call. *)
Definition Process (lockDown : bool) (proc : CommandProcessor) (c : Command)
    (runResultFilters : bool) : outcome :=
  let proc := initialiseOnce proc in
  if lockDown then mkOutcome proc (Some (errorResult (Some ErrEmergencyLockDown))) [] []
  else
    match rateLimit proc with
    | None => mkOutcome proc None [] []
    | Some rl =>
      let '(rl, admitted) := RateLimit_Add rl (str "instance") in
      let proc := withRateLimit proc rl in
      if negb admitted
      then mkOutcome proc (Some (errorResult (Some ErrRateLimitExceeded))) [] []
      else
        match body proc (initialLocals c) with
        | Panicked l =>
          mkOutcome proc None (logCommandContent l)
                    (trace l ++ (if deferredStats l then [EvStats] else []))
        | AtResult l ret =>
          let '(ret, tr) := finish proc l ret runResultFilters in
          mkOutcome proc (Some ret) (logCommandContent l) tr
        end
    end.

End Processor.

(* ===================================================================== *)
(** ** Package common: the checks of the configuration *)
(* ===================================================================== *)

(** The loop of [IsEmpty]: some PIN filter has an empty PIN. *)
Fixpoint anyEmptyPIN (fs : list CommandFilter) : bool :=
  match fs with
  | [] => false
  | CFPINAndShortcuts pin :: fs' =>
    if bool_decide (PINAndShortcuts.PIN pin = []) then true else anyEmptyPIN fs'
  | _ :: fs' => anyEmptyPIN fs'
  end.

(** [proc.IsEmpty()] *)
Definition IsEmpty (proc : CommandProcessor) : bool :=
  match CommandFilters proc with
  | [] => true
  | _ :: _ => anyEmptyPIN (CommandFilters proc)
  end.

Definition ErrBadProcessorConfig : gostring := str "bad configuration: ".

(** [errors.New(ErrBadProcessorConfig + msg)] *)
Definition badConfig (msg : gostring) : error := ErrOther (ErrBadProcessorConfig ++ msg).

(** The loop over the command filters with its flag [seenPIN]: the checks
    of the first PIN filter, or the error that there is none. *)
Fixpoint checkPIN (fs : list CommandFilter) : list error :=
  match fs with
  | [] =>
    [badConfig ([x22] ++ str "PINAndShortcuts" ++ [x22] ++
       str " filter must be defined to set up password PIN protection or command shortcuts")]
  | CFPINAndShortcuts pin :: _ =>
    (if PINAndShortcuts.undefined pin
     then [badConfig (str "Defined in PINAndShortcuts there has to be password PIN, command shortcuts, or both.")]
     else []) ++
    (if negb (bool_decide (PINAndShortcuts.PIN pin = [])) &&
        (length (PINAndShortcuts.PIN pin) <? 7)%nat
     then [badConfig (str "Password PIN must be at least 7 characters long")]
     else [])
  | _ :: fs' => checkPIN fs'
  end.

(** The loop over the result filters with its flag [seenLinter]. *)
Fixpoint checkLinter (fs : list ResultFilter) : list error :=
  match fs with
  | [] =>
    [badConfig ([x22] ++ str "LintText" ++ [x22] ++
       str " filter must be defined to restrict command output length")]
  | RFLintText linter :: _ =>
    if (LintText.MaxLength linter <? 35) || (4096 <? LintText.MaxLength linter)
    then [badConfig (str "Maximum output length for LintText must be within [35, 4096]")]
    else []
  | _ :: fs' => checkLinter fs'
  end.

(** [proc.IsSaneForInternet()] as a function of the three fields it reads.
    The method tells a nil slice from an empty one, which nothing else in
    the processor does: here [None] is the nil slice. *)
Definition IsSaneForInternet (features : option FeatureSet)
    (commandFilters : option (list CommandFilter))
    (resultFilters : option (list ResultFilter)) : list error :=
  match features with
  | None => [badConfig (str "FeatureSet is not assigned")]
  | Some fs =>
    if (length (LookupByTrigger fs) =? 0)%nat
    then [badConfig (str "FeatureSet is not initialised or all features are lacking configuration")]
    else []
  end ++
  match commandFilters with
  | None => [badConfig (str "CommandFilters is not assigned")]
  | Some fs => checkPIN fs
  end ++
  match resultFilters with
  | None => [badConfig (str "ResultFilters is not assigned")]
  | Some fs => checkLinter fs
  end.

(* ===================================================================== *)
(** ** Package common: the processors of the test helpers *)
(* ===================================================================== *)

(** [hex.EncodeToString]: two digits of [hextable] for every byte. *)
Definition hextable : gostring := str "0123456789abcdef".

Definition hexDigit (n : N) : byte := nth (N.to_nat n) hextable x30.

Definition EncodeToString (src : gostring) : gostring :=
  flat_map (λ b, [hexDigit (N.shiftr (Byte.to_N b) 4); hexDigit (N.land (Byte.to_N b) 15)]) src.

(** [GetEmptyCommandProcessor]; [features] is the feature set after
    [Initialise] and [randPIN] the 128 bytes read from [rand.Read]. *)
Definition GetEmptyCommandProcessor (features : FeatureSet) (randPIN : gostring)
  : CommandProcessor :=
  newCommandProcessor (Some features)
    [CFPINAndShortcuts (PINAndShortcuts.mk (EncodeToString randPIN) None)]
    [RFLintText (LintText.mk false false false false 0 35); RFSayEmptyOutput] 0.

(** [GetInsaneCommandProcessor]. *)
Definition GetInsaneCommandProcessor (features : FeatureSet) : CommandProcessor :=
  newCommandProcessor (Some features)
    [CFPINAndShortcuts (PINAndShortcuts.mk (str "short") None)]
    [RFLintText (LintText.mk false false false false 0 10); RFSayEmptyOutput] 0.

(* ===================================================================== *)
(** ** Processors and commands for the examples *)
(* ===================================================================== *)

(** The commands that the events show to have been handed to [Execute]. *)
Fixpoint executed (evs : list event) : list Command :=
  match evs with
  | [] => []
  | EvExecute _ c :: evs' => c :: executed evs'
  | _ :: evs' => executed evs'
  end.

(** The LintText filters that the events show to have been applied. *)
Fixpoint linted (evs : list event) : list LintText.t :=
  match evs with
  | [] => []
  | EvResultFilter (RFLintText lt) _ :: evs' => lt :: linted evs'
  | _ :: evs' => linted evs'
  end.

(** A feature that answers with the content it is given. *)
Definition echoFeature : Feature :=
  mkFeature (fun c => mkResult c (Content c) None []).

(** The filters of [GetTestCommandProcessor]. *)
Definition testCommandFilters : list CommandFilter :=
  [ CFPINAndShortcuts (PINAndShortcuts.mk (str "verysecret") None);
    CFTranslateSequences (TranslateSequences.mk (Some [[str "alpha"; str "beta"]])) ].

Definition testResultFilters : list ResultFilter :=
  [ RFLintText (LintText.mk true false false false 0 35);
    RFSayEmptyOutput;
    RFNotifyViaEmail (NotifyViaEmail.mk None false) ].

(** [GetTestCommandProcessor] with [echoFeature] under the trigger ".s" in
    the place of the initialised feature set. *)
Definition GetTestCommandProcessor : CommandProcessor :=
  newCommandProcessor (Some (mkFeatureSet [(str ".s", echoFeature)]))
                      testCommandFilters testResultFilters 0.


(** A result filter from elsewhere that always fails. *)
Definition failingFilter : ResultFilter :=
  RFOther (fun r => (r, Some (ErrOther (str "cannot post-process")))).

Definition processorWithFailingFilter : CommandProcessor :=
  newCommandProcessor (Some (mkFeatureSet [(str ".s", echoFeature)]))
                      testCommandFilters [failingFilter] 0.

(** The failing filter between two filters of the package. *)
Definition processorWithFailingFilterBetween : CommandProcessor :=
  newCommandProcessor (Some (mkFeatureSet [(str ".s", echoFeature)]))
                      testCommandFilters
                      [RFLintText (LintText.mk true false false false 0 35);
                       failingFilter; RFSayEmptyOutput] 0.

(** A PIN with one shortcut. *)
Definition pinWithShortcut : PINAndShortcuts.t :=
  PINAndShortcuts.mk (str "verysecret")
                     (Some {[ str "ping" := str ".s echo pong" ]}).

(** Three commands of two or three lines: the second line starts with the
    PIN; the second line is the shortcut; no line matches. *)
Definition commandWithPIN : Command :=
  mkCommand (str "hi" ++ [x0a] ++ str "  verysecret.s ls  " ++ [x0a] ++ str "ping") 10 [].
Definition commandWithShortcut : Command :=
  mkCommand (str "hi" ++ [x0a] ++ str " ping " ++ [x0a] ++ str "verysecret.s ls") 10 [].
Definition commandWithoutMatch : Command :=
  mkCommand (str "hi" ++ [x0a] ++ str "verysecret") 10 [].

(* ===================================================================== *)
(** ** The vocabulary of the properties *)
(* ===================================================================== *)

(** [line] is a key of the shortcut map, mapped to [v]. *)
Definition isShortcut (pin : PINAndShortcuts.t) (line v : gostring) : Prop :=
  ∃ m, PINAndShortcuts.Shortcuts pin = Some m ∧ m !! line = Some v.

(** [line] is strictly longer than the PIN and its leading bytes are the PIN. *)
Definition startsWithPIN (pin : PINAndShortcuts.t) (line : gostring) : Prop :=
  (length (PINAndShortcuts.PIN pin) < length line)%nat ∧
  take (length (PINAndShortcuts.PIN pin)) line = PINAndShortcuts.PIN pin.

(** [line] matches neither way. *)
Definition matchesNothing (pin : PINAndShortcuts.t) (line : gostring) : Prop :=
  (∀ v, ¬ isShortcut pin line v) ∧ ¬ startsWithPIN pin line.

(** The first error that a command filter returns when the command is handed
    from filter to filter in order; [None] when every filter approves. *)
Fixpoint commandFilterError (fs : list CommandFilter) (c : Command) : option error :=
  match fs with
  | [] => None
  | f :: fs' =>
    match CommandFilter_Transform f c with
    | (_, Some e) => Some e
    | (c', None) => commandFilterError fs' c'
    end
  end.

(** A result filter that leaves the command inside the result alone. *)
Definition keepsCommand (f : ResultFilter) : Prop :=
  ∀ r, ResCommand (ResultFilter_Transform f r).1 = ResCommand r.

(** The clamp of [initialiseOnce] as a function of the configured value. *)
Definition effectiveMaxCmdPerSec (configured : Z) : Z :=
  if (1 <=? configured) && (configured <=? 1000) then configured else 1000.

(** The locals that a part of the body hands on. *)
Definition localsOf (f : flow) : locals :=
  match f with
  | Next l => l
  | GotoResult l _ => l
  end.

(** The events of the three kinds of calls, and of the log. *)
Definition isCommandFilterEvent (e : event) : Prop :=
  match e with EvCommandFilter _ _ => True | _ => False end.

(** A call of a result filter; when the override is in force, a LintText that
    is called is the override. *)
Definition isResultFilterEvent (has : bool) (override : LintText.t) (e : event) : Prop :=
  match e with
  | EvResultFilter (RFLintText lt) _ => has = true → lt = override
  | EvResultFilter _ _ => True
  | _ => False
  end.

(** The call up to the trimmed command: the command filters, then [Trim]. *)
Definition afterCommandFilters (proc : CommandProcessor) (c : Command) : flow :=
  andThen (walkCommandFilters (CommandFilters proc) (initialLocals c)) trimCommand.

(** The three parts before the dispatch, from the locals of a fresh call. *)
Definition prelude (proc : CommandProcessor) (c : Command) : flow :=
  andThen (afterCommandFilters proc c) (overridePLT (ResultFilters proc)).

(** No white space rune starts [s]; no white space rune ends [s]. *)
Definition headClear (s : gostring) : Prop :=
  ∀ e, e ∈ whiteSpaceEncodings → ¬ e `prefix_of` s.
Definition tailClear (s : gostring) : Prop :=
  ∀ e, e ∈ whiteSpaceEncodings → ¬ e `suffix_of` s.

(** The same for white space other than the line feed. *)
Definition headClearInLine (s : gostring) : Prop :=
  ∀ e, e ∈ whiteSpaceEncodings → e ≠ [x0a] → ¬ e `prefix_of` s.
Definition tailClearInLine (s : gostring) : Prop :=
  ∀ e, e ∈ whiteSpaceEncodings → e ≠ [x0a] → ¬ e `suffix_of` s.

(** No line of [s] starts or ends with white space: at every line feed, what
    comes before does not end with white space and what comes after does not
    start with it. *)
Definition linesClear (s : gostring) : Prop :=
  ∀ a b, s = a ++ x0a :: b → tailClearInLine a ∧ headClearInLine b.

(** What step 1 of LintText leaves. *)
Definition trimmedLines (s : gostring) : Prop :=
  headClear s ∧ tailClear s ∧ linesClear s.

Definition noLF (s : gostring) : Prop := x0a ∉ s.

(** What step 3 leaves: bytes below 128 that are printable or white space. *)
Definition visible (b : byte) : bool :=
  isASCII b && (LintText.asciiPrint b || asciiSpace b).

(** Every encoding is one ASCII white space byte or has no ASCII byte. *)
Definition encodingShape (e : gostring) : bool :=
  match e with
  | [b] => asciiSpace b || negb (isASCII b)
  | _ => negb (bool_decide (e = [])) && forallb (λ b, negb (isASCII b)) e
  end.

Definition semicolonForLF (b : byte) : byte :=
  if bool_decide (b = x0a) then x3b else b.

(** What the steps that are switched on leave behind. *)
Definition linted_by (l : LintText.t) (y : gostring) : Prop :=
  (LintText.TrimSpaces l = true → trimmedLines y) ∧
  (LintText.CompressToSingleLine l = true → noLF y) ∧
  (LintText.KeepVisible7BitCharOnly l = true → Forall (λ b, visible b = true) y) ∧
  (LintText.CompressSpaces l = true → LintText.compressSpaces false y = y).

(** The four steps before the cuts. *)
Definition lintSteps (l : LintText.t) (s : gostring) : gostring :=
  let s := if LintText.TrimSpaces l then LintText.trimLines s else s in
  let s := if LintText.CompressToSingleLine l then LintText.joinLines s else s in
  let s := if LintText.KeepVisible7BitCharOnly l then LintText.keepVisible 0 s else s in
  if LintText.CompressSpaces l then LintText.compressSpaces false s else s.


(** The filter that the loop over the result filters calls for [f]: the
    override in the place of a LintText when there is one. *)
Definition inForce (has : bool) (override : LintText.t) (f : ResultFilter) : ResultFilter :=
  match f with
  | RFLintText _ => if has then RFLintText override else f
  | _ => f
  end.

(** The filters [fs], called one after the other from the result [r] on, all
    return nil, and leave the result [r']. *)
Inductive passed (has : bool) (override : LintText.t)
  : list ResultFilter → Result → Result → Prop :=
  | passed_nil r : passed has override [] r r
  | passed_cons f fs r r1 r' :
      ResultFilter_Transform (inForce has override f) r = (r1, None) →
      passed has override fs r1 r' →
      passed has override (f :: fs) r r'.

(** *** The vocabulary of the further properties *)

(** [s] does not start with an ASCII white space byte. *)
Definition headNotSpace (s : gostring) : bool :=
  match s with
  | c :: _ => negb (asciiSpace c)
  | [] => true
  end.

(** Every ASCII white space byte of [s] is a space, and no two of them are
    neighbours. *)
Fixpoint singleSpaced (s : gostring) : bool :=
  match s with
  | [] => true
  | b :: s' =>
    (if asciiSpace b then bool_decide (b = x20) && headNotSpace s' else true)
    && singleSpaced s'
  end.

(** [old] occurs somewhere in [s]. *)
Definition occursIn (old s : gostring) : Prop :=
  ∃ before after, s = before ++ old ++ after.

(** The first [*filter.PINAndShortcuts] among the command filters. *)
Fixpoint firstPIN (fs : list CommandFilter) : option PINAndShortcuts.t :=
  match fs with
  | [] => None
  | CFPINAndShortcuts pin :: _ => Some pin
  | _ :: fs' => firstPIN fs'
  end.

(** A call of a result filter. *)
Definition isResultFilterCall (e : event) : Prop :=
  match e with EvResultFilter _ _ => True | _ => False end.

(** A result filter of package filter. *)
Definition fromPackage (f : ResultFilter) : Prop :=
  match f with RFOther _ => False | _ => True end.

(** [SayEmptyOutput] or [NotifyViaEmail]. *)
Definition sayOrNotify (f : ResultFilter) : Prop :=
  match f with RFSayEmptyOutput | RFNotifyViaEmail _ => True | _ => False end.

(** The groups [gs] fit the pieces [ps]: one group for each captured piece,
    made of characters of its class, and not empty when the piece asks for
    at least one character. *)
Fixpoint groupsFit (ps : list piece) (gs : list gostring) : Prop :=
  match ps with
  | [] => gs = []
  | p :: ps' =>
    if captured p then
      match gs with
      | g :: gs' =>
        forallb (inClass (cls p)) g = true ∧ (atLeastOne p = true → g ≠ []) ∧
        groupsFit ps' gs'
      | [] => False
      end
    else groupsFit ps' gs
  end.

(** The trigger is one of the two whose commands are kept out of the log. *)
Definition sensitive (AESDecryptTrigger TwoFATrigger trigger : gostring) : bool :=
  bool_decide (trigger = AESDecryptTrigger) || bool_decide (trigger = TwoFATrigger).

(* ===================================================================== *)
(** ** Go's library functions *)
(* ===================================================================== *)

Lemma byteZ_inj a b : byteZ a = byteZ b → a = b.
Proof.
  unfold byteZ. intros H. apply N2Z.inj in H.
  assert (Some a = Some b) as E by (rewrite <- !Byte.of_to_N; now rewrite H).
  now inversion E.
Qed.

Lemma byteZ_nonneg a : 0 <= byteZ a.
Proof. unfold byteZ. lia. Qed.

Lemma xorFold_zero x : ∀ y v,
  length x = length y → (xorFold v x y = 0 ↔ v = 0 ∧ x = y).
Proof.
  induction x as [|a x IH]; intros [|b y] v Hlen; simpl in *; try discriminate.
  - intuition.
  - rewrite IH by lia. rewrite Z.lor_eq_0_iff, Z.lxor_eq_0_iff. split.
    + intros [[-> Hab] ->]. apply byteZ_inj in Hab. now subst.
    + intros [-> E]. inversion E; subst. auto.
Qed.

(** [subtle.ConstantTimeCompare] decides the equality of two byte slices. *)
Lemma ConstantTimeCompare_eq x y : ConstantTimeCompare x y = 1 ↔ x = y.
Proof.
  unfold ConstantTimeCompare. destruct (length x =? length y)%nat eqn:E; simpl.
  - apply Nat.eqb_eq in E. destruct (xorFold 0 x y =? 0) eqn:F.
    + apply Z.eqb_eq in F. apply xorFold_zero in F; [|assumption]. tauto.
    + apply Z.eqb_neq in F. split; [discriminate|].
      intros ->. exfalso. apply F. apply xorFold_zero; auto.
  - apply Nat.eqb_neq in E. split; [discriminate|]. intros ->. now destruct E.
Qed.

(* ===================================================================== *)
(** ** PINAndShortcuts and TranslateSequences *)
(* ===================================================================== *)

Lemma matchPIN_spec pin line :
  PINAndShortcuts.matchPIN pin line = true ↔ startsWithPIN pin line.
Proof.
  unfold PINAndShortcuts.matchPIN, startsWithPIN, sliceTo.
  rewrite andb_true_iff, Nat.ltb_lt, Z.eqb_eq, ConstantTimeCompare_eq. tauto.
Qed.

Lemma lookupShortcut_spec pin line v :
  PINAndShortcuts.lookupShortcut pin line = Some v ↔ isShortcut pin line v.
Proof.
  unfold PINAndShortcuts.lookupShortcut, isShortcut.
  destruct (PINAndShortcuts.Shortcuts pin) as [m|]; split.
  - intros H. now exists m.
  - intros (m' & E & H). now inversion E; subst.
  - discriminate.
  - intros (m' & E & _). discriminate.
Qed.

Lemma matchesNothing_step pin line :
  matchesNothing pin line →
  PINAndShortcuts.lookupShortcut pin line = None ∧
  PINAndShortcuts.matchPIN pin line = false.
Proof.
  intros [Hs Hp]. split.
  - destruct (PINAndShortcuts.lookupShortcut pin line) as [v|] eqn:E; [|reflexivity].
    apply lookupShortcut_spec in E. now destruct (Hs v).
  - destruct (PINAndShortcuts.matchPIN pin line) eqn:E; [|reflexivity].
    apply matchPIN_spec in E. now destruct Hp.
Qed.

(** The loop passes over the lines that match nothing. *)
Lemma scanLines_skip pin c before rest :
  Forall (λ l, matchesNothing pin (TrimSpace l)) before →
  PINAndShortcuts.scanLines pin c (before ++ rest) = PINAndShortcuts.scanLines pin c rest.
Proof.
  induction 1 as [|l before Hl _ IH]; simpl; [reflexivity|].
  destruct (matchesNothing_step _ _ Hl) as [-> ->]. exact IH.
Qed.

Lemma undefined_false pin :
  PINAndShortcuts.PIN pin ≠ [] ∨
  (∃ m, PINAndShortcuts.Shortcuts pin = Some m ∧ m ≠ ∅) →
  PINAndShortcuts.undefined pin = false.
Proof.
  unfold PINAndShortcuts.undefined. intros [H | (m & -> & H)].
  - now rewrite bool_decide_eq_false_2.
  - apply andb_false_intro2. apply bool_decide_eq_false_2.
    intros E. now apply map_size_empty_iff in E.
Qed.

(** C1. With a PIN or a shortcut defined, [Transform] looks at the trimmed
    lines of the command in order.  The first line that is a shortcut or
    starts with the PIN decides: a shortcut gives a command whose [Content] is
    its expansion, and otherwise a line strictly longer than the PIN whose
    leading bytes are the PIN gives a command whose [Content] is the rest of
    the line; in both cases there is no error and the other fields are those
    of the input.  When no line matches, the error is
    [ErrPINAndShortcutNotFound]. *)
Theorem PINAndShortcuts_Transform_first_match (pin : PINAndShortcuts.t) (c : Command) :
  PINAndShortcuts.PIN pin ≠ [] ∨
  (∃ m, PINAndShortcuts.Shortcuts pin = Some m ∧ m ≠ ∅) →
  (∀ before line after,
     Lines c = before ++ line :: after →
     Forall (λ l, matchesNothing pin (TrimSpace l)) before →
     (∀ v, isShortcut pin (TrimSpace line) v →
           (PINAndShortcuts.Transform pin c).2 = None ∧
           Content (PINAndShortcuts.Transform pin c).1 = v ∧
           PINAndShortcuts.Transform pin c
             = (mkCommand v (TimeoutSec c) (DaemonName c), None)) ∧
     ((∀ v, ¬ isShortcut pin (TrimSpace line) v) →
      startsWithPIN pin (TrimSpace line) →
      (PINAndShortcuts.Transform pin c).2 = None ∧
      Content (PINAndShortcuts.Transform pin c).1
        = drop (length (PINAndShortcuts.PIN pin)) (TrimSpace line) ∧
      PINAndShortcuts.Transform pin c =
        (mkCommand (drop (length (PINAndShortcuts.PIN pin)) (TrimSpace line))
                   (TimeoutSec c) (DaemonName c), None)))
  ∧ (Forall (λ l, matchesNothing pin (TrimSpace l)) (Lines c) →
     (PINAndShortcuts.Transform pin c).2 = Some ErrPINAndShortcutNotFound ∧
     PINAndShortcuts.Transform pin c = (c, Some ErrPINAndShortcutNotFound)).
Proof.
  intros Hdef. unfold PINAndShortcuts.Transform.
  rewrite (undefined_false _ Hdef). split.
  - intros before line after -> Hbefore. rewrite scanLines_skip by assumption.
    simpl. split.
    + intros v Hv. apply lookupShortcut_spec in Hv. rewrite Hv. repeat split.
    + intros Hno Hpin.
      destruct (PINAndShortcuts.lookupShortcut pin (TrimSpace line)) as [v|] eqn:E.
      * apply lookupShortcut_spec in E. now destruct (Hno v).
      * apply matchPIN_spec in Hpin. rewrite Hpin. repeat split.
  - intros Hall. rewrite <- (app_nil_r (Lines c)).
    rewrite scanLines_skip by assumption. split; reflexivity.
Qed.

(** C7. With an empty PIN and an empty or nil shortcut map, [Transform]
    fails for every command, and its error is not the credential error
    [ErrPINAndShortcutNotFound]: neither the same value nor the same text. *)
Theorem PINAndShortcuts_Transform_undefined (pin : PINAndShortcuts.t) (c : Command)
    (lockDownText emptyText : gostring) :
  PINAndShortcuts.PIN pin = [] →
  PINAndShortcuts.Shortcuts pin = None ∨ PINAndShortcuts.Shortcuts pin = Some ∅ →
  ∃ e, (PINAndShortcuts.Transform pin c).2 = Some e ∧
       e ≠ ErrPINAndShortcutNotFound ∧
       errorText lockDownText emptyText e ≠
         errorText lockDownText emptyText ErrPINAndShortcutNotFound.
Proof.
  intros HP HS. exists ErrPINAndShortcutsUndefined.
  unfold PINAndShortcuts.Transform, PINAndShortcuts.undefined.
  rewrite HP. destruct HS as [-> | ->]; simpl; repeat split; discriminate.
Qed.

Lemma scanLines_frame pin c lines ret :
  PINAndShortcuts.scanLines pin c lines = (ret, None) →
  TimeoutSec ret = TimeoutSec c ∧ DaemonName ret = DaemonName c.
Proof.
  induction lines as [|l lines IH]; simpl; [discriminate|].
  destruct (PINAndShortcuts.lookupShortcut pin (TrimSpace l)).
  - intros E. inversion E; subst. now simpl.
  - destruct (PINAndShortcuts.matchPIN pin (TrimSpace l)); [|exact IH].
    intros E. inversion E; subst. now simpl.
Qed.

(** C10. A successful [PINAndShortcuts.Transform] and every
    [TranslateSequences.Transform] (which never fails) give back the input
    command with at most its content changed: [TimeoutSec] and [DaemonName]
    are those of the input. *)
Theorem command_filters_frame (c : Command) :
  (∀ pin ret,
     PINAndShortcuts.Transform pin c = (ret, None) →
     TimeoutSec ret = TimeoutSec c ∧ DaemonName ret = DaemonName c ∧
     ret = withContent c (Content ret)) ∧
  (∀ tr, ∃ ret,
     TranslateSequences.Transform tr c = (ret, None) ∧
     TimeoutSec ret = TimeoutSec c ∧ DaemonName ret = DaemonName c ∧
     ret = withContent c (Content ret)).
Proof.
  split.
  - intros pin ret. unfold PINAndShortcuts.Transform.
    destruct (PINAndShortcuts.undefined pin); [discriminate|].
    intros H. apply scanLines_frame in H. destruct H as [Ht Hd].
    destruct ret, c; simpl in *. now subst.
  - intros tr. unfold TranslateSequences.Transform.
    destruct (TranslateSequences.Sequences tr).
    + eexists. repeat split; reflexivity.
    + exists c. repeat split. now destruct c.
Qed.

(* ===================================================================== *)
(** ** LintText *)
(* ===================================================================== *)

(** *** Bytes *)

Lemma asciiSpace_ascii b : asciiSpace b = true → isASCII b = true.
Proof. destruct b; simpl; intros H; try discriminate H; reflexivity. Qed.

Lemma asciiSpace_visible b : asciiSpace b = true → visible b = true.
Proof.
  intros H. unfold visible. rewrite (asciiSpace_ascii _ H), H. now rewrite orb_true_r.
Qed.

Lemma encodings_shape e :
  e ∈ whiteSpaceEncodings →
  (∃ b, e = [b] ∧ asciiSpace b = true) ∨ (e ≠ [] ∧ Forall (λ b, isASCII b = false) e).
Proof.
  intros He.
  assert (forallb encodingShape whiteSpaceEncodings = true) as H by reflexivity.
  rewrite forallb_forall in H. apply list_elem_of_In in He. specialize (H e He).
  unfold encodingShape in H. destruct e as [|b [|b' e']].
  - discriminate.
  - apply orb_true_iff in H. destruct H as [H|H]; [left; eauto|right].
    split; [discriminate|]. constructor; [|constructor]. now apply negb_true_iff.
  - right. split; [discriminate|]. apply andb_true_iff in H. destruct H as [_ H].
    rewrite forallb_forall in H. apply Forall_forall. intros x Hx.
    apply negb_true_iff, H. now apply list_elem_of_In.
Qed.

Lemma asciiSpace_encoding b : asciiSpace b = true → [b] ∈ whiteSpaceEncodings.
Proof.
  intros H. destruct b; try discriminate H; unfold whiteSpaceEncodings;
    repeat (first [apply list_elem_of_here | apply list_elem_of_further]).
Qed.

(** *** HasPrefix, leadWidth, stripLeading *)

Lemma HasPrefix_prefix s e : HasPrefix s e = true ↔ e `prefix_of` s.
Proof.
  revert s. induction e as [|a e IH]; intros s; simpl.
  - split; [intros _; apply prefix_nil | reflexivity].
  - destruct s as [|b s]; simpl.
    + split; [discriminate|]. intros H. now apply prefix_nil_not in H.
    + rewrite andb_true_iff, bool_decide_eq_true, IH. split.
      * intros [-> H]. now apply prefix_cons.
      * intros H. split; [eapply prefix_cons_inv_1 | eapply prefix_cons_inv_2]; eassumption.
Qed.

Lemma leadWidth_zero encs s :
  Forall (λ e, e ≠ []) encs →
  (leadWidth encs s = 0%nat ↔ ∀ e, e ∈ encs → ¬ e `prefix_of` s).
Proof.
  induction 1 as [|e encs He _ IH]; simpl.
  - split; [|reflexivity]. intros _ e He. now apply not_elem_of_nil in He.
  - destruct (HasPrefix s e) eqn:E.
    + split.
      * intros H. destruct e; [congruence|discriminate].
      * intros H. exfalso. apply (H e); [constructor|]. now apply HasPrefix_prefix.
    + rewrite IH. split.
      * intros H e' He'. apply elem_of_cons in He'. destruct He' as [->|He']; [|auto].
        intros Hp. apply HasPrefix_prefix in Hp. congruence.
      * intros H e' He'. apply H. now constructor.
Qed.

Lemma stripLeading_clear encs s :
  leadWidth encs s = 0%nat → stripLeading encs 0 s = s.
Proof. destruct s; simpl; [reflexivity|]. now intros ->. Qed.

Lemma leadWidth_nil encs : leadWidth encs [] = 0%nat.
Proof. induction encs as [|[|b e] encs IH]; simpl; auto. Qed.

Lemma stripLeading_leadWidth encs s : ∀ k,
  leadWidth encs (stripLeading encs k s) = 0%nat.
Proof.
  induction s as [|b s IH]; intros k; simpl.
  - apply leadWidth_nil.
  - destruct k; [|apply IH].
    destruct (leadWidth encs (b :: s)) eqn:E; [exact E | apply IH].
Qed.

Lemma stripLeading_suffix encs s : ∀ k, stripLeading encs k s `suffix_of` s.
Proof.
  induction s as [|b s IH]; intros k; simpl.
  - apply suffix_nil.
  - destruct k; [|apply suffix_cons_r, IH].
    destruct (leadWidth encs (b :: s)); [reflexivity | apply suffix_cons_r, IH].
Qed.

Lemma encodings_nonempty : Forall (λ e : gostring, e ≠ []) whiteSpaceEncodings.
Proof. repeat constructor; discriminate. Qed.

Lemma encodings_reverse_nonempty :
  Forall (λ e : gostring, e ≠ []) (map reverse whiteSpaceEncodings).
Proof. repeat constructor; discriminate. Qed.

Lemma headClear_leadWidth s : leadWidth whiteSpaceEncodings s = 0%nat ↔ headClear s.
Proof. apply leadWidth_zero, encodings_nonempty. Qed.

Lemma tailClear_leadWidth s :
  leadWidth (map reverse whiteSpaceEncodings) (reverse s) = 0%nat ↔ tailClear s.
Proof.
  rewrite (leadWidth_zero _ _ encodings_reverse_nonempty). unfold tailClear. split.
  - intros H e He Hs. apply (H (reverse e)).
    + apply list_elem_of_fmap. eauto.
    + now apply suffix_prefix_reverse.
  - intros H e' He' Hp. apply list_elem_of_fmap in He'. destruct He' as (e & -> & He).
    apply (H e He). now apply suffix_prefix_reverse.
Qed.

(** [TrimSpace] leaves a string that neither starts nor ends with white
    space, cut out of the string it is given. *)
Lemma TrimRightSpace_prefix s : TrimRightSpace s `prefix_of` s.
Proof.
  unfold TrimRightSpace. apply prefix_suffix_reverse. rewrite reverse_involutive.
  apply stripLeading_suffix.
Qed.

Lemma TrimLeftSpace_suffix s : TrimLeftSpace s `suffix_of` s.
Proof. apply stripLeading_suffix. Qed.

Lemma headClear_prefix p s : headClear s → p `prefix_of` s → headClear p.
Proof. intros H Hp e He Hep. apply (H e He). now transitivity p. Qed.

Lemma tailClear_suffix p s : tailClear s → p `suffix_of` s → tailClear p.
Proof. intros H Hp e He Hep. apply (H e He). now transitivity p. Qed.

Lemma TrimSpace_clear s : headClear (TrimSpace s) ∧ tailClear (TrimSpace s).
Proof.
  unfold TrimSpace. split.
  - apply (headClear_prefix _ (TrimLeftSpace s)); [|apply TrimRightSpace_prefix].
    apply headClear_leadWidth, stripLeading_leadWidth.
  - apply tailClear_leadWidth. unfold TrimRightSpace. rewrite reverse_involutive.
    apply stripLeading_leadWidth.
Qed.

Lemma TrimLeftSpace_fixed s : headClear s → TrimLeftSpace s = s.
Proof. intros H. apply stripLeading_clear. now apply headClear_leadWidth. Qed.

Lemma TrimRightSpace_fixed s : tailClear s → TrimRightSpace s = s.
Proof.
  intros H. unfold TrimRightSpace. rewrite stripLeading_clear.
  - apply reverse_involutive.
  - now apply tailClear_leadWidth.
Qed.

Lemma TrimSpace_fixed s : headClear s → tailClear s → TrimSpace s = s.
Proof.
  intros H1 H2. unfold TrimSpace. rewrite (TrimLeftSpace_fixed _ H1).
  now apply TrimRightSpace_fixed.
Qed.

Lemma TrimSpace_infix s : ∃ p q, s = p ++ TrimSpace s ++ q.
Proof.
  destruct (TrimLeftSpace_suffix s) as [p Hp].
  destruct (TrimRightSpace_prefix (TrimLeftSpace s)) as [q Hq].
  exists p, q. unfold TrimSpace. now rewrite <- Hq.
Qed.

(** *** Prefixes and suffixes around a separator *)

Lemma prefix_before (c : byte) (e : gostring) : ∀ a b,
  c ∉ e → e `prefix_of` a ++ c :: b → e `prefix_of` a.
Proof.
  induction e as [|x e IH]; intros a b Hc Hp; [apply prefix_nil|].
  destruct a as [|y a]; simpl in Hp.
  - apply prefix_cons_inv_1 in Hp. subst. exfalso. apply Hc. constructor.
  - pose proof (prefix_cons_inv_1 _ _ _ _ Hp) as ->.
    apply prefix_cons, (IH a b).
    + intros H. apply Hc. now constructor.
    + eapply prefix_cons_inv_2. eassumption.
Qed.

Lemma suffix_after (c : byte) e a b :
  c ∉ e → e `suffix_of` a ++ c :: b → e `suffix_of` b.
Proof.
  intros Hc Hs. apply suffix_prefix_reverse. apply suffix_prefix_reverse in Hs.
  rewrite reverse_app, reverse_cons, <- app_assoc in Hs. simpl in Hs.
  apply (prefix_before c _ _ (reverse a)); [|assumption].
  rewrite elem_of_reverse. exact Hc.
Qed.

(** An encoding other than the line feed holds no line feed. *)
Lemma encoding_noLF e : e ∈ whiteSpaceEncodings → e ≠ [x0a] → x0a ∉ e.
Proof.
  intros He Hne Hin. destruct (encodings_shape e He) as [(b & -> & Hb) | (_ & HF)].
  - apply list_elem_of_singleton in Hin. congruence.
  - rewrite Forall_forall in HF. specialize (HF _ Hin). discriminate.
Qed.

Lemma headClear_inLine s : headClear s → headClearInLine s.
Proof. intros H e He _. now apply H. Qed.

Lemma tailClear_inLine s : tailClear s → tailClearInLine s.
Proof. intros H e He _. now apply H. Qed.

Lemma headClearInLine_noLF s : noLF s → headClearInLine s → headClear s.
Proof.
  intros Hn H e He Hp. destruct (decide (e = [x0a])) as [->|Hne]; [|now apply (H e)].
  apply Hn. eapply elem_of_prefix; [|eassumption]. constructor.
Qed.

Lemma tailClearInLine_noLF s : noLF s → tailClearInLine s → tailClear s.
Proof.
  intros Hn H e He Hp. destruct (decide (e = [x0a])) as [->|Hne]; [|now apply (H e)].
  apply Hn. destruct Hp as [k ->]. apply elem_of_app. right. constructor.
Qed.

Lemma headClear_nil : headClear [].
Proof.
  intros e He Hp. apply prefix_nil_inv in Hp. subst.
  pose proof encodings_nonempty as H. rewrite Forall_forall in H. now apply (H _ He).
Qed.

Lemma tailClear_nil : tailClear [].
Proof.
  intros e He Hp. apply suffix_nil_inv in Hp. subst.
  pose proof encodings_nonempty as H. rewrite Forall_forall in H. now apply (H _ He).
Qed.

(** *** Lines *)

Lemma splitLF_cases y :
  (noLF y ∧ splitLF y = [y]) ∨
  (∃ a b, y = a ++ x0a :: b ∧ noLF a ∧ splitLF y = a :: splitLF b).
Proof.
  induction y as [|c y IH]; simpl.
  - left. split; [apply not_elem_of_nil | reflexivity].
  - case_bool_decide as Hc.
    + subst. right. exists [], y. repeat split. apply not_elem_of_nil.
    + destruct IH as [[Hn ->] | (a & b & -> & Hn & ->)].
      * left. split; [|reflexivity]. intros H. apply elem_of_cons in H.
        destruct H as [H|H]; [congruence | auto].
      * right. exists (c :: a), b. repeat split. intros H. apply elem_of_cons in H.
        destruct H as [H|H]; [congruence | auto].
Qed.

Lemma splitLF_join y : concat (map (λ l, l ++ [x0a]) (splitLF y)) = y ++ [x0a].
Proof.
  induction y as [|c y IH]; simpl; [reflexivity|].
  case_bool_decide as Hc; simpl.
  - subst. now rewrite IH.
  - destruct (splitLF y) as [|l ls]; simpl in *.
    + destruct y; discriminate.
    + now rewrite IH.
Qed.

Lemma splitLF_noLF y : Forall noLF (splitLF y).
Proof.
  induction y as [|c y IH]; simpl.
  - repeat constructor. apply not_elem_of_nil.
  - case_bool_decide as Hc.
    + constructor; [apply not_elem_of_nil | assumption].
    + destruct (splitLF y) as [|l ls]; [repeat constructor|].
      * intros H. apply list_elem_of_singleton in H. congruence.
      * inversion IH; subst. constructor; [|assumption].
        intros H. apply elem_of_cons in H. destruct H as [H|H]; [congruence | auto].
Qed.

(** Where a string that starts with a line without line feed is cut at a
    line feed: at the end of that line, or later. *)
Lemma split_at_LF t : ∀ a b rest,
  noLF t → t ++ x0a :: rest = a ++ x0a :: b →
  (a = t ∧ b = rest) ∨ (∃ a', a = t ++ x0a :: a' ∧ rest = a' ++ x0a :: b).
Proof.
  induction t as [|x t IH]; intros a b rest Hn E; simpl in E.
  - destruct a as [|y a]; simpl in E; inversion E; subst; [now left|].
    right. exists a. split; reflexivity.
  - destruct a as [|y a]; simpl in E; inversion E; subst.
    + exfalso. apply Hn. constructor.
    + destruct (IH a b rest) as [[-> ->] | (a' & -> & ->)]; try assumption.
      * intros H. apply Hn. now constructor.
      * now left.
      * right. exists a'. split; reflexivity.
Qed.

Lemma linesClear_tail a b : linesClear (a ++ x0a :: b) → linesClear b.
Proof.
  intros H a' b' ->. destruct (H (a ++ x0a :: a') b') as [Ht Hh].
  - now rewrite <- app_assoc.
  - split; [|assumption]. intros e He Hne Hs. apply (Ht e He Hne).
    apply suffix_app_r. now apply suffix_cons_r.
Qed.

(** The lines of a string whose lines are clear, one by one. *)
Lemma trimmed_lines n : ∀ y,
  (length y < n)%nat →
  headClearInLine y → tailClearInLine y → linesClear y →
  Forall (λ l, headClear l ∧ tailClear l) (splitLF y).
Proof.
  induction n as [|n IH]; intros y Hlen Hh Ht Hl; [lia|].
  destruct (splitLF_cases y) as [[Hn ->] | (a & b & -> & Hn & ->)].
  - repeat constructor.
    + now apply headClearInLine_noLF.
    + now apply tailClearInLine_noLF.
  - destruct (Hl a b eq_refl) as [Hta Hhb]. constructor.
    + split.
      * apply headClearInLine_noLF; [assumption|]. intros e He Hne Hp.
        apply (Hh e He Hne). now apply prefix_app_r.
      * now apply tailClearInLine_noLF.
    + apply IH.
      * rewrite length_app in Hlen. simpl in Hlen. lia.
      * assumption.
      * intros e He Hne Hs. apply (Ht e He Hne). apply suffix_app_r. now apply suffix_cons_r.
      * eapply linesClear_tail. eassumption.
Qed.

Lemma TrimSpace_with_LF y : headClear y → tailClear y → TrimSpace (y ++ [x0a]) = y.
Proof.
  intros Hh Ht. destruct y as [|c y]; [reflexivity|].
  unfold TrimSpace. rewrite TrimLeftSpace_fixed.
  - unfold TrimRightSpace. rewrite reverse_app. simpl.
    change (reverse [x0a]) with [x0a]. simpl.
    rewrite stripLeading_clear; [apply reverse_involutive|].
    now apply tailClear_leadWidth.
  - intros e He Hp. destruct (decide (e = [x0a])) as [->|Hne].
    + apply (Hh [x0a] He). simpl in Hp. apply prefix_cons_inv_1 in Hp. subst.
      apply prefix_cons, prefix_nil.
    + apply (Hh e He). apply (prefix_before x0a _ _ []); [|assumption].
      now apply encoding_noLF.
Qed.

(** Step 1 leaves a string whose lines are clear, and leaves such a string
    as it is. *)
Lemma trimLines_fixed y : trimmedLines y → LintText.trimLines y = y.
Proof.
  intros (Hh & Ht & Hl). unfold LintText.trimLines.
  assert (Forall (λ l, headClear l ∧ tailClear l) (splitLF y)) as HF.
  { apply (trimmed_lines (S (length y))); auto using headClear_inLine, tailClear_inLine. }
  assert (map (λ line, TrimSpace line ++ [x0a]) (splitLF y)
          = map (λ l, l ++ [x0a]) (splitLF y)) as ->.
  { apply map_ext_Forall. eapply Forall_impl; [exact HF|].
    intros l [H1 H2]. simpl. now rewrite TrimSpace_fixed. }
  rewrite splitLF_join. now apply TrimSpace_with_LF.
Qed.

Lemma linesClear_joined ts :
  Forall (λ t, headClear t ∧ tailClear t ∧ noLF t) ts →
  linesClear (concat (map (λ t, t ++ [x0a]) ts)).
Proof.
  induction 1 as [|t ts (Hh & Ht & Hn) HF IH]; simpl.
  - intros a b E. destruct a; discriminate.
  - intros a b E. rewrite <- app_assoc in E. simpl in E.
    destruct (split_at_LF _ _ _ _ Hn E) as [[-> ->] | (a' & -> & E')].
    + split; [now apply tailClear_inLine|].
      destruct HF as [|t2 ts2 (Hh2 & _ & _) _]; simpl.
      * intros e He _. now apply headClear_nil.
      * intros e He Hne Hp. rewrite <- app_assoc in Hp. simpl in Hp.
        apply (Hh2 e He). apply (prefix_before x0a _ _ (concat (map (λ t, t ++ [x0a]) ts2)));
          [now apply encoding_noLF | assumption].
    + destruct (IH a' b E') as [Hta Hhb]. split; [|assumption].
      intros e He Hne Hs. apply (Hta e He Hne).
      apply (suffix_after x0a _ t); [now apply encoding_noLF | assumption].
Qed.

Lemma noLF_infix p m q : noLF (p ++ m ++ q) → noLF m.
Proof. intros H Hm. apply H. rewrite !elem_of_app. auto. Qed.

Lemma trimLines_trimmed s : trimmedLines (LintText.trimLines s).
Proof.
  unfold LintText.trimLines.
  set (inner := concat (map (λ line, TrimSpace line ++ [x0a]) (splitLF s))).
  destruct (TrimSpace_clear inner) as [Hh Ht]. split; [assumption|]. split; [assumption|].
  assert (linesClear inner) as Hl.
  { subst inner. rewrite <- (map_map TrimSpace (λ t, t ++ [x0a])).
    apply linesClear_joined. apply Forall_map.
    eapply Forall_impl; [apply splitLF_noLF|]. intros l Hn. simpl.
    destruct (TrimSpace_clear l) as [H1 H2]. repeat split; try assumption.
    destruct (TrimSpace_infix l) as (p & q & E). rewrite E in Hn.
    eapply noLF_infix. eassumption. }
  destruct (TrimSpace_infix inner) as (p & q & E).
  intros a b Em. rewrite Em in E.
  destruct (Hl (p ++ a) (b ++ q)) as [Hta Hhb].
  { rewrite E. rewrite <- !app_assoc. reflexivity. }
  split.
  - intros e He Hne Hs. apply (Hta e He Hne). now apply suffix_app_r.
  - intros e He Hne Hp. apply (Hhb e He Hne). now apply prefix_app_r.
Qed.

(** *** Step 2: the lines joined *)

Lemma joinLines_map s : LintText.joinLines s = map semicolonForLF s.
Proof.
  unfold LintText.joinLines, ReplaceAll. simpl.
  induction s as [|b s IH]; simpl; [reflexivity|].
  unfold semicolonForLF at 1. rewrite andb_true_r.
  destruct (decide (b = x0a)) as [->|Hb].
  - simpl. now rewrite IH.
  - rewrite (bool_decide_eq_false_2 (x0a = b)) by congruence.
    rewrite (bool_decide_eq_false_2 (b = x0a)) by assumption. now rewrite IH.
Qed.

Lemma joinLines_noLF s : noLF (LintText.joinLines s).
Proof.
  rewrite joinLines_map. intros H. apply list_elem_of_fmap in H.
  destruct H as (b & Hb & _). unfold semicolonForLF in Hb.
  case_bool_decide; [discriminate | congruence].
Qed.

Lemma joinLines_fixed s : noLF s → LintText.joinLines s = s.
Proof.
  rewrite joinLines_map. induction s as [|b s IH]; intros Hn; simpl; [reflexivity|].
  rewrite IH by (intros H; apply Hn; now constructor). f_equal.
  unfold semicolonForLF. case_bool_decide; [|reflexivity].
  subst. exfalso. apply Hn. constructor.
Qed.

Lemma encoding_no_semicolon e : e ∈ whiteSpaceEncodings → x3b ∉ e.
Proof.
  intros He Hin. destruct (encodings_shape e He) as [(b & -> & Hb) | (_ & HF)].
  - apply list_elem_of_singleton in Hin. subst. discriminate.
  - rewrite Forall_forall in HF. specialize (HF _ Hin). discriminate.
Qed.

Lemma prefix_joined (e : gostring) : ∀ y,
  x3b ∉ e → e `prefix_of` map semicolonForLF y → e `prefix_of` y.
Proof.
  induction e as [|b e IH]; intros y Hn Hp; [apply prefix_nil|].
  destruct y as [|c y]; simpl in Hp; [now apply prefix_nil_not in Hp|].
  pose proof (prefix_cons_inv_1 _ _ _ _ Hp) as Hb.
  apply prefix_cons_inv_2 in Hp.
  assert (c = b) as ->.
  { unfold semicolonForLF in Hb. case_bool_decide; [|congruence].
    subst. exfalso. apply Hn. constructor. }
  apply prefix_cons, IH; [|assumption]. intros H. apply Hn. now constructor.
Qed.

Lemma suffix_joined (e y : gostring) :
  x3b ∉ e → e `suffix_of` map semicolonForLF y → e `suffix_of` y.
Proof.
  intros Hn Hs. apply suffix_prefix_reverse. apply suffix_prefix_reverse in Hs.
  rewrite <- fmap_reverse in Hs. apply prefix_joined; [|assumption].
  now rewrite elem_of_reverse.
Qed.

Lemma joinLines_clear y :
  headClear y → tailClear y →
  headClear (LintText.joinLines y) ∧ tailClear (LintText.joinLines y).
Proof.
  intros Hh Ht. rewrite joinLines_map. split; intros e He H.
  - apply (Hh e He). apply prefix_joined; [now apply encoding_no_semicolon | assumption].
  - apply (Ht e He). apply suffix_joined; [now apply encoding_no_semicolon | assumption].
Qed.

(** *** Step 4: the spaces compressed *)

Lemma compressSpaces_idem s : ∀ r,
  LintText.compressSpaces r (LintText.compressSpaces r s) = LintText.compressSpaces r s.
Proof.
  induction s as [|b s IH]; intros r; simpl; [reflexivity|].
  destruct (asciiSpace b) eqn:E.
  - destruct r; [apply IH|]. simpl. now rewrite IH.
  - simpl. rewrite E. now rewrite IH.
Qed.

Lemma compressSpaces_length s : ∀ r,
  (length (LintText.compressSpaces r s) ≤ length s)%nat.
Proof.
  induction s as [|b s IH]; intros r; simpl; [lia|].
  pose proof (IH true). pose proof (IH false).
  destruct (asciiSpace b); [destruct r|]; simpl; lia.
Qed.

(** A prefix of a compressed string is compressed. *)
Lemma compressSpaces_take s : ∀ r n,
  LintText.compressSpaces r s = s →
  LintText.compressSpaces r (take n s) = take n s.
Proof.
  induction s as [|b s IH]; intros r n H; [now destruct n|].
  destruct n as [|n]; [reflexivity|]. simpl in *.
  destruct (asciiSpace b) eqn:E.
  - destruct r.
    + exfalso. pose proof (compressSpaces_length s true) as Hl.
      rewrite H in Hl. simpl in Hl. lia.
    + inversion H as [[Hb Hs]]. f_equal. rewrite Hs. now apply IH.
  - inversion H as [Hs]. f_equal. rewrite Hs. now apply IH.
Qed.

Lemma compressSpaces_noLF s : ∀ r, noLF (LintText.compressSpaces r s).
Proof.
  induction s as [|b s IH]; intros r; simpl; [apply not_elem_of_nil|].
  destruct (asciiSpace b) eqn:E; [destruct r|].
  - apply IH.
  - intros H. apply elem_of_cons in H. destruct H as [H|H]; [discriminate|]. now apply IH in H.
  - intros H. apply elem_of_cons in H. destruct H as [H|H]; [|now apply IH in H].
    subst. discriminate.
Qed.

Lemma compressSpaces_visible s : ∀ r,
  Forall (λ b, visible b = true) s →
  Forall (λ b, visible b = true) (LintText.compressSpaces r s).
Proof.
  induction s as [|b s IH]; intros r H; simpl; [constructor|].
  inversion H; subst. destruct (asciiSpace b); [destruct r|]; try constructor; auto.
Qed.

Lemma compressSpaces_nospace s :
  Forall (λ b, asciiSpace b = false) (LintText.compressSpaces false s) →
  LintText.compressSpaces false s = s.
Proof.
  induction s as [|b s IH]; simpl; [reflexivity|].
  destruct (asciiSpace b) eqn:E; intros H; inversion H; subst; [discriminate|].
  f_equal. auto.
Qed.

Lemma compressSpaces_prefix (e : gostring) : ∀ y,
  Forall (λ b, asciiSpace b = false) e →
  e `prefix_of` LintText.compressSpaces false y → e `prefix_of` y.
Proof.
  induction e as [|a e IH]; intros y HF Hp; [apply prefix_nil|].
  inversion HF; subst.
  destruct y as [|c y]; simpl in Hp; [now apply prefix_nil_not in Hp|].
  destruct (asciiSpace c) eqn:E.
  - apply prefix_cons_inv_1 in Hp. subst. discriminate.
  - pose proof (prefix_cons_inv_1 _ _ _ _ Hp) as ->.
    apply prefix_cons, IH; [assumption|]. eapply prefix_cons_inv_2. eassumption.
Qed.

Lemma compressSpaces_suffix (e : gostring) y : ∀ r,
  e ≠ [] → Forall (λ b, asciiSpace b = false) e →
  e `suffix_of` LintText.compressSpaces r y → e `suffix_of` y.
Proof.
  induction y as [|c y IH]; intros r Hne HF Hs; simpl in Hs.
  - apply suffix_nil_inv in Hs. congruence.
  - destruct e as [|a e]; [congruence|].
    destruct (asciiSpace c) eqn:E; [destruct r|].
    + apply suffix_cons_r. eapply IH; eassumption.
    + apply suffix_cons_inv in Hs. destruct Hs as [Hs|Hs].
      * inversion Hs; subst. inversion HF; subst. discriminate.
      * apply suffix_cons_r. eapply IH; eassumption.
    + apply suffix_cons_inv in Hs. destruct Hs as [Hs|Hs].
      * inversion Hs; subst. inversion HF; subst.
        rewrite compressSpaces_nospace by assumption. reflexivity.
      * apply suffix_cons_r. eapply IH; eassumption.
Qed.

Lemma compressSpaces_empty y : ∀ r,
  LintText.compressSpaces r y = [] → Forall (λ b, asciiSpace b = true) y.
Proof.
  induction y as [|c y IH]; intros r H; [constructor|]. simpl in H.
  destruct (asciiSpace c) eqn:E; [destruct r|]; try discriminate.
  constructor; [assumption | eauto].
Qed.

Lemma last_Forall (P : byte → Prop) y b : Forall P y → last y = Some b → P b.
Proof.
  intros HF Hl. rewrite Forall_forall in HF. apply HF. now apply last_Some_elem_of.
Qed.

(** A compressed string that ends with a space comes from a string that ends
    with white space. *)
Lemma compressSpaces_last y : ∀ r b,
  last (LintText.compressSpaces r y) = Some b → asciiSpace b = true →
  ∃ b', last y = Some b' ∧ asciiSpace b' = true.
Proof.
  induction y as [|c y IH]; intros r b Hl Hb; simpl in Hl; [discriminate|].
  rewrite last_cons.
  destruct (asciiSpace c) eqn:E; [destruct r|].
  - destruct (IH _ _ Hl Hb) as (b' & -> & Hb'). eauto.
  - rewrite last_cons in Hl.
    destruct (last (LintText.compressSpaces true y)) as [z|] eqn:Ez.
    + inversion Hl; subst. destruct (IH _ _ Ez Hb) as (b' & -> & Hb'). eauto.
    + apply last_None in Ez. apply compressSpaces_empty in Ez.
      destruct (last y) as [b'|] eqn:El; [|eauto].
      exists b'. split; [reflexivity|].
      exact (last_Forall (λ b, asciiSpace b = true) y b' Ez El).
  - rewrite last_cons in Hl.
    destruct (last (LintText.compressSpaces false y)) as [z|] eqn:Ez.
    + inversion Hl; subst. destruct (IH _ _ Ez Hb) as (b' & -> & Hb'). eauto.
    + inversion Hl; subst. congruence.
Qed.

Lemma nonASCII_nospace (e : gostring) :
  Forall (λ b, isASCII b = false) e → Forall (λ b, asciiSpace b = false) e.
Proof.
  intros H. eapply Forall_impl; [exact H|]. intros b Hb. simpl in *.
  destruct (asciiSpace b) eqn:E; [|reflexivity].
  apply asciiSpace_ascii in E. congruence.
Qed.

Lemma last_suffix (y : gostring) b : last y = Some b → [b] `suffix_of` y.
Proof. intros H. apply last_Some in H. destruct H as [l ->]. now exists l. Qed.

Lemma suffix_last (y : gostring) b : [b] `suffix_of` y → last y = Some b.
Proof. intros [l ->]. apply last_snoc. Qed.

Lemma compressSpaces_clear y :
  headClear y → tailClear y →
  headClear (LintText.compressSpaces false y) ∧ tailClear (LintText.compressSpaces false y).
Proof.
  intros Hh Ht. split; intros e He H.
  - destruct (encodings_shape e He) as [(b & -> & Hb) | (_ & HF)].
    + destruct y as [|c y]; simpl in H; [now apply prefix_nil_not in H|].
      destruct (asciiSpace c) eqn:E.
      * apply (Hh [c]); [now apply asciiSpace_encoding | apply prefix_cons, prefix_nil].
      * apply prefix_cons_inv_1 in H. congruence.
    + apply (Hh e He). apply compressSpaces_prefix; [now apply nonASCII_nospace | assumption].
  - destruct (encodings_shape e He) as [(b & -> & Hb) | (Hne & HF)].
    + apply suffix_last in H. destruct (compressSpaces_last _ _ _ H Hb) as (b' & Hl & Hb').
      apply (Ht [b']); [now apply asciiSpace_encoding | now apply last_suffix].
    + apply (Ht e He). eapply compressSpaces_suffix; [assumption | | eassumption].
      now apply nonASCII_nospace.
Qed.

(** *** Step 3: the runes that are kept *)

Lemma inRange_ascii lo hi c :
  (128 ≤ lo)%N → isASCII c = true → inRange lo hi c = false.
Proof.
  unfold isASCII, inRange. intros Hlo Hc. apply N.ltb_lt in Hc.
  apply andb_false_intro1. apply N.leb_gt. lia.
Qed.

Lemma isCont_ascii c : isASCII c = true → isCont c = false.
Proof. apply inRange_ascii. lia. Qed.

Lemma runeWidth_ascii b t : isASCII b = true → runeWidth (b :: t) = 1%nat.
Proof. intros H. simpl. now rewrite H. Qed.

Lemma runeWidth_length s : (runeWidth s ≤ length s)%nat.
Proof.
  destruct s as [|b0 [|b1 [|b2 [|b3 t]]]]; simpl; [lia|..];
    repeat match goal with
           | |- context [if ?x then _ else _] => destruct x
           end; simpl; lia.
Qed.

Lemma runeWidth_pos b t : (1 ≤ runeWidth (b :: t))%nat.
Proof.
  destruct t as [|b1 [|b2 [|b3 t]]]; simpl;
    repeat match goal with
           | |- context [if ?x then _ else _] => destruct x
           end; simpl; lia.
Qed.

(** The width of the first rune does not look beyond an ASCII byte. *)
Lemma runeWidth_before_ascii a c b :
  isASCII c = true → a ≠ [] → runeWidth (a ++ c :: b) = runeWidth a.
Proof.
  intros Hc Hne.
  assert (isCont c = false) as Hcont by now apply isCont_ascii.
  assert (∀ lo hi, (128 ≤ lo)%N → inRange lo hi c = false) as Hr
    by (intros; now apply inRange_ascii).
  destruct a as [|b0 [|b1 [|b2 [|b3 t]]]]; [congruence|..]; simpl;
    repeat first
      [ reflexivity
      | rewrite Hcont
      | rewrite Hr by (repeat case_bool_decide; lia)
      | rewrite andb_false_r
      | match goal with
        | |- context [match ?l with [] => _ | _ :: _ => _ end] => is_var l; destruct l
        | |- context [if ?x then _ else _] => destruct x eqn:?
        end ].
Qed.

#[local] Arguments runeWidth : simpl never.

Lemma visible_ascii b : visible b = true → isASCII b = true.
Proof. unfold visible. intros H. now apply andb_true_iff in H. Qed.

Lemma keepVisible_visible s : ∀ k,
  Forall (λ b, visible b = true) (LintText.keepVisible k s).
Proof.
  induction s as [|b s IH]; intros k; simpl; [constructor|].
  destruct k; [|apply IH]. constructor; [|apply IH].
  fold (visible b). destruct (visible b) eqn:E; [assumption | reflexivity].
Qed.

Lemma keepVisible_fixed s :
  Forall (λ b, visible b = true) s → LintText.keepVisible 0 s = s.
Proof.
  induction 1 as [|b s Hb _ IH]; simpl; [reflexivity|].
  fold (visible b). rewrite Hb.
  rewrite (runeWidth_ascii _ _ (visible_ascii _ Hb)). simpl. now rewrite IH.
Qed.

Lemma keepVisible_noLF s : ∀ k, noLF s → noLF (LintText.keepVisible k s).
Proof.
  induction s as [|b s IH]; intros k Hn; simpl; [apply not_elem_of_nil|].
  assert (noLF s) as Hs by (intros H; apply Hn; now constructor).
  destruct k; [|now apply IH].
  intros H. apply elem_of_cons in H. destruct H as [H|H]; [|now apply IH in H].
  destruct (isASCII b && _); [|discriminate]. subst. apply Hn. constructor.
Qed.

(** What the loop writes first for a string that starts with [b]. *)
Lemma keepVisible_head b s :
  ∃ rest, LintText.keepVisible 0 (b :: s) = (if visible b then b else x3f) :: rest.
Proof. simpl. eauto. Qed.

(** A kept string that ends with white space comes from a string that ends
    with the same byte. *)
Lemma keepVisible_last y : ∀ k b,
  last (LintText.keepVisible k y) = Some b → asciiSpace b = true → last y = Some b.
Proof.
  induction y as [|c y IH]; intros k b Hl Hb; simpl in Hl; [discriminate|].
  destruct k as [|k].
  - rewrite last_cons in Hl. rewrite last_cons.
    destruct (last (LintText.keepVisible (runeWidth (c :: y) - 1) y)) as [z|] eqn:Ez.
    + inversion Hl; subst. now rewrite (IH _ _ Ez Hb).
    + fold (visible c) in Hl. destruct (visible c) eqn:Ev; inversion Hl; subst;
        [|discriminate].
      rewrite (runeWidth_ascii _ _ (asciiSpace_ascii _ Hb)) in Ez. simpl in Ez.
      apply last_None in Ez. destruct y as [|d y]; [reflexivity|discriminate].
  - rewrite last_cons. now rewrite (IH _ _ Hl Hb).
Qed.

Lemma keepVisible_prefix e y :
  e ∈ whiteSpaceEncodings →
  e `prefix_of` LintText.keepVisible 0 y → e `prefix_of` y.
Proof.
  intros He Hp. destruct y as [|c y]; [exact Hp|].
  destruct (keepVisible_head c y) as [rest E]. rewrite E in Hp.
  destruct (encodings_shape e He) as [(b & -> & Hb) | (Hne & HF)].
  - apply prefix_cons_inv_1 in Hp. destruct (visible c); subst; [|discriminate].
    apply prefix_cons, prefix_nil.
  - destruct e as [|a e]; [congruence|]. apply prefix_cons_inv_1 in Hp.
    inversion HF as [|? ? Ha _]; subst. exfalso.
    destruct (visible c) eqn:Ev; [|discriminate]. apply visible_ascii in Ev. congruence.
Qed.

Lemma keepVisible_suffix e y k :
  e ∈ whiteSpaceEncodings →
  e `suffix_of` LintText.keepVisible k y → e `suffix_of` y.
Proof.
  intros He Hs. destruct (encodings_shape e He) as [(b & -> & Hb) | (Hne & HF)].
  - apply last_suffix. apply (keepVisible_last y k); [now apply suffix_last | assumption].
  - exfalso. destruct e as [|a e _] using rev_ind; [congruence|].
    apply Forall_app in HF. destruct HF as [_ HF]. inversion HF as [|? ? Ha _]; subst.
    assert (last (LintText.keepVisible k y) = Some a) as Hl.
    { destruct Hs as [l ->]. rewrite app_assoc. apply last_snoc. }
    pose proof (last_Forall _ _ _ (keepVisible_visible y k) Hl) as Hv. simpl in Hv.
    apply visible_ascii in Hv. congruence.
Qed.

(** The loop starts afresh after an ASCII byte. *)
Lemma keepVisible_app a : ∀ k c b,
  isASCII c = true → (k ≤ length a)%nat →
  LintText.keepVisible k (a ++ c :: b)
    = LintText.keepVisible k a ++ LintText.keepVisible 0 (c :: b).
Proof.
  induction a as [|x a IH]; intros k c b Hc Hk.
  - simpl in Hk. assert (k = 0%nat) as -> by lia. reflexivity.
  - destruct k as [|k].
    + change ((x :: a) ++ c :: b) with (x :: (a ++ c :: b)).
      cbn [LintText.keepVisible].
      change (x :: a ++ c :: b) with ((x :: a) ++ c :: b).
      rewrite (runeWidth_before_ascii (x :: a) c b Hc) by discriminate.
      rewrite IH; [reflexivity | assumption |].
      pose proof (runeWidth_length (x :: a)). simpl in *. lia.
    + simpl. apply IH; [assumption | simpl in Hk; lia].
Qed.

(** A line feed in the kept string is a line feed of the string. *)
Lemma keepVisible_split y : ∀ k A B,
  LintText.keepVisible k y = A ++ x0a :: B →
  ∃ a b, y = a ++ x0a :: b ∧
         LintText.keepVisible k a = A ∧ LintText.keepVisible 0 b = B.
Proof.
  induction y as [|c y IH]; intros k A B E; simpl in E.
  - destruct A; discriminate.
  - destruct k as [|k].
    + fold (visible c) in E. destruct A as [|o A]; simpl in E.
      * inversion E as [[Ho EB]]. destruct (visible c) eqn:Ev; [|discriminate].
        exists [], y. repeat split.
        rewrite (runeWidth_ascii _ _ (visible_ascii _ Ev)). reflexivity.
      * inversion E as [[Ho EA]]. destruct (IH _ _ _ EA) as (a & b & -> & Ha & Hb).
        exists (c :: a), b. repeat split; [|assumption]. simpl. fold (visible c).
        f_equal. rewrite <- Ha.
        change (c :: a ++ x0a :: b) with ((c :: a) ++ x0a :: b).
        now rewrite (runeWidth_before_ascii (c :: a) x0a b).
    + destruct (IH _ _ _ E) as (a & b & -> & Ha & Hb).
      exists (c :: a), b. repeat split; assumption.
Qed.

Lemma keepVisible_trimmed y : trimmedLines y → trimmedLines (LintText.keepVisible 0 y).
Proof.
  intros (Hh & Ht & Hl). split; [|split].
  - intros e He Hp. apply (Hh e He). now apply keepVisible_prefix.
  - intros e He Hs. apply (Ht e He). eapply keepVisible_suffix; eassumption.
  - intros A B E. destruct (keepVisible_split _ _ _ _ E) as (a & b & -> & <- & <-).
    destruct (Hl a b eq_refl) as [Hta Hhb]. split.
    + intros e He Hne Hs. apply (Hta e He Hne). eapply keepVisible_suffix; eassumption.
    + intros e He Hne Hp. apply (Hhb e He Hne). now apply keepVisible_prefix.
Qed.

Lemma trimmedLines_one_line y :
  noLF y → headClear y → tailClear y → trimmedLines y.
Proof.
  intros Hn Hh Ht. split; [assumption|]. split; [assumption|].
  intros a b ->. exfalso. apply Hn. apply elem_of_app. right. constructor.
Qed.

Lemma joinLines_trimmed y : trimmedLines y → trimmedLines (LintText.joinLines y).
Proof.
  intros (Hh & Ht & _). destruct (joinLines_clear y Hh Ht).
  apply trimmedLines_one_line; auto using joinLines_noLF.
Qed.

Lemma compressSpaces_trimmed y :
  trimmedLines y → trimmedLines (LintText.compressSpaces false y).
Proof.
  intros (Hh & Ht & _). destruct (compressSpaces_clear y Hh Ht).
  apply trimmedLines_one_line; auto using compressSpaces_noLF.
Qed.

(** *** The whole of LintText *)

Lemma cutLeading_off B s : B ≤ 0 → LintText.cutLeading B s = s.
Proof.
  intros H. unfold LintText.cutLeading.
  destruct (0 <? B) eqn:E; [|reflexivity]. apply Z.ltb_lt in E. lia.
Qed.

Lemma cutTrailing_off M s : M ≤ 0 → LintText.cutTrailing M s = s.
Proof.
  intros H. unfold LintText.cutTrailing.
  destruct (0 <? M) eqn:E; [|reflexivity]. apply Z.ltb_lt in E. lia.
Qed.

Lemma cutTrailing_take M s : ∃ n, LintText.cutTrailing M s = take n s.
Proof.
  unfold LintText.cutTrailing, sliceTo.
  destruct (0 <? M); [destruct (M <? Z.of_nat (length s))|]; eauto;
    exists (length s); now rewrite take_ge.
Qed.

Lemma cutTrailing_idem M s :
  LintText.cutTrailing M (LintText.cutTrailing M s) = LintText.cutTrailing M s.
Proof.
  unfold LintText.cutTrailing, sliceTo.
  destruct (0 <? M) eqn:E0; [|reflexivity].
  destruct (M <? Z.of_nat (length s)) eqn:E1; rewrite ?E1; [|reflexivity].
  apply Z.ltb_lt in E0, E1.
  destruct (M <? Z.of_nat (length (take (Z.to_nat M) s))) eqn:E2; [|reflexivity].
  apply Z.ltb_lt in E2. rewrite length_take in E2. lia.
Qed.

Lemma noLF_take n s : noLF s → noLF (take n s).
Proof. intros H Hin. apply H. eapply elem_of_prefix; [eassumption | apply prefix_take]. Qed.

(** A string that the switched-on steps have left, and that is short enough,
    is left as it is. *)
Lemma lint_fixed l y :
  LintText.BeginPosition l ≤ 0 →
  linted_by l y →
  LintText.cutTrailing (LintText.MaxLength l) y = y →
  LintText.lint l y = y.
Proof.
  intros HB (HT & HS & HK & HC) HM. unfold LintText.lint.
  assert ((if LintText.TrimSpaces l then LintText.trimLines y else y) = y) as ->
    by (destruct (LintText.TrimSpaces l); [now apply trimLines_fixed, HT | reflexivity]).
  assert ((if LintText.CompressToSingleLine l then LintText.joinLines y else y) = y) as ->
    by (destruct (LintText.CompressToSingleLine l); [now apply joinLines_fixed, HS | reflexivity]).
  assert ((if LintText.KeepVisible7BitCharOnly l then LintText.keepVisible 0 y else y) = y)
    as -> by (destruct (LintText.KeepVisible7BitCharOnly l);
              [now apply keepVisible_fixed, HK | reflexivity]).
  assert ((if LintText.CompressSpaces l then LintText.compressSpaces false y else y) = y)
    as -> by (destruct (LintText.CompressSpaces l); [now apply HC | reflexivity]).
  now rewrite cutLeading_off.
Qed.

Lemma lintSteps_linted l s : linted_by l (lintSteps l s).
Proof.
  unfold linted_by, lintSteps. split; [|split; [|split]]; intros H; rewrite ?H.
  - destruct (LintText.CompressToSingleLine l), (LintText.KeepVisible7BitCharOnly l),
      (LintText.CompressSpaces l);
      repeat first [ apply compressSpaces_trimmed | apply keepVisible_trimmed
                   | apply joinLines_trimmed | apply trimLines_trimmed ].
  - destruct (LintText.KeepVisible7BitCharOnly l), (LintText.CompressSpaces l);
      repeat first [ apply compressSpaces_noLF | apply keepVisible_noLF
                   | apply joinLines_noLF ].
  - destruct (LintText.CompressSpaces l);
      repeat first [ apply compressSpaces_visible | apply keepVisible_visible ].
  - apply compressSpaces_idem.
Qed.

Lemma linted_take l y n :
  LintText.TrimSpaces l = false → linted_by l y → linted_by l (take n y).
Proof.
  intros HT (_ & HS & HK & HC). split; [|split; [|split]].
  - congruence.
  - intros H. now apply noLF_take, HS.
  - intros H. now apply Forall_take, HK.
  - intros H. now apply compressSpaces_take, HC.
Qed.

Lemma lint_linted l s :
  LintText.BeginPosition l ≤ 0 →
  LintText.MaxLength l ≤ 0 ∨ LintText.TrimSpaces l = false →
  linted_by l (LintText.lint l s).
Proof.
  intros HB HM. change (LintText.lint l s)
    with (LintText.cutTrailing (LintText.MaxLength l)
            (LintText.cutLeading (LintText.BeginPosition l) (lintSteps l s))).
  rewrite cutLeading_off by assumption. destruct HM as [HM|HT].
  - rewrite cutTrailing_off by assumption. apply lintSteps_linted.
  - destruct (cutTrailing_take (LintText.MaxLength l) (lintSteps l s)) as [n ->].
    apply linted_take; [assumption | apply lintSteps_linted].
Qed.

(** C4, as the code has it.  With no leading cut ([BeginPosition] not above
    0), and with no trailing cut ([MaxLength] not above 0) or [TrimSpaces]
    switched off, applying [Transform] twice with the same configuration
    gives the result of applying it once. *)
Theorem LintText_Transform_idempotent (l : LintText.t) (r : Result) :
  LintText.BeginPosition l ≤ 0 →
  LintText.MaxLength l ≤ 0 ∨ LintText.TrimSpaces l = false →
  LintText.Transform l (LintText.Transform l r).1 = LintText.Transform l r ∧
  CombinedOutput (LintText.Transform l (LintText.Transform l r).1).1
    = CombinedOutput (LintText.Transform l r).1.
Proof.
  intros HB HM.
  assert (LintText.lint l (LintText.lint l (CombinedOutput r))
          = LintText.lint l (CombinedOutput r)) as E.
  { apply lint_fixed; [assumption | now apply lint_linted |].
    unfold LintText.lint at 2. apply cutTrailing_idem. }
  unfold LintText.Transform, withCombinedOutput. simpl. rewrite E. split; reflexivity.
Qed.


(* ===================================================================== *)
(** ** The command processor *)
(* ===================================================================== *)

(** The definitions of the processor by their own names, for the proofs
    below that open them. *)
Ltac unfold_Process := unfold Process.
Ltac unfold_body := unfold body.
Ltac unfold_dispatch := unfold dispatch.
Ltac unfold_finish := unfold finish.

Section ProcessorProperties.

Variables AESDecryptTrigger TwoFATrigger : gostring.
Variables EmergencyLockDownText EmptyCommandText : gostring.

#[local] Abbreviation Process :=
  (Process AESDecryptTrigger TwoFATrigger EmergencyLockDownText EmptyCommandText).
#[local] Abbreviation body := (body AESDecryptTrigger TwoFATrigger).
#[local] Abbreviation dispatch := (dispatch AESDecryptTrigger TwoFATrigger).
#[local] Abbreviation finish := (finish EmergencyLockDownText EmptyCommandText).
#[local] Abbreviation atLabel := (atLabel EmergencyLockDownText EmptyCommandText).

(** C5. With the lock down flag set, [Process] returns the result that
    carries [ErrEmergencyLockDown], and nothing has been called on the way:
    no [Transform] of a command filter, no [Execute] of a feature, no
    [Transform] of a result filter (and nothing has been logged). *)
Theorem Process_lock_down (proc : CommandProcessor) (c : Command) (run : bool) :
  returned (Process true proc c run) = Some (errorResult (Some ErrEmergencyLockDown)) ∧
  Error (errorResult (Some ErrEmergencyLockDown)) = Some ErrEmergencyLockDown ∧
  events (Process true proc c run) = [].
Proof. repeat split. Qed.

Lemma RateLimit_Add_limits rl key :
  UnitSecs (RateLimit_Add rl key).1 = UnitSecs rl ∧
  MaxCount (RateLimit_Add rl key).1 = MaxCount rl.
Proof. unfold RateLimit_Add. now destruct (_ <? _). Qed.

Lemma initialiseOnce_fresh fs cf rf m :
  rateLimit (initialiseOnce (newCommandProcessor fs cf rf m)) =
    Some (mkRateLimit 1 (effectiveMaxCmdPerSec m) ∅).
Proof.
  unfold initialiseOnce, effectiveMaxCmdPerSec, MaxCmdPerSecHardLimit. simpl.
  destruct (m <? 1) eqn:E1, (1000 <? m) eqn:E2, (1 <=? m) eqn:E3, (m <=? 1000) eqn:E4;
    simpl; try reflexivity; lia.
Qed.

(** The limiter of the processor after [Process], whichever way it ends. *)
Lemma Process_rateLimit lockDown proc c run rl :
  rateLimit (initialiseOnce proc) = Some rl →
  ∃ rl', rateLimit (procAfter (Process lockDown proc c run)) = Some rl' ∧
         UnitSecs rl' = UnitSecs rl ∧ MaxCount rl' = MaxCount rl.
Proof.
  intros H. unfold_Process. destruct lockDown; simpl.
  - now exists rl.
  - rewrite H. pose proof (RateLimit_Add_limits rl (str "instance")) as [HU HM].
    destruct (RateLimit_Add rl (str "instance")) as [rl' ok]. simpl in *.
    exists rl'. destruct ok; simpl.
    + destruct (body _ _) as [l ret|l]; simpl; [|auto].
      destruct (finish _ _ _ _). simpl. auto.
    + auto.
Qed.

(** C8, as the code has it.  On the first call of [Process] on a processor
    the limiter is made for one second and for [MaxCmdPerSec] admissions
    when that lies in [1, 1000], and for 1000 admissions when it lies below
    1 or above 1000. *)
Theorem Process_first_call_limit (fs : option FeatureSet) (cf : list CommandFilter)
    (rf : list ResultFilter) (m : Z) (lockDown : bool) (c : Command) (run : bool) :
  ∃ rl, rateLimit (procAfter (Process lockDown (newCommandProcessor fs cf rf m) c run))
          = Some rl ∧
        UnitSecs rl = 1 ∧
        MaxCount rl = effectiveMaxCmdPerSec m ∧
        effectiveMaxCmdPerSec m = (if (m <? 1) || (1000 <? m) then 1000 else m).
Proof.
  destruct (Process_rateLimit lockDown _ c run _ (initialiseOnce_fresh fs cf rf m))
    as (rl & H & HU & HM).
  exists rl. repeat split; try assumption.
  unfold effectiveMaxCmdPerSec.
  destruct (m <? 1) eqn:E1, (1000 <? m) eqn:E2, (1 <=? m) eqn:E3, (m <=? 1000) eqn:E4;
    simpl; try reflexivity; lia.
Qed.

(** *** The parts of the body *)

Lemma walkCommandFilters_frame fs : ∀ l0,
  let l := localsOf (walkCommandFilters fs l0) in
  overrideLintText l = overrideLintText l0 ∧
  hasOverrideLintText l = hasOverrideLintText l0 ∧
  logCommandContent l = logCommandContent l0 ∧
  deferredStats l = deferredStats l0 ∧
  deferredLog l = deferredLog l0 ∧
  ∃ t, trace l = trace l0 ++ t ∧ Forall isCommandFilterEvent t.
Proof.
  induction fs as [|f fs IH]; intros l0; simpl.
  - repeat split. exists []. rewrite app_nil_r. split; constructor.
  - destruct (CommandFilter_Transform f (cmd l0)) as [c' [e|]]; simpl.
    + repeat split. eexists. split; [reflexivity|]. repeat constructor.
    + match goal with |- context [walkCommandFilters fs ?l1] =>
        destruct (IH l1) as (H1 & H2 & H3 & H4 & H5 & t & Ht & HF) end.
      simpl in *. repeat split; try assumption.
      exists (EvCommandFilter f (cmd l0) :: t). split.
      * rewrite Ht. now rewrite <- app_assoc.
      * constructor; [exact I | assumption].
Qed.

(** [filterDisapproval] after the loop is the first error of the filters. *)
Lemma walkCommandFilters_disapproval fs : ∀ l0,
  filterDisapproval l0 = None →
  filterDisapproval (localsOf (walkCommandFilters fs l0)) =
    commandFilterError fs (cmd l0).
Proof.
  induction fs as [|f fs IH]; intros l0 H0; simpl; [assumption|].
  destruct (CommandFilter_Transform f (cmd l0)) as [c' [e|]]; simpl; [reflexivity|].
  now rewrite IH.
Qed.

Lemma trimCommand_frame l0 :
  let l := localsOf (trimCommand l0) in
  filterDisapproval l = filterDisapproval l0 ∧
  overrideLintText l = overrideLintText l0 ∧
  hasOverrideLintText l = hasOverrideLintText l0 ∧
  logCommandContent l = logCommandContent l0 ∧
  deferredStats l = true ∧
  deferredLog l = deferredLog l0 ∧
  trace l = trace l0.
Proof.
  unfold trimCommand. destruct (Trim _) as [c [r|]]; simpl; repeat split.
Qed.

Lemma overridePLT_frame rfs l0 :
  let l := localsOf (overridePLT rfs l0) in
  filterDisapproval l = filterDisapproval l0 ∧
  logCommandContent l = logCommandContent l0 ∧
  deferredStats l = deferredStats l0 ∧
  deferredLog l = deferredLog l0 ∧
  trace l = trace l0.
Proof.
  unfold overridePLT.
  repeat (simpl; match goal with
          | |- context [match ?x with _ => _ end] => destruct x
          | |- context [if ?x then _ else _] => destruct x
          end); simpl; repeat split.
Qed.

Lemma prelude_frame proc c :
  let l := localsOf (prelude proc c) in
  filterDisapproval l = commandFilterError (CommandFilters proc) c ∧
  logCommandContent l = [] ∧
  deferredLog l = false ∧
  Forall isCommandFilterEvent (trace l).
Proof.
  unfold prelude, afterCommandFilters.
  pose proof (walkCommandFilters_frame (CommandFilters proc) (initialLocals c))
    as (_ & _ & H3 & _ & H5 & t & Ht & HF).
  pose proof (walkCommandFilters_disapproval (CommandFilters proc) (initialLocals c) eq_refl)
    as Hfd.
  destruct (walkCommandFilters _ _) as [l1|l1 r1]; simpl in *.
  - pose proof (trimCommand_frame l1) as (T1 & _ & _ & T4 & _ & T6 & T7).
    destruct (trimCommand l1) as [l2|l2 r2]; simpl in *.
    + pose proof (overridePLT_frame (ResultFilters proc) l2) as (P1 & P2 & _ & P4 & P5).
      simpl in *. rewrite P1, P2, P4, P5, T1, T4, T6, T7, Hfd, H3, H5, Ht.
      repeat split. assumption.
    + rewrite T1, T4, T6, T7, Hfd, H3, H5, Ht. repeat split. assumption.
  - rewrite Hfd, H3, H5, Ht. repeat split. assumption.
Qed.

Lemma body_prelude proc c :
  body proc (initialLocals c) =
    match prelude proc c with
    | Next l => dispatch proc l
    | GotoResult l ret => AtResult l ret
    end.
Proof. reflexivity. Qed.

Lemma lookupTrigger_found entries : ∀ c prefix feature c',
  lookupTrigger entries c = Some (prefix, feature, c') →
  (prefix, feature) ∈ entries ∧ FindAndRemovePrefix c prefix = (c', true).
Proof.
  induction entries as [|[p f] entries IH]; intros c prefix feature c'; simpl.
  - discriminate.
  - destruct (FindAndRemovePrefix c p) as [c1 found] eqn:E. destruct found.
    + intros H. inversion H; subst. split; [constructor | assumption].
    + intros H. destruct (IH _ _ _ _ H) as [Hin HF]. split; [now constructor | assumption].
Qed.

(** What the dispatch leaves: either no feature was found and nothing was
    logged or run, or a feature was run on the command without its trigger,
    after the log entry that shows [logCommandContent]. *)
Lemma dispatch_cases proc l0 l ret :
  dispatch proc l0 = AtResult l ret →
  filterDisapproval l = filterDisapproval l0 ∧
  overrideLintText l = overrideLintText l0 ∧
  hasOverrideLintText l = hasOverrideLintText l0 ∧
  deferredStats l = deferredStats l0 ∧
  ((trace l = trace l0 ∧ deferredLog l = deferredLog l0 ∧
    logCommandContent l = Content (cmd l0)) ∨
   (∃ fs prefix feature,
      Features proc = Some fs ∧
      lookupTrigger (LookupByTrigger fs) (cmd l0) = Some (prefix, feature, cmd l) ∧
      (logCommandContent l = Content (cmd l0) ∨ logCommandContent l = hiddenContent) ∧
      trace l = trace l0 ++ [EvLogGoingToRun (logCommandContent l); EvExecute prefix (cmd l)] ∧
      deferredLog l = true ∧
      ret = Execute feature (cmd l))).
Proof.
  unfold_dispatch. destruct (Features proc) as [fs|]; [|discriminate].
  simpl. destruct (lookupTrigger _ _) as [[[prefix feature] c']|] eqn:E.
  - intros H. inversion H; subst; clear H. simpl. repeat split.
    + now destruct (_ || _).
    + now destruct (_ || _).
    + now destruct (_ || _).
    + now destruct (_ || _).
    + right. exists fs, prefix, feature. split; [reflexivity|].
      destruct (_ || _); simpl; rewrite <- app_assoc; repeat split; auto.
  - intros H. inversion H; subst; clear H. simpl. repeat split. left. repeat split.
Qed.

Lemma keepsCommand_LintText lt : keepsCommand (RFLintText lt).
Proof. intros r. reflexivity. Qed.



(** The walk over the result filters logs one call after the other, a
    LintText being replaced by the override when there is one. *)
Lemma walkResultFilters_trace fs has override : ∀ ret tr,
  let '(ret', _, tr') := walkResultFilters fs has override ret tr in
  (∃ t, tr' = tr ++ t ∧ Forall (isResultFilterEvent has override) t) ∧
  (Forall keepsCommand fs → ResCommand ret' = ResCommand ret).
Proof.
  induction fs as [|f fs IH]; intros ret tr; simpl.
  - split; [|reflexivity]. exists []. rewrite app_nil_r. split; constructor.
  - match goal with |- context [ResultFilter_Transform ?g ret] =>
      set (f' := g); assert (isResultFilterEvent has override (EvResultFilter f' ret)) as Hev;
      [| assert (keepsCommand f → keepsCommand f') as Hkeep ] end.
    { subst f'. destruct f; simpl; auto. destruct has; simpl; auto; intros; discriminate. }
    { subst f'. destruct f; auto. destruct has; auto; intros _; apply keepsCommand_LintText. }
    destruct (ResultFilter_Transform f' ret) as [ret1 [e|]] eqn:E.
    + split.
      * eexists. split; [reflexivity|]. now constructor.
      * intros HF. inversion HF; subst. specialize (Hkeep H1 ret). now rewrite E in Hkeep.
    + specialize (IH ret1 (tr ++ [EvResultFilter f' ret])).
      destruct (walkResultFilters fs has override ret1 _) as [[ret' err] tr'].
      destruct IH as [(t & Ht & HFt) Hc]. split.
      * exists (EvResultFilter f' ret :: t). split.
        -- rewrite Ht. now rewrite <- app_assoc.
        -- now constructor.
      * intros HF. inversion HF; subst. rewrite Hc by assumption.
        specialize (Hkeep H1 ret). now rewrite E in Hkeep.
Qed.

(** [initialiseOnce] and the limiter do not touch what the body reads. *)
Lemma initialiseOnce_fields proc :
  Features (initialiseOnce proc) = Features proc ∧
  CommandFilters (initialiseOnce proc) = CommandFilters proc ∧
  ResultFilters (initialiseOnce proc) = ResultFilters proc.
Proof. unfold initialiseOnce. now destruct (initOnce proc). Qed.

Lemma body_initialised proc rl l :
  body (withRateLimit (initialiseOnce proc) rl) l = body proc l.
Proof.
  destruct (initialiseOnce_fields proc) as (HF & HC & HR).
  unfold_body; unfold_dispatch. simpl. now rewrite HF, HC, HR.
Qed.

Lemma finish_initialised proc rl l ret run :
  finish (withRateLimit (initialiseOnce proc) rl) l ret run = finish proc l ret run.
Proof.
  destruct (initialiseOnce_fields proc) as (HF & HC & HR).
  unfold_finish. simpl. now rewrite HR.
Qed.

(** A call that is neither locked down nor refused by the limiter is the
    body followed by the statements from the label on. *)
Lemma Process_admitted proc c run rl rl' :
  rateLimit (initialiseOnce proc) = Some rl →
  RateLimit_Add rl (str "instance") = (rl', true) →
  Process false proc c run =
    match body proc (initialLocals c) with
    | Panicked l =>
      mkOutcome (withRateLimit (initialiseOnce proc) rl') None (logCommandContent l)
                (trace l ++ (if deferredStats l then [EvStats] else []))
    | AtResult l ret =>
      mkOutcome (withRateLimit (initialiseOnce proc) rl') (Some (finish proc l ret run).1)
                (logCommandContent l) (finish proc l ret run).2
    end.
Proof.
  intros H1 H2. unfold_Process. rewrite H1, H2. simpl.
  rewrite body_initialised. destruct (body proc (initialLocals c)); [|reflexivity].
  rewrite finish_initialised. now destruct (finish proc l ret run).
Qed.

(** The result and the events of the statements from the label on. *)
Lemma finish_cases proc l ret run :
  ∃ t,
    (finish proc l ret run).2 = runDeferred l (finish proc l ret run).1 (trace l ++ t) ∧
    Forall (isResultFilterEvent (hasOverrideLintText l) (overrideLintText l)) t ∧
    (run = false ∨ Forall keepsCommand (ResultFilters proc) →
     ResCommand (finish proc l ret run).1 = withContent (cmd l) (logCommandContent l)).
Proof.
  unfold_finish. destruct run.
  - pose proof (walkResultFilters_trace (ResultFilters proc) (hasOverrideLintText l)
                  (overrideLintText l) (atLabel l ret) (trace l)) as H.
    destruct (walkResultFilters _ _ _ _ _) as [[ret' err] tr'].
    destruct H as [(t & -> & HF) Hc]. exists t.
    destruct err; simpl; (split; [reflexivity|]); (split; [assumption|]);
      intros [?|HK]; try discriminate; now rewrite Hc.
  - exists []. rewrite app_nil_r. simpl. repeat split. constructor.
Qed.

(** The loop stops at the first filter that returns an error, with the
    result as that filter left it. *)
Lemma walkResultFilters_stops before has override : ∀ f after r r1 r2 e tr,
  passed has override before r r1 →
  ResultFilter_Transform (inForce has override f) r1 = (r2, Some e) →
  ∃ tr', walkResultFilters (before ++ f :: after) has override r tr = (r2, Some e, tr').
Proof.
  induction before as [|g before IH]; intros f after r r1 r2 e tr Hp Hf.
  - inversion Hp; subst. simpl. fold (inForce has override f). rewrite Hf. eauto.
  - inversion Hp as [|? ? ? r0 ? Hg Hrest]; subst.
    simpl. fold (inForce has override g). rewrite Hg.
    eapply IH; eassumption.
Qed.

(** C6. When the result filters are run and one of them returns an error,
    the filters before it having returned nil, [Process] returns a result
    made anew: its error is the one that the command filters left in
    [filterDisapproval] (nil when they all approved), whatever the error of
    the result filter was; its command is the one in the result as the
    failing filter left it, and its output and combined output are empty. *)
Theorem Process_result_filter_error (proc : CommandProcessor) (c : Command)
    (rl rl' : RateLimit) (l : locals) (ret : Result)
    (before : list ResultFilter) (f : ResultFilter) (after : list ResultFilter)
    (r1 r2 : Result) (e : error) :
  rateLimit (initialiseOnce proc) = Some rl →
  RateLimit_Add rl (str "instance") = (rl', true) →
  body proc (initialLocals c) = AtResult l ret →
  ResultFilters proc = before ++ f :: after →
  passed (hasOverrideLintText l) (overrideLintText l) before (atLabel l ret) r1 →
  ResultFilter_Transform (inForce (hasOverrideLintText l) (overrideLintText l) f) r1
    = (r2, Some e) →
  returned (Process false proc c true) =
    Some (mkResult (ResCommand r2) [] (commandFilterError (CommandFilters proc) c) []) ∧
  (Error <$> returned (Process false proc c true))
    = Some (commandFilterError (CommandFilters proc) c) ∧
  (commandFilterError (CommandFilters proc) c = None →
   (Error <$> returned (Process false proc c true)) = Some None).
Proof.
  intros H1 H2 Hb HR Hp Hf.
  destruct (walkResultFilters_stops before _ _ f after _ r1 r2 e (trace l) Hp Hf)
    as (tr' & Hw).
  assert (returned (Process false proc c true) =
          Some (mkResult (ResCommand r2) [] (commandFilterError (CommandFilters proc) c) []))
    as Hret.
  { rewrite (Process_admitted _ _ _ _ _ H1 H2), Hb. simpl.
    unfold_finish. rewrite HR, Hw. simpl. do 3 f_equal.
    rewrite body_prelude in Hb.
    pose proof (prelude_frame proc c) as (Hfd & _).
    destruct (prelude proc c) as [l0|l0 r0]; simpl in *.
    - apply dispatch_cases in Hb. destruct Hb as (-> & _). assumption.
    - inversion Hb; subst. assumption. }
  rewrite Hret. simpl. split; [reflexivity|]. split; [reflexivity|].
  intros ->. reflexivity.
Qed.


Lemma FindAndRemovePrefix_frame c p c' found :
  FindAndRemovePrefix c p = (c', found) →
  TimeoutSec c' = TimeoutSec c ∧ DaemonName c' = DaemonName c.
Proof.
  unfold FindAndRemovePrefix. destruct (HasPrefix _ _); intros H; inversion H; now subst.
Qed.

(** Every event of the statements from the label on is an event of the
    body, a call of a result filter, the deferred log entry or the deferred
    statistics. *)
Lemma finish_events proc l ret run e :
  e ∈ (finish proc l ret run).2 →
  e ∈ trace l ∨
  isResultFilterEvent (hasOverrideLintText l) (overrideLintText l) e ∨
  (∃ ok, e = EvLogFinished (logCommandContent l) ok) ∨
  e = EvStats.
Proof.
  destruct (finish_cases proc l ret run) as (t & -> & HF & _).
  unfold runDeferred. rewrite !elem_of_app. intros [[He|He]|[He|He]].
  - now left.
  - right; left. rewrite Forall_forall in HF. auto.
  - destruct (deferredLog l); [|now apply not_elem_of_nil in He].
    apply list_elem_of_singleton in He. right; right; left. eauto.
  - destruct (deferredStats l); [|now apply not_elem_of_nil in He].
    apply list_elem_of_singleton in He. now repeat right.
Qed.

(** Every event of the body is a call of a command filter, or belongs to the
    run of the feature that the dispatch has found. *)
Lemma body_events proc c l ret e :
  body proc (initialLocals c) = AtResult l ret →
  e ∈ trace l →
  isCommandFilterEvent e ∨
  ∃ l0 fs prefix feature,
    prelude proc c = Next l0 ∧
    Features proc = Some fs ∧
    lookupTrigger (LookupByTrigger fs) (cmd l0) = Some (prefix, feature, cmd l) ∧
    (logCommandContent l = Content (cmd l0) ∨ logCommandContent l = hiddenContent) ∧
    (e = EvLogGoingToRun (logCommandContent l) ∨ e = EvExecute prefix (cmd l)).
Proof.
  rewrite body_prelude. pose proof (prelude_frame proc c) as (_ & _ & _ & Htr).
  rewrite Forall_forall in Htr.
  destruct (prelude proc c) as [l0|l0 r0] eqn:Hp; simpl in *.
  - intros Hd He. apply dispatch_cases in Hd. destruct Hd as (_ & _ & _ & _ & Hd).
    destruct Hd as [(Ht & _) | (fs & prefix & feature & HFs & Hlook & Hl & Ht & _)];
      rewrite Ht in He.
    + left. auto.
    + rewrite elem_of_app in He. destruct He as [He|He]; [left; auto|right].
      exists l0, fs, prefix, feature. repeat split; try assumption.
      rewrite !elem_of_cons in He. destruct He as [He|[He|He]]; auto.
      now apply not_elem_of_nil in He.
  - intros H He. inversion H; subst. left. auto.
Qed.

(** The snapshot is empty when the body left before taking it. *)
Lemma body_logged proc c l ret :
  body proc (initialLocals c) = AtResult l ret →
  logCommandContent l = [] ∨
  ∃ l0, prelude proc c = Next l0 ∧
        (logCommandContent l = Content (cmd l0) ∨ logCommandContent l = hiddenContent).
Proof.
  rewrite body_prelude. pose proof (prelude_frame proc c) as (_ & Hlog & _).
  destruct (prelude proc c) as [l0|l0 r0] eqn:Hp; simpl in *.
  - intros Hd. apply dispatch_cases in Hd. destruct Hd as (_ & _ & _ & _ & Hd). right.
    exists l0. split; [reflexivity|].
    destruct Hd as [(_ & _ & Hl) | (fs & prefix & feature & _ & _ & Hl & _)]; auto.
  - intros H. inversion H; subst. now left.
Qed.

Lemma body_not_panicked proc c l :
  is_Some (Features proc) → body proc (initialLocals c) ≠ Panicked l.
Proof.
  intros [fs HFs]. rewrite body_prelude. destruct (prelude proc c) as [l0|l0 r0]; [|discriminate].
  unfold_dispatch. rewrite HFs. simpl.
  destruct (lookupTrigger _ _) as [[[? ?] ?]|]; discriminate.
Qed.






(** *** The PLT override *)

(** A body that panics has called the command filters only. *)
Lemma body_panicked_events proc c l e :
  body proc (initialLocals c) = Panicked l →
  e ∈ trace l → isCommandFilterEvent e.
Proof.
  rewrite body_prelude. pose proof (prelude_frame proc c) as (_ & _ & _ & Htr).
  rewrite Forall_forall in Htr.
  destruct (prelude proc c) as [l0|l0 r0]; [|discriminate]. simpl in *.
  unfold_dispatch. destruct (Features proc); simpl.
  - destruct (lookupTrigger _ _) as [[[? ?] ?]|]; discriminate.
  - intros H. inversion H; subst. simpl. auto.
Qed.

(** The events of the body are events of the call. *)
Lemma finish_keeps_trace proc l ret run e :
  e ∈ trace l → e ∈ (finish proc l ret run).2.
Proof.
  destruct (finish_cases proc l ret run) as (t & -> & _).
  unfold runDeferred. rewrite !elem_of_app. auto.
Qed.

(** When the prefix is there, the pattern matches, the three numbers are
    read and a command is left, the override carries the first two numbers
    and the command the third. *)
Lemma overridePLT_success rfs l1 c3 whole p1 p2 p3 p4 P L T lt :
  FindAndRemovePrefix (cmd l1) PrefixCommandPLT = (c3, true) →
  FindStringSubmatch RegexCommandWithPLT (Content c3) = Some [whole; p1; p2; p3; p4] →
  Atoi p1 = (P, false) → Atoi p2 = (L, false) → Atoi p3 = (T, false) →
  p4 ≠ [] →
  findLintText rfs = Some lt →
  ∃ l2, overridePLT rfs l1 = Next l2 ∧
        cmd l2 = mkCommand p4 T (DaemonName c3) ∧
        overrideLintText l2 = withMaxLength (withBeginPosition lt P) L ∧
        hasOverrideLintText l2 = true.
Proof.
  intros HF HM H1 H2 H3 Hp4 HL. unfold overridePLT.
  rewrite HF. simpl. rewrite HL. simpl. rewrite HM, H1. simpl. rewrite H2. simpl.
  rewrite H3. simpl. destruct p4 as [|b p4]; [congruence|].
  eexists. split; [reflexivity|]. simpl. repeat split.
Qed.

(** The events of a call that was admitted: calls of command filters, the
    deferred statistics, and after a body that reached the label the calls of
    result filters, the deferred log entry and the run of a feature. *)
Lemma Process_events proc c run rl rl' e :
  rateLimit (initialiseOnce proc) = Some rl →
  RateLimit_Add rl (str "instance") = (rl', true) →
  e ∈ events (Process false proc c run) →
  isCommandFilterEvent e ∨ e = EvStats ∨
  ∃ l ret,
    body proc (initialLocals c) = AtResult l ret ∧
    (isResultFilterEvent (hasOverrideLintText l) (overrideLintText l) e ∨
     (∃ ok, e = EvLogFinished (logCommandContent l) ok) ∨
     ∃ l0 fs prefix feature,
       prelude proc c = Next l0 ∧
       Features proc = Some fs ∧
       lookupTrigger (LookupByTrigger fs) (cmd l0) = Some (prefix, feature, cmd l) ∧
       (e = EvLogGoingToRun (logCommandContent l) ∨ e = EvExecute prefix (cmd l))).
Proof.
  intros Hrl HAdd. rewrite (Process_admitted _ _ _ _ _ Hrl HAdd).
  destruct (body proc (initialLocals c)) as [l ret|l] eqn:Hb; simpl.
  - intros He. apply finish_events in He. destruct He as [He|[He|[He|He]]].
    + eapply body_events in He; [|eassumption].
      destruct He as [He|(l0 & fs & prefix & feature & Hp & HFs & Hlook & _ & He)].
      * now left.
      * right; right. exists l, ret. split; [reflexivity|]. right; right.
        exists l0, fs, prefix, feature. auto.
    + right; right. exists l, ret. auto.
    + right; right. exists l, ret. auto.
    + auto.
  - rewrite elem_of_app. intros [He|He].
    + left. eapply body_panicked_events; eassumption.
    + destruct (deferredStats l); [|now apply not_elem_of_nil in He].
      apply list_elem_of_singleton in He. auto.
Qed.

Lemma dispatch_override proc l0 l ret :
  dispatch proc l0 = AtResult l ret →
  overrideLintText l = overrideLintText l0 ∧
  hasOverrideLintText l = hasOverrideLintText l0.
Proof. intros H. apply dispatch_cases in H. tauto. Qed.

(** C3, as the code has it.  When the trimmed content that the command
    filters leave starts with the PLT prefix, the pattern matches what
    follows, the three numbers P, L and T are read without error, a command
    is left over and a LintText is among the result filters, then
    - every LintText that is applied to the result is the configured one
      with [BeginPosition] P and [MaxLength] L;
    - every [Execute] is called on a command with [TimeoutSec] T whose
      content is what [FindAndRemovePrefix] leaves of the left-over command
      when it takes the trigger away;
    - the feature of the first trigger found in the left-over command is
      run; and when the result filters are run and start with the LintText,
      the LintText with P and L is applied. *)
Theorem Process_PLT_override (proc : CommandProcessor) (c : Command) (run : bool)
    (rl rl' : RateLimit) (l1 : locals) (c3 : Command)
    (whole p1 p2 p3 p4 : gostring) (P L T : Z) (lt : LintText.t) :
  rateLimit (initialiseOnce proc) = Some rl →
  RateLimit_Add rl (str "instance") = (rl', true) →
  afterCommandFilters proc c = Next l1 →
  FindAndRemovePrefix (cmd l1) PrefixCommandPLT = (c3, true) →
  FindStringSubmatch RegexCommandWithPLT (Content c3) = Some [whole; p1; p2; p3; p4] →
  Atoi p1 = (P, false) → Atoi p2 = (L, false) → Atoi p3 = (T, false) →
  p4 ≠ [] →
  findLintText (ResultFilters proc) = Some lt →
  (∀ f r, EvResultFilter (RFLintText f) r ∈ events (Process false proc c run) →
     f = withMaxLength (withBeginPosition lt P) L ∧
     LintText.BeginPosition f = P ∧ LintText.MaxLength f = L) ∧
  (∀ trigger c', EvExecute trigger c' ∈ events (Process false proc c run) →
     TimeoutSec c' = T ∧
     FindAndRemovePrefix (mkCommand p4 T (DaemonName c3)) trigger = (c', true)) ∧
  (∀ fs trigger feature c',
     Features proc = Some fs →
     lookupTrigger (LookupByTrigger fs) (mkCommand p4 T (DaemonName c3))
       = Some (trigger, feature, c') →
     EvExecute trigger c' ∈ events (Process false proc c run)) ∧
  (run = true → is_Some (Features proc) →
   ∀ lt0 rest, ResultFilters proc = RFLintText lt0 :: rest →
   ∃ r, EvResultFilter (RFLintText (withMaxLength (withBeginPosition lt P) L)) r
          ∈ events (Process false proc c run)).
Proof.
  intros Hrl HAdd Hafter HF HM H1 H2 H3 Hp4 HL.
  destruct (overridePLT_success _ _ _ _ _ _ _ _ _ _ _ _ HF HM H1 H2 H3 Hp4 HL)
    as (l2 & Hov & Hcmd & Hlt & Hhas).
  assert (prelude proc c = Next l2) as Hpre
    by (unfold prelude; rewrite Hafter; exact Hov).
  assert (body proc (initialLocals c) = dispatch proc l2) as Hbody
    by (rewrite body_prelude, Hpre; reflexivity).
  split; [|split; [|split]].
  - (* the LintText that is applied *)
    intros f r He. apply (Process_events _ _ _ _ _ _ Hrl HAdd) in He.
    destruct He as [He|[He|(l & ret & Hb & [He|[[ok He]|He]])]];
      [destruct He | discriminate | | discriminate |].
    + rewrite Hbody in Hb. apply dispatch_override in Hb. destruct Hb as [Ho Hh].
      simpl in He. rewrite Ho, Hh, Hhas, Hlt in He.
      rewrite (He eq_refl). repeat split.
    + destruct He as (? & ? & ? & ? & _ & _ & _ & [He|He]); discriminate.
  - (* the command that is executed *)
    intros trigger c' He. apply (Process_events _ _ _ _ _ _ Hrl HAdd) in He.
    destruct He as [He|[He|(l & ret & Hb & [He|[[ok He]|He]])]];
      [destruct He | discriminate | destruct He | discriminate |].
    destruct He as (l0 & fs & prefix & feature & Hp & _ & Hlook & [He|He]);
      [discriminate|].
    inversion He; subst. rewrite Hpre in Hp. inversion Hp; subst l0.
    apply lookupTrigger_found in Hlook. destruct Hlook as [_ Hfind].
    rewrite Hcmd in Hfind. split; [|assumption].
    now destruct (FindAndRemovePrefix_frame _ _ _ _ Hfind) as [-> _].
  - (* the feature is run *)
    intros fs trigger feature c' HFs Hlook.
    rewrite (Process_admitted _ _ _ _ _ Hrl HAdd), Hbody.
    unfold_dispatch. rewrite HFs. simpl. rewrite Hcmd, Hlook. simpl.
    apply finish_keeps_trace. simpl. rewrite !elem_of_app. right.
    apply list_elem_of_singleton. now destruct (_ || _).
  - (* the LintText is applied *)
    intros -> HFs lt0 rest HR.
    rewrite (Process_admitted _ _ _ _ _ Hrl HAdd).
    destruct (body proc (initialLocals c)) as [l ret|l] eqn:Hb;
      [|now apply body_not_panicked in Hb].
    symmetry in Hbody. apply dispatch_override in Hbody. destruct Hbody as [Ho Hh].
    simpl. unfold_finish. rewrite HR. simpl. rewrite Hh, Ho, Hhas, Hlt. simpl.
    match goal with |- context [walkResultFilters rest true ?o ?r ?t] =>
      pose proof (walkResultFilters_trace rest true o r t) as Hw;
      destruct (walkResultFilters rest true o r t) as [[ret' err] tr'] end.
    destruct Hw as [(t & -> & _) _]. eexists.
    destruct err; simpl; unfold runDeferred; rewrite !elem_of_app; left; left; right;
      apply list_elem_of_singleton; reflexivity.
Qed.

End ProcessorProperties.

(* ===================================================================== *)
(** ** The properties on concrete processors and commands *)
(* ===================================================================== *)

Lemma matchesNothing_computed pin line :
  PINAndShortcuts.lookupShortcut pin line = None →
  PINAndShortcuts.matchPIN pin line = false →
  matchesNothing pin line.
Proof.
  intros HS HP. split.
  - intros v Hv. apply lookupShortcut_spec in Hv. congruence.
  - intros H. apply matchPIN_spec in H. congruence.
Qed.

Lemma startsWithPIN_computed pin line :
  PINAndShortcuts.matchPIN pin line = true → startsWithPIN pin line.
Proof. apply matchPIN_spec. Qed.

Lemma isShortcut_computed pin line v :
  PINAndShortcuts.lookupShortcut pin line = Some v → isShortcut pin line v.
Proof. apply lookupShortcut_spec. Qed.

Lemma notShortcut_computed pin line :
  PINAndShortcuts.lookupShortcut pin line = None → ∀ v, ¬ isShortcut pin line v.
Proof. intros H v Hv. apply lookupShortcut_spec in Hv. congruence. Qed.

(** C1 on three commands: the second line starts with the PIN; the second
    line is a shortcut; no line matches. *)
Lemma PINAndShortcuts_Transform_first_match_witness :
  ((PINAndShortcuts.Transform pinWithShortcut commandWithPIN).2 = None ∧
   Content (PINAndShortcuts.Transform pinWithShortcut commandWithPIN).1 = str ".s ls") ∧
  ((PINAndShortcuts.Transform pinWithShortcut commandWithShortcut).2 = None ∧
   Content (PINAndShortcuts.Transform pinWithShortcut commandWithShortcut).1
     = str ".s echo pong") ∧
  (PINAndShortcuts.Transform pinWithShortcut commandWithoutMatch).2
    = Some ErrPINAndShortcutNotFound.
Proof.
  assert (PINAndShortcuts.PIN pinWithShortcut ≠ [] ∨
          (∃ m, PINAndShortcuts.Shortcuts pinWithShortcut = Some m ∧ m ≠ ∅)) as Hdef
    by (left; discriminate).
  assert (matchesNothing pinWithShortcut (TrimSpace (str "hi"))) as Hwrong
    by (apply matchesNothing_computed; vm_compute; reflexivity).
  split; [|split].
  - destruct (proj2 (proj1 (PINAndShortcuts_Transform_first_match pinWithShortcut
                              commandWithPIN Hdef)
                       [str "hi"] (str "  verysecret.s ls  ") [str "ping"] eq_refl
                       (Forall_cons_2 (λ l, matchesNothing pinWithShortcut (TrimSpace l))
                                      (str "hi") [] Hwrong (Forall_nil_2 _)))
                    ltac:(apply notShortcut_computed; vm_compute; reflexivity)
                    ltac:(apply startsWithPIN_computed; vm_compute; reflexivity))
      as (H1 & H2 & _).
    exact (conj H1 H2).
  - destruct (proj1 (proj1 (PINAndShortcuts_Transform_first_match pinWithShortcut
                              commandWithShortcut Hdef)
                       [str "hi"] (str " ping ") [str "verysecret.s ls"] eq_refl
                       (Forall_cons_2 (λ l, matchesNothing pinWithShortcut (TrimSpace l))
                                      (str "hi") [] Hwrong (Forall_nil_2 _)))
                    (str ".s echo pong")
                    ltac:(apply isShortcut_computed; vm_compute; reflexivity))
      as (H1 & H2 & _).
    exact (conj H1 H2).
  - refine (proj1 (proj2 (PINAndShortcuts_Transform_first_match pinWithShortcut
                            commandWithoutMatch Hdef) _)).
    apply (Forall_cons_2 (λ l, matchesNothing pinWithShortcut (TrimSpace l)));
      [exact Hwrong|].
    apply (Forall_cons_2 (λ l, matchesNothing pinWithShortcut (TrimSpace l)));
      [|apply Forall_nil_2].
    apply matchesNothing_computed; vm_compute; reflexivity.
Defined.

(** C7 on the filter that has neither a PIN nor shortcuts. *)
Lemma PINAndShortcuts_Transform_undefined_witness :
  ∃ e, (PINAndShortcuts.Transform (PINAndShortcuts.mk [] None) commandWithPIN).2 = Some e ∧
       e ≠ ErrPINAndShortcutNotFound ∧
       errorText [] [] e ≠ errorText [] [] ErrPINAndShortcutNotFound.
Proof.
  exact (PINAndShortcuts_Transform_undefined (PINAndShortcuts.mk [] None) commandWithPIN
           [] [] eq_refl (or_introl eq_refl)).
Defined.

(** C10 on the command whose second line starts with the PIN. *)
Lemma command_filters_frame_witness :
  TimeoutSec (withContent commandWithPIN (str ".s ls")) = TimeoutSec commandWithPIN ∧
  DaemonName (withContent commandWithPIN (str ".s ls")) = DaemonName commandWithPIN ∧
  withContent commandWithPIN (str ".s ls")
    = withContent commandWithPIN (Content (withContent commandWithPIN (str ".s ls"))).
Proof.
  assert (PINAndShortcuts.Transform pinWithShortcut commandWithPIN
          = (withContent commandWithPIN (str ".s ls"), None)) as H
    by (vm_compute; reflexivity).
  exact (proj1 (command_filters_frame commandWithPIN) pinWithShortcut
               (withContent commandWithPIN (str ".s ls")) H).
Defined.

(** C8, the claim as it was stated: a configured value of 0 lies below 1, and
    the limiter admits 1000 commands a second, not 1. *)
Lemma initialiseOnce_below_one_counterexample :
  MaxCount <$> rateLimit (initialiseOnce (newCommandProcessor None [] [] 0)) = Some 1000 ∧
  MaxCount <$> rateLimit (initialiseOnce (newCommandProcessor None [] [] 0)) ≠ Some 1.
Proof. split; [reflexivity | discriminate]. Qed.


(** A result filter from elsewhere can put another command into the result;
    the content returned is then not the one that was logged. *)
Lemma Process_filter_changes_command :
  let proc := newCommandProcessor (Some (mkFeatureSet [(str ".s", echoFeature)]))
                testCommandFilters
                [RFOther (fun r => (withResCommand r zeroCommand, None))] 0 in
  let o := Process (str ".a") (str ".2") [] [] false proc
                   (mkCommand (str "verysecret.s echo hello") 10 []) true in
  (Content ∘ ResCommand) <$> returned o = Some [] ∧ logged o = str ".s echo hello".
Proof. vm_compute. split; reflexivity. Qed.


(** C6 on a processor whose second result filter of three fails: the result
    carries no error, as the command filters approved. *)
Lemma Process_result_filter_error_witness :
  returned (Process (str ".a") (str ".2") [] [] false processorWithFailingFilterBetween
                    (mkCommand (str "verysecret.s echo hello") 10 []) true)
    = Some (mkResult (mkCommand (str ".s echo hello") 10 []) [] None []).
Proof.
  pose (proc := processorWithFailingFilterBetween).
  pose (c := mkCommand (str "verysecret.s echo hello") 10 []).
  let b := eval vm_compute in (body (str ".a") (str ".2") proc (initialLocals c)) in
  match b with
  | AtResult ?l ?ret =>
    assert (body (str ".a") (str ".2") proc (initialLocals c) = AtResult l ret) as Hb
      by (vm_compute; reflexivity);
    let r1 := eval vm_compute in
      (ResultFilter_Transform (RFLintText (LintText.mk true false false false 0 35))
                              (atLabel [] [] l ret)).1 in
    assert (passed (hasOverrideLintText l) (overrideLintText l)
                   [RFLintText (LintText.mk true false false false 0 35)]
                   (atLabel [] [] l ret) r1) as Hp
      by (eapply passed_cons; [vm_compute; reflexivity | apply passed_nil]);
    pose proof (proj1 (Process_result_filter_error (str ".a") (str ".2") [] [] proc c
                         (mkRateLimit 1 1000 ∅)
                         (mkRateLimit 1 1000 {[ str "instance" := 1 ]})
                         l ret
                         [RFLintText (LintText.mk true false false false 0 35)]
                         failingFilter [RFSayEmptyOutput] r1 r1
                         (ErrOther (str "cannot post-process"))
                         ltac:(vm_compute; reflexivity) ltac:(vm_compute; reflexivity)
                         Hb eq_refl Hp eq_refl)) as H
  end.
  vm_compute in H. vm_compute. exact H.
Defined.

(** C3, the claim as it was stated: the pattern leaves " .s echo helloworld"
    over, while the feature is run on " echo helloworld", the trigger taken
    away. *)
Lemma Process_PLT_residual_counterexample :
  FindStringSubmatch RegexCommandWithPLT (str " 0 5 10 .s echo helloworld")
    = Some [str " 0 5 10 .s echo helloworld"; str "0"; str "5"; str "10";
            str " .s echo helloworld"] ∧
  executed (events (Process (str ".a") (str ".2") [] [] false GetTestCommandProcessor
                            (mkCommand (str "verysecret.plt 0 5 10 .s echo helloworld") 30 [])
                            true))
    = [mkCommand (str " echo helloworld") 10 []] ∧
  str " echo helloworld" ≠ str " .s echo helloworld".
Proof. vm_compute. repeat split. discriminate. Qed.

(** C3 on the test processor: the feature is run with the timeout 10, and
    the LintText applied has the position 0 and the length 5. *)
Lemma Process_PLT_override_witness :
  EvExecute (str ".s") (mkCommand (str " echo helloworld") 10 [])
    ∈ events (Process (str ".a") (str ".2") [] [] false GetTestCommandProcessor
                      (mkCommand (str "verysecret.plt 0 5 10 .s echo helloworld") 30 []) true) ∧
  ∃ r, EvResultFilter (RFLintText (LintText.mk true false false false 0 5)) r
         ∈ events (Process (str ".a") (str ".2") [] [] false GetTestCommandProcessor
                           (mkCommand (str "verysecret.plt 0 5 10 .s echo helloworld") 30 [])
                           true).
Proof.
  pose proof (Process_PLT_override (str ".a") (str ".2") [] [] GetTestCommandProcessor
                (mkCommand (str "verysecret.plt 0 5 10 .s echo helloworld") 30 []) true
                (mkRateLimit 1 1000 ∅) _ _ _
                (str " 0 5 10 .s echo helloworld") (str "0") (str "5") (str "10")
                (str " .s echo helloworld") 0 5 10
                (LintText.mk true false false false 0 35)
                eq_refl eq_refl eq_refl eq_refl eq_refl eq_refl eq_refl eq_refl
                ltac:(discriminate) eq_refl) as (_ & _ & HE & HL).
  split.
  - exact (HE _ (str ".s") echoFeature _ eq_refl eq_refl).
  - exact (HL eq_refl (ex_intro _ _ eq_refl) _ _ eq_refl).
Defined.

(** C4, the claim as it was stated.  With [BeginPosition] 1 the second
    application cuts another byte; with [TrimSpaces] and [MaxLength] 3 the
    first application cuts after a space, which the second then trims. *)
Lemma LintText_Transform_twice_counterexample :
  let cut := LintText.mk false false false false 1 0 in
  let trim := LintText.mk true false false false 0 3 in
  let r := mkResult zeroCommand [] None (str "ab   cd") in
  CombinedOutput (LintText.Transform cut r).1 = str "b   cd" ∧
  CombinedOutput (LintText.Transform cut (LintText.Transform cut r).1).1 = str "   cd" ∧
  CombinedOutput (LintText.Transform trim r).1 = str "ab " ∧
  CombinedOutput (LintText.Transform trim (LintText.Transform trim r).1).1 = str "ab".
Proof. vm_compute. repeat split. Qed.

(** C4 on a configuration with the four steps switched on and no cut. *)
Lemma LintText_Transform_idempotent_witness :
  let l := LintText.mk true true true true 0 0 in
  let r := mkResult zeroCommand [] None (str "  a   b " ++ [x0a; xc2; xa0] ++ str " c ") in
  LintText.Transform l (LintText.Transform l r).1 = LintText.Transform l r ∧
  CombinedOutput (LintText.Transform l (LintText.Transform l r).1).1
    = CombinedOutput (LintText.Transform l r).1.
Proof.
  exact (LintText_Transform_idempotent (LintText.mk true true true true 0 0)
           (mkResult zeroCommand [] None (str "  a   b " ++ [x0a; xc2; xa0] ++ str " c "))
           (Z.le_refl 0) (or_introl (Z.le_refl 0))).
Defined.

(* ===================================================================== *)
(** ** LintText: lengths and what the steps leave *)
(* ===================================================================== *)

Lemma cutLeading_length B (s : gostring) :
  (length (LintText.cutLeading B s) ≤ length s)%nat.
Proof.
  unfold LintText.cutLeading, sliceFrom.
  destruct (0 <? B); [|lia]. destruct (B <? Z.of_nat (length s)); simpl; [|lia].
  rewrite length_drop. lia.
Qed.

Lemma cutTrailing_length M (s : gostring) :
  (length (LintText.cutTrailing M s) ≤ length s)%nat.
Proof.
  destruct (cutTrailing_take M s) as [n ->]. rewrite length_take. lia.
Qed.

Lemma cutLeading_drop B (s : gostring) : ∃ n, LintText.cutLeading B s = drop n s.
Proof.
  unfold LintText.cutLeading, sliceFrom.
  destruct (0 <? B); [destruct (B <? Z.of_nat (length s))|].
  - eauto.
  - exists (length s). now rewrite drop_all.
  - exists 0%nat. reflexivity.
Qed.

Lemma lint_cuts l s :
  LintText.lint l s
  = LintText.cutTrailing (LintText.MaxLength l)
      (LintText.cutLeading (LintText.BeginPosition l) (lintSteps l s)).
Proof. reflexivity. Qed.

(** X1. With a positive [MaxLength], the text that [LintText.Transform] leaves in
    [CombinedOutput] is at most [MaxLength] bytes long, whatever the other
    settings and whatever the text was. *)
Theorem LintText_MaxLength_bound (l : LintText.t) (r : Result) :
  0 < LintText.MaxLength l →
  Z.of_nat (length (CombinedOutput (LintText.Transform l r).1)) ≤ LintText.MaxLength l.
Proof.
  intros HM. simpl. rewrite lint_cuts.
  generalize (LintText.cutLeading (LintText.BeginPosition l) (lintSteps l (CombinedOutput r))).
  intros x. unfold LintText.cutTrailing, sliceTo.
  apply Z.ltb_lt in HM. rewrite HM.
  destruct (LintText.MaxLength l <? Z.of_nat (length x)) eqn:E.
  - rewrite length_take. lia.
  - apply Z.ltb_ge in E. lia.
Qed.

Lemma stripLeading_length encs (s : gostring) k :
  (length (stripLeading encs k s) ≤ length s)%nat.
Proof. apply suffix_length, stripLeading_suffix. Qed.

Lemma TrimRightSpace_LF (y : gostring) : TrimRightSpace (y ++ [x0a]) = TrimRightSpace y.
Proof.
  unfold TrimRightSpace. rewrite reverse_app. reflexivity.
Qed.

Lemma TrimSpace_LF_length (x : gostring) :
  (length (TrimSpace (x ++ [x0a])) ≤ length x)%nat.
Proof.
  unfold TrimSpace.
  destruct (TrimLeftSpace_suffix (x ++ [x0a])) as [p Hp].
  destruct (TrimLeftSpace (x ++ [x0a])) as [|c t] eqn:E using rev_ind.
  - simpl. lia.
  - clear IHt. rewrite app_assoc in Hp. apply app_inj_tail in Hp. destruct Hp as [-> <-].
    rewrite TrimRightSpace_LF.
    pose proof (prefix_length _ _ (TrimRightSpace_prefix t)).
    rewrite length_app. lia.
Qed.

Lemma TrimSpace_length (s : gostring) : (length (TrimSpace s) ≤ length s)%nat.
Proof.
  unfold TrimSpace.
  pose proof (prefix_length _ _ (TrimRightSpace_prefix (TrimLeftSpace s))).
  pose proof (suffix_length _ _ (TrimLeftSpace_suffix s)). lia.
Qed.

Lemma trimmed_join_length (ls : list gostring) :
  (length (concat (map (λ line, TrimSpace line ++ [x0a]) ls))
   ≤ length (concat (map (λ l, l ++ [x0a]) ls)))%nat.
Proof.
  induction ls as [|l ls IH]; simpl; [lia|].
  rewrite !length_app. pose proof (TrimSpace_length l). simpl. lia.
Qed.

Lemma trimLines_length (s : gostring) : (length (LintText.trimLines s) ≤ length s)%nat.
Proof.
  unfold LintText.trimLines.
  set (inner := concat (map (λ line, TrimSpace line ++ [x0a]) (splitLF s))).
  assert (∃ x, inner = x ++ [x0a]) as [x Hx].
  { subst inner. destruct (splitLF s) as [|l ls] eqn:E using rev_ind.
    - destruct s; simpl in E; [discriminate|].
      case_bool_decide; [discriminate|]. destruct (splitLF s); discriminate.
    - rewrite map_app, concat_app. simpl. rewrite app_nil_r, app_assoc. eauto. }
  pose proof (trimmed_join_length (splitLF s)) as Hl. fold inner in Hl.
  rewrite splitLF_join in Hl. rewrite Hx in *.
  pose proof (TrimSpace_LF_length x). rewrite !length_app in Hl. simpl in Hl. lia.
Qed.

Lemma keepVisible_length (s : gostring) : ∀ k,
  (length (LintText.keepVisible k s) ≤ length s)%nat.
Proof.
  induction s as [|b s IH]; intros k; simpl; [lia|].
  destruct k; simpl.
  - specialize (IH (runeWidth (b :: s) - 1)%nat). lia.
  - specialize (IH k). lia.
Qed.

Lemma lintSteps_length l s : (length (lintSteps l s) ≤ length s)%nat.
Proof.
  unfold lintSteps.
  assert (length (if LintText.TrimSpaces l then LintText.trimLines s else s) ≤ length s)%nat
    as H1 by (destruct (LintText.TrimSpaces l); [apply trimLines_length | lia]).
  revert H1. generalize (if LintText.TrimSpaces l then LintText.trimLines s else s).
  intros x1 H1.
  assert (length (if LintText.CompressToSingleLine l then LintText.joinLines x1 else x1)
          = length x1) as H2
    by (destruct (LintText.CompressToSingleLine l);
        [rewrite joinLines_map; apply length_map | reflexivity]).
  revert H2. generalize (if LintText.CompressToSingleLine l then LintText.joinLines x1 else x1).
  intros x2 H2.
  assert (length (if LintText.KeepVisible7BitCharOnly l then LintText.keepVisible 0 x2 else x2)
          ≤ length x2)%nat as H3
    by (destruct (LintText.KeepVisible7BitCharOnly l); [apply keepVisible_length | lia]).
  revert H3.
  generalize (if LintText.KeepVisible7BitCharOnly l then LintText.keepVisible 0 x2 else x2).
  intros x3 H3.
  destruct (LintText.CompressSpaces l); [pose proof (compressSpaces_length x3 false)|]; lia.
Qed.

(** X2. [LintText.Transform] never makes [CombinedOutput] longer, whatever the
    settings: no step adds a byte. *)
Theorem LintText_never_lengthens (l : LintText.t) (r : Result) :
  (length (CombinedOutput (LintText.Transform l r).1) ≤ length (CombinedOutput r))%nat.
Proof.
  simpl. rewrite lint_cuts.
  pose proof (cutTrailing_length (LintText.MaxLength l)
                (LintText.cutLeading (LintText.BeginPosition l)
                   (lintSteps l (CombinedOutput r)))).
  pose proof (cutLeading_length (LintText.BeginPosition l) (lintSteps l (CombinedOutput r))).
  pose proof (lintSteps_length l (CombinedOutput r)). lia.
Qed.

(** X3. With a positive [BeginPosition] that is not below the length of the text,
    [LintText.Transform] leaves an empty [CombinedOutput]: the cut never
    reads past the end of the text. *)
Theorem LintText_BeginPosition_beyond (l : LintText.t) (r : Result) :
  0 < LintText.BeginPosition l →
  Z.of_nat (length (CombinedOutput r)) ≤ LintText.BeginPosition l →
  CombinedOutput (LintText.Transform l r).1 = [].
Proof.
  intros HB Hlen. simpl. rewrite lint_cuts.
  pose proof (lintSteps_length l (CombinedOutput r)) as Hs.
  assert (LintText.cutLeading (LintText.BeginPosition l) (lintSteps l (CombinedOutput r)) = [])
    as ->.
  { unfold LintText.cutLeading. apply Z.ltb_lt in HB. rewrite HB.
    destruct (LintText.BeginPosition l <? _) eqn:E; [|reflexivity].
    apply Z.ltb_lt in E. lia. }
  unfold LintText.cutTrailing, sliceTo. destruct (0 <? _); [|reflexivity].
  destruct (_ <? _); [apply take_nil | reflexivity].
Qed.

Lemma noLF_drop n (s : gostring) : noLF s → noLF (drop n s).
Proof.
  intros H Hin. apply H. destruct (suffix_drop s n) as [k E]. rewrite E.
  apply elem_of_app. now right.
Qed.

Lemma lint_keeps (P : gostring → Prop) l s :
  (∀ n x, P x → P (take n x)) → (∀ n x, P x → P (drop n x)) →
  P (lintSteps l s) → P (LintText.lint l s).
Proof.
  intros Htake Hdrop H. rewrite lint_cuts.
  destruct (cutLeading_drop (LintText.BeginPosition l) (lintSteps l s)) as [n ->].
  destruct (cutTrailing_take (LintText.MaxLength l) (drop n (lintSteps l s))) as [m ->].
  auto.
Qed.

(** X4. With [KeepVisible7BitCharOnly] set, every byte that [LintText.Transform]
    leaves in [CombinedOutput] is a printable ASCII character (32 to 126) or
    one of the six ASCII white space characters, whatever the other
    settings. *)
Theorem LintText_keeps_visible_only (l : LintText.t) (r : Result) :
  LintText.KeepVisible7BitCharOnly l = true →
  Forall (λ b, (32 ≤ Byte.to_N b ≤ 126)%N ∨ asciiSpace b = true)
         (CombinedOutput (LintText.Transform l r).1).
Proof.
  intros HK. simpl.
  assert (Forall (λ b, visible b = true) (LintText.lint l (CombinedOutput r))) as H.
  { apply (lint_keeps (Forall (λ b, visible b = true))).
    - intros n x. apply Forall_take.
    - intros n x. apply Forall_drop.
    - destruct (lintSteps_linted l (CombinedOutput r)) as (_ & _ & H & _). auto. }
  eapply Forall_impl; [exact H|]. intros b Hb. simpl in Hb.
  unfold visible, LintText.asciiPrint, inRange in Hb.
  apply andb_true_iff in Hb. destruct Hb as [_ Hb]. apply orb_true_iff in Hb.
  destruct Hb as [Hb|Hb]; [left|now right].
  apply andb_true_iff in Hb. destruct Hb as [H1 H2].
  apply N.leb_le in H1, H2. lia.
Qed.

(** X5. With [CompressToSingleLine] or [CompressSpaces] set, the text that
    [LintText.Transform] leaves in [CombinedOutput] has no line feed. *)
Theorem LintText_single_line (l : LintText.t) (r : Result) :
  LintText.CompressToSingleLine l = true ∨ LintText.CompressSpaces l = true →
  x0a ∉ CombinedOutput (LintText.Transform l r).1.
Proof.
  intros H. simpl. apply (lint_keeps noLF).
  - intros n x. apply noLF_take.
  - intros n x. apply noLF_drop.
  - destruct H as [H|H].
    + destruct (lintSteps_linted l (CombinedOutput r)) as (_ & HS & _). auto.
    + unfold lintSteps. rewrite H. apply compressSpaces_noLF.
Qed.

Lemma singleSpaced_cons b s :
  singleSpaced (b :: s)
  = (if asciiSpace b then bool_decide (b = x20) && headNotSpace s else true) && singleSpaced s.
Proof. reflexivity. Qed.

Lemma compressSpaces_singleSpaced s : ∀ r,
  singleSpaced (LintText.compressSpaces r s) = true ∧
  (r = true → headNotSpace (LintText.compressSpaces r s) = true).
Proof.
  induction s as [|b s IH]; intros r; [now split|]. simpl.
  destruct (asciiSpace b) eqn:E.
  - destruct r.
    + apply IH.
    + destruct (IH true) as [H1 H2]. split; [|discriminate].
      rewrite singleSpaced_cons. simpl. now rewrite H1, H2.
  - destruct (IH false) as [H1 _]. split.
    + rewrite singleSpaced_cons. now rewrite E, H1.
    + intros _. simpl. now rewrite E.
Qed.

Lemma singleSpaced_tail b s : singleSpaced (b :: s) = true → singleSpaced s = true.
Proof. rewrite singleSpaced_cons. intros H. now apply andb_true_iff in H. Qed.

Lemma singleSpaced_drop n : ∀ s, singleSpaced s = true → singleSpaced (drop n s) = true.
Proof.
  induction n as [|n IH]; intros s H; [assumption|].
  destruct s as [|b s]; [reflexivity|]. simpl. apply IH. eapply singleSpaced_tail, H.
Qed.

Lemma headNotSpace_take n s : headNotSpace s = true → headNotSpace (take n s) = true.
Proof. destruct n, s; auto. Qed.

Lemma singleSpaced_take n : ∀ s, singleSpaced s = true → singleSpaced (take n s) = true.
Proof.
  induction n as [|n IH]; intros s H; [reflexivity|].
  destruct s as [|b s]; [reflexivity|]. simpl take.
  rewrite singleSpaced_cons in *. apply andb_true_iff in H. destruct H as [H1 H2].
  rewrite IH by assumption. rewrite andb_true_r.
  destruct (asciiSpace b); [|reflexivity].
  apply andb_true_iff in H1. destruct H1 as [-> H1]. now rewrite headNotSpace_take.
Qed.

(** X6. With [CompressSpaces] set, the only ASCII white space (tab, line
    feed, vertical tab, form feed, carriage return, space) that
    [LintText.Transform] leaves in [CombinedOutput] is the space character,
    and no two spaces are neighbours; the cuts keep this.  The step works on
    the class [[:space:]], which is ASCII: white space beyond ASCII is not
    touched by it. *)
Theorem LintText_single_spaced (l : LintText.t) (r : Result) :
  LintText.CompressSpaces l = true →
  singleSpaced (CombinedOutput (LintText.Transform l r).1) = true.
Proof.
  intros HC. simpl. apply (lint_keeps (λ x, singleSpaced x = true)).
  - intros n x. apply singleSpaced_take.
  - intros n x. apply singleSpaced_drop.
  - unfold lintSteps. rewrite HC. apply compressSpaces_singleSpaced.
Qed.

(** X7. With [TrimSpaces] set and neither cut in force, [strings.TrimSpace]
    changes neither the text that [LintText.Transform] leaves in
    [CombinedOutput] nor any of its lines, whatever the other three steps
    do. *)
Theorem LintText_trims_lines (l : LintText.t) (r : Result) :
  LintText.TrimSpaces l = true →
  LintText.BeginPosition l ≤ 0 → LintText.MaxLength l ≤ 0 →
  TrimSpace (CombinedOutput (LintText.Transform l r).1)
    = CombinedOutput (LintText.Transform l r).1 ∧
  Forall (λ line, TrimSpace line = line)
         (splitLF (CombinedOutput (LintText.Transform l r).1)).
Proof.
  intros HT HB HM. simpl.
  destruct (lint_linted l (CombinedOutput r) HB (or_introl HM)) as (H & _).
  destruct (H HT) as (Hh & Ht & Hl). split.
  - now apply TrimSpace_fixed.
  - eapply Forall_impl.
    + apply (trimmed_lines (S (length (LintText.lint l (CombinedOutput r)))));
        auto using headClear_inLine, tailClear_inLine.
    + intros line [H1 H2]. now apply TrimSpace_fixed.
Qed.

(** *** SayEmptyOutput *)

(** X8. [SayEmptyOutput.Transform] never fails and leaves a [CombinedOutput]
    with a character of the class [[:graph:]], which is ASCII (33 to 126): a
    result that has such a character is returned as it is, any other gets
    [EmptyOutputText], also one whose text is visible but has no ASCII byte;
    applying the filter again changes nothing. *)
Theorem SayEmptyOutput_leaves_visible (r : Result) :
  (SayEmptyOutput.Transform r).2 = None ∧
  existsb SayEmptyOutput.isGraph (CombinedOutput (SayEmptyOutput.Transform r).1) = true ∧
  (existsb SayEmptyOutput.isGraph (CombinedOutput r) = true →
   (SayEmptyOutput.Transform r).1 = r) ∧
  (existsb SayEmptyOutput.isGraph (CombinedOutput r) = false →
   CombinedOutput (SayEmptyOutput.Transform r).1 = SayEmptyOutput.EmptyOutputText) ∧
  (Forall (λ b, (128 ≤ Byte.to_N b)%N) (CombinedOutput r) →
   CombinedOutput (SayEmptyOutput.Transform r).1 = SayEmptyOutput.EmptyOutputText) ∧
  SayEmptyOutput.Transform (SayEmptyOutput.Transform r).1 = SayEmptyOutput.Transform r.
Proof.
  assert (Forall (λ b, (128 ≤ Byte.to_N b)%N) (CombinedOutput r) →
          existsb SayEmptyOutput.isGraph (CombinedOutput r) = false) as Hhigh.
  { intros HF. induction HF as [|b bs Hb _ IH]; [reflexivity|]. simpl. rewrite IH.
    rewrite orb_false_r. unfold SayEmptyOutput.isGraph, inRange.
    apply andb_false_intro2. apply N.leb_gt. lia. }
  unfold SayEmptyOutput.Transform.
  destruct (existsb SayEmptyOutput.isGraph (CombinedOutput r)) eqn:E; simpl.
  - rewrite E. repeat split; try congruence. intros HF. apply Hhigh in HF. congruence.
  - repeat split; congruence.
Qed.

(* ===================================================================== *)
(** ** The command filters, once more *)
(* ===================================================================== *)

Lemma translate_app a : ∀ b s,
  TranslateSequences.translate (a ++ b) s
  = TranslateSequences.translate b (TranslateSequences.translate a s).
Proof.
  induction a as [|t a IH]; intros b s; [reflexivity|]. simpl.
  destruct t as [|old [|new [|x t]]]; apply IH.
Qed.

Lemma translate_wellFormed tuples : ∀ s,
  TranslateSequences.translate tuples s
  = TranslateSequences.translate (filter (λ t, length t = 2%nat) tuples) s.
Proof.
  induction tuples as [|t tuples IH]; intros s; [reflexivity|].
  destruct t as [|old [|new [|x t]]].
  - rewrite filter_cons_False by (simpl; lia). apply IH.
  - rewrite filter_cons_False by (simpl; lia). apply IH.
  - rewrite filter_cons_True by reflexivity. simpl. apply IH.
  - rewrite filter_cons_False by (simpl; lia). apply IH.
Qed.

(** X9. [TranslateSequences.Transform] with the tuples [a ++ b] is the filter
    with [a] followed by the filter with [b], and the tuples whose length is
    not 2 can be left out without changing its result. *)
Theorem TranslateSequences_Transform_composes (a b : list (list gostring)) (c : Command) :
  TranslateSequences.Transform (TranslateSequences.mk (Some (a ++ b))) c
  = TranslateSequences.Transform (TranslateSequences.mk (Some b))
      (TranslateSequences.Transform (TranslateSequences.mk (Some a)) c).1 ∧
  TranslateSequences.Transform (TranslateSequences.mk (Some a)) c
  = TranslateSequences.Transform
      (TranslateSequences.mk (Some (filter (λ t, length t = 2%nat) a))) c.
Proof.
  unfold TranslateSequences.Transform. simpl. split.
  - now rewrite translate_app.
  - now rewrite <- translate_wellFormed.
Qed.

Lemma HasPrefix_occurs (s old : gostring) : HasPrefix s old = true → occursIn old s.
Proof.
  intros H. apply HasPrefix_prefix in H. destruct H as [k ->]. now exists [], k.
Qed.

Lemma replaceFrom_absent old new (s : gostring) :
  ¬ occursIn old s → replaceFrom old new 0 s = s.
Proof.
  induction s as [|b s IH]; intros H; [reflexivity|]. simpl.
  destruct (HasPrefix (b :: s) old) eqn:E.
  - destruct H. now apply HasPrefix_occurs.
  - f_equal. apply IH. intros (x & y & ->). apply H. now exists (b :: x), y.
Qed.

Lemma ReplaceAll_absent (s old new : gostring) :
  ¬ occursIn old s → ReplaceAll s old new = s.
Proof.
  intros H. unfold ReplaceAll. case_bool_decide; [reflexivity|].
  destruct old as [|o old].
  - destruct H. now exists [], s.
  - now apply replaceFrom_absent.
Qed.

(** X10. When the first string of no pair among the tuples occurs in the content,
    [TranslateSequences.Transform] returns the command as it is. *)
Theorem TranslateSequences_Transform_no_occurrence (tr : TranslateSequences.t) (c : Command) :
  (∀ tuples old new,
     TranslateSequences.Sequences tr = Some tuples →
     [old; new] ∈ tuples → ¬ occursIn old (Content c)) →
  TranslateSequences.Transform tr c = (c, None).
Proof.
  unfold TranslateSequences.Transform.
  destruct (TranslateSequences.Sequences tr) as [tuples|]; [|reflexivity].
  intros H. specialize (H tuples).
  assert (TranslateSequences.translate tuples (Content c) = Content c) as ->.
  { induction tuples as [|t tuples IH]; [reflexivity|].
    assert (TranslateSequences.translate tuples (Content c) = Content c) as IH'.
    { apply IH. intros old new _ Hin. apply (H old new eq_refl). now right. }
    simpl. destruct t as [|old [|new [|x t]]]; try exact IH'.
    rewrite ReplaceAll_absent; [exact IH'|].
    apply (H old new eq_refl). now left. }
  now destruct c.
Qed.

(** *** PINAndShortcuts *)

Lemma matchesNothing_intro pin line :
  PINAndShortcuts.lookupShortcut pin line = None →
  PINAndShortcuts.matchPIN pin line = false →
  matchesNothing pin line.
Proof.
  intros H1 H2. split.
  - intros v Hv. apply lookupShortcut_spec in Hv. congruence.
  - intros Hp. apply matchPIN_spec in Hp. congruence.
Qed.

Lemma scanLines_approval pin c lines ret :
  PINAndShortcuts.scanLines pin c lines = (ret, None) →
  ∃ before line after,
    lines = before ++ line :: after ∧
    Forall (λ l, matchesNothing pin (TrimSpace l)) before ∧
    (isShortcut pin (TrimSpace line) (Content ret) ∨
     ((∀ v, ¬ isShortcut pin (TrimSpace line) v) ∧
      startsWithPIN pin (TrimSpace line) ∧
      Content ret = drop (length (PINAndShortcuts.PIN pin)) (TrimSpace line))).
Proof.
  induction lines as [|l lines IH]; simpl; [discriminate|].
  destruct (PINAndShortcuts.lookupShortcut pin (TrimSpace l)) as [v|] eqn:E1.
  - intros E. inversion E; subst. exists [], l, lines. split; [reflexivity|].
    split; [constructor|]. left. now apply lookupShortcut_spec.
  - destruct (PINAndShortcuts.matchPIN pin (TrimSpace l)) eqn:E2.
    + intros E. inversion E; subst. exists [], l, lines. split; [reflexivity|].
      split; [constructor|]. right. split; [|split].
      * intros v Hv. apply lookupShortcut_spec in Hv. congruence.
      * now apply matchPIN_spec.
      * reflexivity.
    + intros E. destruct (IH E) as (before & line & after & -> & HF & H).
      exists (l :: before), line, after. split; [reflexivity|]. split; [|exact H].
      constructor; [|exact HF]. now apply matchesNothing_intro.
Qed.

(** X11. When [PINAndShortcuts.Transform] approves a command, some line of the
    command decided it and no line before it matches: either the trimmed line
    is a shortcut and the content returned is its expansion, or it starts
    with the PIN and the content returned is the rest of the line, which is
    then not empty and has no line feed. *)
Theorem PINAndShortcuts_Transform_approval (pin : PINAndShortcuts.t) (c ret : Command) :
  PINAndShortcuts.Transform pin c = (ret, None) →
  ∃ before line after,
    Lines c = before ++ line :: after ∧
    Forall (λ l, matchesNothing pin (TrimSpace l)) before ∧
    (isShortcut pin (TrimSpace line) (Content ret) ∨
     ((∀ v, ¬ isShortcut pin (TrimSpace line) v) ∧
      startsWithPIN pin (TrimSpace line) ∧
      Content ret = drop (length (PINAndShortcuts.PIN pin)) (TrimSpace line) ∧
      Content ret ≠ [] ∧ x0a ∉ Content ret)).
Proof.
  unfold PINAndShortcuts.Transform.
  destruct (PINAndShortcuts.undefined pin); [discriminate|].
  intros H. pose proof (scanLines_approval _ _ _ _ H) as (before & line & after & E & HF & Hc).
  exists before, line, after. split; [exact E|]. split; [exact HF|].
  destruct Hc as [Hc|(Hn & Hp & Hc)]; [now left|right].
  split; [exact Hn|]. split; [exact Hp|]. split; [exact Hc|]. split.
  - rewrite Hc. destruct Hp as [Hlen _]. intros E0.
    apply (f_equal length) in E0. rewrite length_drop in E0. simpl in E0. lia.
  - rewrite Hc. intros Hin.
    assert (noLF line) as Hline.
    { pose proof (splitLF_noLF (Content c)) as Hall. unfold Lines in E. rewrite E in Hall.
      rewrite Forall_app, Forall_cons in Hall. tauto. }
    apply Hline.
    destruct (TrimSpace_infix line) as (x & y & Heq).
    rewrite Heq. apply elem_of_app. right. apply elem_of_app. left.
    destruct (suffix_drop (TrimSpace line) (length (PINAndShortcuts.PIN pin))) as [k Ek].
    rewrite Ek. apply elem_of_app. now right.
Qed.

Lemma scanLines_error pin c lines ret e :
  PINAndShortcuts.scanLines pin c lines = (ret, Some e) →
  e = ErrPINAndShortcutNotFound ∧ ret = c ∧
  Forall (λ l, matchesNothing pin (TrimSpace l)) lines.
Proof.
  induction lines as [|l lines IH]; simpl.
  - intros E. inversion E; subst. repeat split. constructor.
  - destruct (PINAndShortcuts.lookupShortcut pin (TrimSpace l)) as [v|] eqn:E1;
      [discriminate|].
    destruct (PINAndShortcuts.matchPIN pin (TrimSpace l)) eqn:E2; [discriminate|].
    intros E. destruct (IH E) as (-> & -> & HF). repeat split.
    constructor; [|exact HF]. now apply matchesNothing_intro.
Qed.

(** X12. [PINAndShortcuts.Transform] fails in two ways only: with the error that
    nothing is defined and the zero command, when the PIN is empty and there
    is no shortcut; or with [ErrPINAndShortcutNotFound] and the command as it
    was, and then no trimmed line of the command is a shortcut or starts with
    the PIN. *)
Theorem PINAndShortcuts_Transform_disapproval (pin : PINAndShortcuts.t)
    (c ret : Command) (e : error) :
  PINAndShortcuts.Transform pin c = (ret, Some e) →
  (e = ErrPINAndShortcutsUndefined ∧ ret = zeroCommand ∧
   PINAndShortcuts.PIN pin = [] ∧ ∀ line v, ¬ isShortcut pin line v) ∨
  (e = ErrPINAndShortcutNotFound ∧ ret = c ∧
   Forall (λ l, matchesNothing pin (TrimSpace l)) (Lines c)).
Proof.
  unfold PINAndShortcuts.Transform.
  destruct (PINAndShortcuts.undefined pin) eqn:U.
  - intros E. inversion E; subst. left. repeat split.
    + unfold PINAndShortcuts.undefined in U. apply andb_true_iff in U.
      destruct U as [U _]. now apply bool_decide_eq_true in U.
    + intros line v (m & Hm & Hv).
      unfold PINAndShortcuts.undefined in U. apply andb_true_iff in U.
      destruct U as [_ U]. rewrite Hm in U. apply bool_decide_eq_true in U.
      apply map_size_empty_iff in U. subst m. now rewrite lookup_empty in Hv.
  - intros E. right. now apply scanLines_error in E.
Qed.

(** X13. With an empty PIN and some shortcut defined, [PINAndShortcuts.Transform]
    approves every command that has a line which is not blank: the empty PIN
    is a prefix of every line, so the content returned is the expansion of a
    shortcut or a trimmed line of the command itself. *)
Theorem PINAndShortcuts_Transform_empty_PIN (pin : PINAndShortcuts.t) (c : Command) :
  PINAndShortcuts.PIN pin = [] →
  (∃ m, PINAndShortcuts.Shortcuts pin = Some m ∧ m ≠ ∅) →
  (∃ line, line ∈ Lines c ∧ TrimSpace line ≠ []) →
  ∃ ret line,
    PINAndShortcuts.Transform pin c = (ret, None) ∧ line ∈ Lines c ∧
    (isShortcut pin (TrimSpace line) (Content ret) ∨ Content ret = TrimSpace line).
Proof.
  intros HP HS (line & Hin & Hne). unfold PINAndShortcuts.Transform.
  rewrite (undefined_false pin (or_intror HS)).
  destruct (PINAndShortcuts.scanLines pin c (Lines c)) as [ret [e|]] eqn:E.
  - exfalso. apply scanLines_error in E. destruct E as (_ & _ & HF).
    rewrite Forall_forall in HF. destruct (HF line Hin) as [_ Hno]. apply Hno.
    unfold startsWithPIN. rewrite HP. simpl. split; [|reflexivity].
    destruct (TrimSpace line); [congruence | simpl; lia].
  - apply scanLines_approval in E. destruct E as (before & l & after & El & _ & H).
    exists ret, l. split; [reflexivity|]. split.
    + rewrite El. apply elem_of_app. right. now left.
    + destruct H as [H|(_ & _ & H)]; [now left|right].
      rewrite H, HP. reflexivity.
Qed.

(* ===================================================================== *)
(** ** IsEmpty and IsSaneForInternet *)
(* ===================================================================== *)

Lemma anyEmptyPIN_spec fs :
  anyEmptyPIN fs = true ↔
  ∃ pin, CFPINAndShortcuts pin ∈ fs ∧ PINAndShortcuts.PIN pin = [].
Proof.
  induction fs as [|f fs IH]; simpl.
  - split; [discriminate|]. intros (pin & H & _). inversion H.
  - destruct f as [pin|tr|g].
    + case_bool_decide as E.
      * split; [|reflexivity]. intros _. exists pin. split; [now left|exact E].
      * rewrite IH. split.
        -- intros (p & H1 & H2). exists p. split; [now right|exact H2].
        -- intros (p & H1 & H2). exists p. split; [|exact H2].
           apply elem_of_cons in H1. destruct H1 as [H1|H1]; [|exact H1].
           inversion H1; subst. contradiction.
    + rewrite IH. split.
      * intros (p & H1 & H2). exists p. split; [now right|exact H2].
      * intros (p & H1 & H2). exists p. split; [|exact H2].
        apply elem_of_cons in H1. destruct H1 as [H1|H1]; [discriminate|exact H1].
    + rewrite IH. split.
      * intros (p & H1 & H2). exists p. split; [now right|exact H2].
      * intros (p & H1 & H2). exists p. split; [|exact H2].
        apply elem_of_cons in H1. destruct H1 as [H1|H1]; [discriminate|exact H1].
Qed.

(** X14. [IsEmpty] is false exactly when there is a command filter and every PIN
    filter among them has a PIN that is not empty; such a PIN filter never
    fails with the error that nothing is defined. *)
Theorem IsEmpty_false (proc : CommandProcessor) :
  IsEmpty proc = false ↔
  CommandFilters proc ≠ [] ∧
  ∀ pin, CFPINAndShortcuts pin ∈ CommandFilters proc →
         PINAndShortcuts.PIN pin ≠ [] ∧
         ∀ c, (PINAndShortcuts.Transform pin c).2 ≠ Some ErrPINAndShortcutsUndefined.
Proof.
  unfold IsEmpty. split.
  - intros H. destruct (CommandFilters proc) as [|f fs] eqn:E; [discriminate|].
    split; [discriminate|]. intros pin Hin.
    assert (PINAndShortcuts.PIN pin ≠ []) as Hne.
    { intros HP. assert (anyEmptyPIN (f :: fs) = true) as Ht.
      { apply anyEmptyPIN_spec. now exists pin. }
      congruence. }
    split; [exact Hne|]. intros c. unfold PINAndShortcuts.Transform.
    rewrite (undefined_false pin (or_introl Hne)).
    destruct (PINAndShortcuts.scanLines pin c (Lines c)) as [ret [e|]] eqn:Es;
      [|discriminate].
    apply scanLines_error in Es. destruct Es as (-> & _). discriminate.
  - intros [Hne H]. destruct (CommandFilters proc) as [|f fs] eqn:E; [congruence|].
    destruct (anyEmptyPIN (f :: fs)) eqn:A; [|reflexivity].
    apply anyEmptyPIN_spec in A. destruct A as (pin & Hin & HP).
    destruct (H pin Hin) as [Hn _]. contradiction.
Qed.

Lemma checkPIN_errors fs :
  (length (checkPIN fs) ≤ 1)%nat ∧
  Forall (λ e, ∃ msg, e = badConfig msg) (checkPIN fs).
Proof.
  induction fs as [|f fs IH]; simpl.
  - split; [lia|]. repeat constructor. eexists. reflexivity.
  - destruct f as [pin|tr|g]; try exact IH.
    destruct (PINAndShortcuts.undefined pin) eqn:U;
      destruct (bool_decide (PINAndShortcuts.PIN pin = [])) eqn:E; simpl;
      try destruct (_ <? _)%nat;
      try (unfold PINAndShortcuts.undefined in U; rewrite E in U; discriminate);
      (split; [simpl; lia|]); repeat constructor; eexists; reflexivity.
Qed.

Lemma checkLinter_errors fs :
  (length (checkLinter fs) ≤ 1)%nat ∧
  Forall (λ e, ∃ msg, e = badConfig msg) (checkLinter fs).
Proof.
  induction fs as [|f fs IH]; simpl.
  - split; [lia|]. repeat constructor. eexists. reflexivity.
  - destruct f as [lt|n| |g]; try exact IH.
    destruct (_ || _).
    + split; [simpl; lia|]. repeat constructor. eexists. reflexivity.
    + split; [simpl; lia|]. constructor.
Qed.

(** X15. [IsSaneForInternet] returns at most three errors, at most one for each of
    the three fields it looks at, and the text of each starts with
    [ErrBadProcessorConfig]. *)
Theorem IsSaneForInternet_errors (features : option FeatureSet)
    (commandFilters : option (list CommandFilter))
    (resultFilters : option (list ResultFilter)) :
  (length (IsSaneForInternet features commandFilters resultFilters) ≤ 3)%nat ∧
  Forall (λ e, ∃ msg, e = ErrOther (ErrBadProcessorConfig ++ msg))
         (IsSaneForInternet features commandFilters resultFilters).
Proof.
  unfold IsSaneForInternet.
  assert (∀ msg, (length [badConfig msg] ≤ 1)%nat ∧
                 Forall (λ e, ∃ m, e = badConfig m) [badConfig msg]) as Hone.
  { intros msg. split; [simpl; lia|]. repeat constructor. eexists. reflexivity. }
  assert ((length ([] : list error) ≤ 1)%nat ∧
          Forall (λ e : error, ∃ m, e = badConfig m) []) as Hnil.
  { split; [simpl; lia | constructor]. }
  match goal with |- context [?a ++ ?b ++ ?c] =>
    assert ((length a ≤ 1)%nat ∧ Forall (λ e, ∃ m, e = badConfig m) a) as [Ha1 Ha2];
    [| assert ((length b ≤ 1)%nat ∧ Forall (λ e, ∃ m, e = badConfig m) b) as [Hb1 Hb2];
       [| assert ((length c ≤ 1)%nat ∧ Forall (λ e, ∃ m, e = badConfig m) c) as [Hc1 Hc2] ] ]
  end.
  - destruct features as [fs|]; [|apply Hone]. destruct (_ =? _)%nat; [apply Hone|apply Hnil].
  - destruct commandFilters; [apply checkPIN_errors | apply Hone].
  - destruct resultFilters; [apply checkLinter_errors | apply Hone].
  - split.
    + rewrite !length_app. lia.
    + rewrite !Forall_app. auto.
Qed.

Lemma checkPIN_nil fs :
  checkPIN fs = [] ↔
  ∃ pin, firstPIN fs = Some pin ∧ PINAndShortcuts.undefined pin = false ∧
         (PINAndShortcuts.PIN pin = [] ∨ (7 ≤ length (PINAndShortcuts.PIN pin))%nat).
Proof.
  induction fs as [|f fs IH]; simpl.
  - split; [discriminate|]. intros (pin & H & _). discriminate.
  - destruct f as [pin|tr|g]; try exact IH.
    split.
    + intros H. apply app_eq_nil in H. destruct H as [H1 H2].
      exists pin. split; [reflexivity|].
      destruct (PINAndShortcuts.undefined pin); [discriminate|]. split; [reflexivity|].
      case_bool_decide as E; [now left|right]. simpl in H2.
      destruct (_ <? _)%nat eqn:L; [discriminate|]. apply Nat.ltb_ge in L. exact L.
    + intros (p & Hp & HU & HP). inversion Hp; subst p. rewrite HU. simpl.
      destruct HP as [HP|HP].
      * rewrite bool_decide_eq_true_2 by exact HP. reflexivity.
      * apply Nat.ltb_ge in HP. rewrite HP. now rewrite andb_false_r.
Qed.

Lemma checkLinter_nil fs :
  checkLinter fs = [] ↔
  ∃ lt, findLintText fs = Some lt ∧ 35 ≤ LintText.MaxLength lt ≤ 4096.
Proof.
  induction fs as [|f fs IH]; simpl.
  - split; [discriminate|]. intros (lt & H & _). discriminate.
  - destruct f as [lt|n| |g]; try exact IH.
    split.
    + intros H. exists lt. split; [reflexivity|].
      destruct (_ <? 35) eqn:L1; [discriminate|].
      destruct (4096 <? _) eqn:L2; [discriminate|]. lia.
    + intros (l & Hl & H1 & H2). inversion Hl; subst l.
      apply Z.ltb_ge in H1, H2. now rewrite H1, H2.
Qed.

(** X16. [IsSaneForInternet] returns no error exactly when the feature set is
    assigned and has a trigger, the first PIN filter among the assigned
    command filters has a PIN or a shortcut and its PIN is empty or at least
    7 bytes long, and the first LintText among the assigned result filters
    has a [MaxLength] within 35 and 4096. *)
Theorem IsSaneForInternet_sane (features : option FeatureSet)
    (commandFilters : option (list CommandFilter))
    (resultFilters : option (list ResultFilter)) :
  IsSaneForInternet features commandFilters resultFilters = [] ↔
  (∃ fs, features = Some fs ∧ LookupByTrigger fs ≠ []) ∧
  (∃ cf pin, commandFilters = Some cf ∧ firstPIN cf = Some pin ∧
             PINAndShortcuts.undefined pin = false ∧
             (PINAndShortcuts.PIN pin = [] ∨ (7 ≤ length (PINAndShortcuts.PIN pin))%nat)) ∧
  (∃ rf lt, resultFilters = Some rf ∧ findLintText rf = Some lt ∧
            35 ≤ LintText.MaxLength lt ≤ 4096).
Proof.
  unfold IsSaneForInternet. split.
  - intros H. apply app_eq_nil in H. destruct H as [H1 H2].
    apply app_eq_nil in H2. destruct H2 as [H2 H3]. split; [|split].
    + destruct features as [fs|]; [|discriminate]. exists fs. split; [reflexivity|].
      destruct (LookupByTrigger fs); [discriminate|discriminate].
    + destruct commandFilters as [cf|]; [|discriminate].
      apply checkPIN_nil in H2. destruct H2 as (pin & H2). exists cf, pin. tauto.
    + destruct resultFilters as [rf|]; [|discriminate].
      apply checkLinter_nil in H3. destruct H3 as (lt & H3). exists rf, lt. tauto.
  - intros ((fs & -> & Hfs) & (cf & pin & -> & Hpin) & (rf & lt & -> & Hlt)).
    destruct (LookupByTrigger fs) eqn:E; [congruence|]. simpl.
    assert (checkPIN cf = []) as -> by (apply checkPIN_nil; now exists pin).
    assert (checkLinter rf = []) as -> by (apply checkLinter_nil; now exists lt).
    reflexivity.
Qed.

(* ===================================================================== *)
(** ** The command processor, once more *)
(* ===================================================================== *)

Lemma walkCommandFilters_outcome fs : ∀ l0,
  match walkCommandFilters fs l0 with
  | Next l => commandFilterError fs (cmd l0) = None
  | GotoResult l ret =>
    ∃ e, commandFilterError fs (cmd l0) = Some e ∧ ret = errorResult (Some e)
  end.
Proof.
  induction fs as [|f fs IH]; intros l0; simpl; [reflexivity|].
  destruct (CommandFilter_Transform f (cmd l0)) as [c' [e|]]; simpl.
  - now exists e.
  - match goal with |- context [walkCommandFilters fs ?l1] => exact (IH l1) end.
Qed.

(** *** The regular expression of the PLT prefix *)

Lemma runLength_take c (s : gostring) : ∀ k,
  (k ≤ runLength c s)%nat → forallb (inClass c) (take k s) = true.
Proof.
  induction s as [|b s IH]; intros [|k] H; simpl in *; try reflexivity; try lia.
  destruct (inClass c b); [|lia]. simpl. apply IH. lia.
Qed.

Lemma matchPieces_groups ps : ∀ s gs n,
  matchPieces ps s = Some (gs, n) → groupsFit ps gs.
Proof.
  induction ps as [|p ps IH]; intros s gs n; simpl.
  - intros H. now inversion H.
  - match goal with |- ?f (runLength ?c s) = _ → _ =>
      assert (∀ k, (k ≤ runLength c s)%nat → f k = Some (gs, n) →
                   if captured p
                   then match gs with
                        | g :: gs' =>
                          forallb (inClass (cls p)) g = true ∧
                          (atLeastOne p = true → g ≠ []) ∧ groupsFit ps gs'
                        | [] => False
                        end
                   else groupsFit ps gs) as H
    end.
    { induction k as [|k IHk]; intros Hk.
      - destruct (atLeastOne p) eqn:A; simpl; [discriminate|].
        destruct (matchPieces ps (drop 0 s)) as [[gs' n']|] eqn:E; [|discriminate].
        intros H. inversion H; subst; clear H. apply IH in E.
        destruct (captured p); [|exact E]. split; [reflexivity|].
        split; [discriminate|exact E].
      - cbn [Nat.leb].
        assert (((if atLeastOne p then 1 else 0) <=? S k)%nat = true) as ->.
        { apply Nat.leb_le. destruct (atLeastOne p); lia. }
        destruct (matchPieces ps (drop (S k) s)) as [[gs' n']|] eqn:E.
        + intros H. inversion H; subst; clear H. apply IH in E.
          destruct (captured p); [|exact E]. split; [|split; [|exact E]].
          * apply runLength_take. exact Hk.
          * intros _ E0. apply (f_equal length) in E0. rewrite length_take in E0.
            change (length ([] : gostring)) with 0%nat in E0.
            assert (runLength (cls p) s ≤ length s)%nat.
            { clear. induction s as [|b s IHs]; simpl; [lia|].
              destruct (inClass _ b); lia. }
            lia.
        + intros H. apply IHk; [lia|exact H]. }
    apply H. lia.
Qed.

Lemma FindStringSubmatch_groups re (s : gostring) : ∀ gs,
  FindStringSubmatch re s = Some gs →
  ∃ whole gs', gs = whole :: gs' ∧ groupsFit re gs'.
Proof.
  induction s as [|b s IH]; intros gs; simpl.
  - destruct (matchPieces re []) as [[gs' n]|] eqn:E; [|discriminate].
    intros H. inversion H; subst. eexists _, gs'. split; [reflexivity|].
    eapply matchPieces_groups, E.
  - destruct (matchPieces re (b :: s)) as [[gs' n]|] eqn:E.
    + intros H. inversion H; subst. eexists _, gs'. split; [reflexivity|].
      eapply matchPieces_groups, E.
    + apply IH.
Qed.

Lemma isDigit_value b : isDigit b = true → 0 ≤ byteZ b - 48 ≤ 9.
Proof.
  unfold isDigit, inRange, byteZ. intros H. apply andb_true_iff in H.
  destruct H as [H1 H2]. apply N.leb_le in H1, H2. lia.
Qed.

Lemma digits_fold (ds : gostring) : ∀ acc,
  0 ≤ acc → forallb isDigit ds = true →
  acc ≤ fold_left (λ acc b, 10 * acc + (byteZ b - 48)) ds acc.
Proof.
  induction ds as [|b ds IH]; intros acc Ha H; simpl in *; [lia|].
  apply andb_true_iff in H. destruct H as [Hb H].
  pose proof (isDigit_value b Hb).
  etransitivity; [|apply IH; [lia|exact H]]. lia.
Qed.

Lemma digitsValue_nonneg (ds : gostring) :
  forallb isDigit ds = true → 0 ≤ digitsValue ds.
Proof. intros H. apply digits_fold; [lia|exact H]. Qed.

(** [strconv.Atoi] on a non-empty string of digits. *)
Lemma Atoi_digits (p : gostring) :
  p ≠ [] → forallb isDigit p = true →
  Atoi p = if maxInt <? digitsValue p then (maxInt, true) else (digitsValue p, false).
Proof.
  intros Hne H. pose proof (digitsValue_nonneg p H) as Hv.
  destruct p as [|b p]; [congruence|].
  assert (Atoi (b :: p) =
          if forallb isDigit (b :: p) then
            if maxInt <? digitsValue (b :: p) then (maxInt, true)
            else if digitsValue (b :: p) <? minInt then (minInt, true)
            else (digitsValue (b :: p), false)
          else (0, true)) as ->.
  { simpl in H. apply andb_true_iff in H. destruct H as [Hb _].
    destruct b; try discriminate Hb; reflexivity. }
  rewrite H. destruct (maxInt <? _); [reflexivity|].
  assert ((digitsValue (b :: p) <? minInt) = false) as ->; [|reflexivity].
  apply Z.ltb_ge. unfold minInt. lia.
Qed.

(** X17. A match of [RegexCommandWithPLT] has exactly the whole match and four
    groups.  Each of the first three groups is a string of digits that is
    not empty, so [strconv.Atoi] gives for it a number from 0 up to the
    largest [int], the value of the digits unless that is too large, which
    is its only error; the fourth group has no line feed. *)
Theorem RegexCommandWithPLT_groups (s : gostring) (gs : list gostring) :
  FindStringSubmatch RegexCommandWithPLT s = Some gs →
  ∃ whole p1 p2 p3 p4,
    gs = [whole; p1; p2; p3; p4] ∧
    Forall (λ p, p ≠ [] ∧ forallb isDigit p = true ∧
                 0 ≤ (Atoi p).1 ≤ maxInt ∧
                 ((Atoi p).2 = false → (Atoi p).1 = digitsValue p) ∧
                 ((Atoi p).2 = true → maxInt < digitsValue p))
           [p1; p2; p3] ∧
    x0a ∉ p4.
Proof.
  intros H. apply FindStringSubmatch_groups in H. destruct H as (whole & gs' & -> & H).
  simpl in H.
  destruct gs' as [|p1 gs']; [destruct H|]. destruct H as (D1 & N1 & H).
  destruct gs' as [|p2 gs']; [destruct H|]. destruct H as (D2 & N2 & H).
  destruct gs' as [|p3 gs']; [destruct H|]. destruct H as (D3 & N3 & H).
  destruct gs' as [|p4 gs']; [destruct H|]. destruct H as (D4 & _ & ->).
  exists whole, p1, p2, p3, p4. split; [reflexivity|].
  assert (∀ p, forallb isDigit p = true → p ≠ [] →
               p ≠ [] ∧ forallb isDigit p = true ∧
               0 ≤ (Atoi p).1 ≤ maxInt ∧
               ((Atoi p).2 = false → (Atoi p).1 = digitsValue p) ∧
               ((Atoi p).2 = true → maxInt < digitsValue p)) as Hp.
  { intros p Hd Hn. split; [exact Hn|]. split; [exact Hd|].
    rewrite (Atoi_digits p Hn Hd). pose proof (digitsValue_nonneg p Hd).
    destruct (maxInt <? digitsValue p) eqn:E; simpl.
    - apply Z.ltb_lt in E. unfold maxInt in *. repeat split; try lia; discriminate.
    - apply Z.ltb_ge in E. repeat split; try lia; discriminate. }
  split.
  - repeat constructor; apply Hp; auto.
  - intros Hin. rewrite forallb_forall in D4.
    assert (In x0a p4) as Hin' by (now apply list_elem_of_In).
    specialize (D4 _ Hin'). simpl in D4. discriminate.
Qed.

(** *** The limiter *)

Lemma initialiseOnce_done proc :
  initOnce (initialiseOnce proc) = true ∧
  initialiseOnce (initialiseOnce proc) = initialiseOnce proc.
Proof.
  unfold initialiseOnce. destruct (initOnce proc) eqn:E; simpl.
  - now rewrite E.
  - split; reflexivity.
Qed.

(** *** The result filters of the package in the loop *)

Lemma fromPackage_Transform f r :
  fromPackage f →
  (ResultFilter_Transform f r).2 = None ∧
  ResCommand (ResultFilter_Transform f r).1 = ResCommand r ∧
  Output (ResultFilter_Transform f r).1 = Output r ∧
  Error (ResultFilter_Transform f r).1 = Error r.
Proof.
  destruct f as [lt|n| |g]; simpl; try tauto.
  - intros _. unfold SayEmptyOutput.Transform. now destruct (existsb _ _).
Qed.

Lemma walkResultFilters_package fs has override : ∀ ret tr,
  Forall fromPackage fs →
  ∃ ret' t,
    walkResultFilters fs has override ret tr = (ret', None, tr ++ t) ∧
    ResCommand ret' = ResCommand ret ∧ Output ret' = Output ret ∧
    Error ret' = Error ret ∧
    length t = length fs ∧
    Forall (λ e, ∃ f r, e = EvResultFilter f r ∧ Error r = Error ret ∧
                        ResCommand r = ResCommand ret) t.
Proof.
  induction fs as [|f fs IH]; intros ret tr HF; simpl.
  - exists ret, []. rewrite app_nil_r. repeat split. constructor.
  - inversion HF as [|? ? Hf HFs]; subst.
    set (f' := match f with
               | RFLintText _ => if has then RFLintText override else f
               | _ => f
               end).
    assert (fromPackage f') as Hf'.
    { subst f'. destruct f; simpl in *; try tauto. destruct has; exact I. }
    destruct (fromPackage_Transform f' ret Hf') as (T1 & T2 & T3 & T4).
    destruct (ResultFilter_Transform f' ret) as [r1 e1]. simpl in *. subst e1.
    destruct (IH r1 (tr ++ [EvResultFilter f' ret]) HFs)
      as (ret' & t & Hw & W1 & W2 & W3 & W4 & W5).
    exists ret', (EvResultFilter f' ret :: t). rewrite Hw.
    split; [now rewrite <- app_assoc|]. repeat split; try congruence.
    + simpl. now rewrite W4.
    + constructor.
      * exists f', ret. auto.
      * eapply Forall_impl; [exact W5|]. intros e (g & r & -> & E1 & E2).
        exists g, r. repeat split; congruence.
Qed.

Lemma walkResultFilters_app a b has override : ∀ ret tr,
  walkResultFilters (a ++ b) has override ret tr =
    match walkResultFilters a has override ret tr with
    | (r, None, t) => walkResultFilters b has override r t
    | (r, Some e, t) => (r, Some e, t)
    end.
Proof.
  induction a as [|f a IH]; intros ret tr; simpl; [reflexivity|].
  destruct (ResultFilter_Transform _ ret) as [r1 [e|]]; [reflexivity|]. apply IH.
Qed.

Lemma walkResultFilters_sayOrNotify fs has override : ∀ ret tr,
  Forall sayOrNotify fs →
  ∃ ret' tr',
    walkResultFilters fs has override ret tr = (ret', None, tr') ∧
    (CombinedOutput ret' = CombinedOutput ret ∨
     CombinedOutput ret' = SayEmptyOutput.EmptyOutputText) ∧
    (RFSayEmptyOutput ∈ fs →
     existsb SayEmptyOutput.isGraph (CombinedOutput ret') = true).
Proof.
  induction fs as [|f fs IH]; intros ret tr HF; simpl.
  - exists ret, tr. split; [reflexivity|]. split; [now left|]. intros H. inversion H.
  - inversion HF as [|? ? Hf HFs]; subst. destruct f as [lt|n| |g]; try destruct Hf.
    + simpl. destruct (IH ret (tr ++ [EvResultFilter (RFNotifyViaEmail n) ret]) HFs)
        as (ret' & tr' & Hw & Hc & Hg).
      exists ret', tr'. split; [exact Hw|]. split; [exact Hc|].
      intros Hin. apply Hg. apply elem_of_cons in Hin.
      destruct Hin as [Hin|Hin]; [discriminate|exact Hin].
    + simpl. unfold SayEmptyOutput.Transform.
      destruct (existsb SayEmptyOutput.isGraph (CombinedOutput ret)) eqn:E.
      * destruct (IH ret (tr ++ [EvResultFilter RFSayEmptyOutput ret]) HFs)
          as (ret' & tr' & Hw & Hc & Hg).
        exists ret', tr'. split; [exact Hw|]. split; [exact Hc|].
        intros _. destruct Hc as [-> | ->]; [exact E|reflexivity].
      * destruct (IH (withCombinedOutput ret SayEmptyOutput.EmptyOutputText)
                     (tr ++ [EvResultFilter RFSayEmptyOutput ret]) HFs)
          as (ret' & tr' & Hw & Hc & Hg).
        exists ret', tr'. split; [exact Hw|]. simpl in Hc. split; [tauto|].
        intros _. destruct Hc as [-> | ->]; reflexivity.
Qed.

Lemma lint_bound (l : LintText.t) (s : gostring) :
  0 < LintText.MaxLength l →
  Z.of_nat (length (LintText.lint l s)) ≤ LintText.MaxLength l.
Proof.
  intros HM. rewrite lint_cuts.
  generalize (LintText.cutLeading (LintText.BeginPosition l) (lintSteps l s)).
  intros x. unfold LintText.cutTrailing, sliceTo.
  apply Z.ltb_lt in HM. rewrite HM.
  destruct (LintText.MaxLength l <? Z.of_nat (length x)) eqn:E.
  - rewrite length_take. lia.
  - apply Z.ltb_ge in E. lia.
Qed.

(** *** The processors of the test helpers *)

Lemma EncodeToString_length (src : gostring) :
  length (EncodeToString src) = (2 * length src)%nat.
Proof.
  unfold EncodeToString. induction src as [|b src IH]; simpl; [reflexivity|].
  rewrite IH. lia.
Qed.

Lemma Transform_no_match pin c :
  PINAndShortcuts.undefined pin = false →
  Forall (λ line, matchesNothing pin (TrimSpace line)) (Lines c) →
  PINAndShortcuts.Transform pin c = (c, Some ErrPINAndShortcutNotFound).
Proof.
  intros HU HF. unfold PINAndShortcuts.Transform. rewrite HU.
  rewrite <- (app_nil_r (Lines c)). now rewrite scanLines_skip.
Qed.

(** X18. The processor of [GetEmptyCommandProcessor], whatever the 128 random
    bytes are: it is sane for the Internet when the feature set has a
    trigger, it is not empty, and its command filters reject with
    [ErrPINAndShortcutNotFound] every command whose trimmed lines are not
    longer than the 256 characters of the PIN. *)
Theorem GetEmptyCommandProcessor_sane (features : FeatureSet) (randPIN : gostring) :
  length randPIN = 128%nat →
  (LookupByTrigger features ≠ [] →
   IsSaneForInternet (Features (GetEmptyCommandProcessor features randPIN))
                     (Some (CommandFilters (GetEmptyCommandProcessor features randPIN)))
                     (Some (ResultFilters (GetEmptyCommandProcessor features randPIN)))
     = []) ∧
  IsEmpty (GetEmptyCommandProcessor features randPIN) = false ∧
  (∀ c, Forall (λ line, (length (TrimSpace line) ≤ 256)%nat) (Lines c) →
        commandFilterError (CommandFilters (GetEmptyCommandProcessor features randPIN)) c
          = Some ErrPINAndShortcutNotFound).
Proof.
  intros Hlen.
  assert (length (EncodeToString randPIN) = 256%nat) as HL.
  { rewrite EncodeToString_length, Hlen. reflexivity. }
  assert (EncodeToString randPIN ≠ []) as Hne.
  { intros E. rewrite E in HL. discriminate HL. }
  split; [|split].
  - intros HF. unfold IsSaneForInternet. simpl.
    destruct (LookupByTrigger features); [congruence|]. simpl.
    rewrite (undefined_false (PINAndShortcuts.mk (EncodeToString randPIN) None)
               (or_introl Hne)).
    rewrite bool_decide_eq_false_2 by exact Hne. rewrite HL. reflexivity.
  - unfold IsEmpty. simpl. now rewrite bool_decide_eq_false_2.
  - intros c HF. simpl.
    rewrite Transform_no_match; [reflexivity| |].
    + apply undefined_false. now left.
    + eapply Forall_impl; [exact HF|]. intros line Hline. simpl in Hline.
      apply matchesNothing_intro; [reflexivity|].
      unfold PINAndShortcuts.matchPIN. simpl PINAndShortcuts.PIN. rewrite HL.
      apply andb_false_intro1. apply Nat.ltb_ge. exact Hline.
Qed.

(** X19. The processor of [GetInsaneCommandProcessor] is not sane for the
    Internet, whatever the feature set: the errors of [IsSaneForInternet]
    end with the one on the length of the PIN and the one on [MaxLength]. *)
Theorem GetInsaneCommandProcessor_insane (features : FeatureSet) :
  ∃ errs,
    IsSaneForInternet (Features (GetInsaneCommandProcessor features))
                      (Some (CommandFilters (GetInsaneCommandProcessor features)))
                      (Some (ResultFilters (GetInsaneCommandProcessor features)))
    = errs ++ [badConfig (str "Password PIN must be at least 7 characters long");
               badConfig (str "Maximum output length for LintText must be within [35, 4096]")].
Proof.
  unfold IsSaneForInternet. simpl. eexists. reflexivity.
Qed.

(** *** The calls of Process *)

(** Two more definitions by their own names, for the proofs below. *)
Ltac unfold_atLabel := unfold atLabel.
Ltac unfold_sensitive := unfold sensitive.

Section ProcessorCalls.

Variables AESDecryptTrigger TwoFATrigger : gostring.
Variables EmergencyLockDownText EmptyCommandText : gostring.

#[local] Abbreviation Process :=
  (Process AESDecryptTrigger TwoFATrigger EmergencyLockDownText EmptyCommandText).
#[local] Abbreviation body := (body AESDecryptTrigger TwoFATrigger).
#[local] Abbreviation dispatch := (dispatch AESDecryptTrigger TwoFATrigger).
#[local] Abbreviation finish := (finish EmergencyLockDownText EmptyCommandText).
#[local] Abbreviation atLabel := (atLabel EmergencyLockDownText EmptyCommandText).
#[local] Abbreviation errorText := (errorText EmergencyLockDownText EmptyCommandText).
#[local] Abbreviation sensitive := (sensitive AESDecryptTrigger TwoFATrigger).

Lemma prelude_stats proc c :
  match prelude proc c with
  | Next l => commandFilterError (CommandFilters proc) c = None ∧ deferredStats l = true
  | GotoResult l ret =>
    (commandFilterError (CommandFilters proc) c = None ∧ deferredStats l = true) ∨
    (∃ e, commandFilterError (CommandFilters proc) c = Some e ∧
          ret = errorResult (Some e) ∧ deferredStats l = false)
  end.
Proof.
  unfold prelude, afterCommandFilters.
  pose proof (walkCommandFilters_frame (CommandFilters proc) (initialLocals c))
    as (_ & _ & _ & H4 & _).
  pose proof (walkCommandFilters_outcome (CommandFilters proc) (initialLocals c)) as Ho.
  destruct (walkCommandFilters _ _) as [l1|l1 r1]; simpl in *.
  - pose proof (trimCommand_frame l1) as (_ & _ & _ & _ & T5 & _).
    destruct (trimCommand l1) as [l2|l2 r2]; simpl in *.
    + pose proof (overridePLT_frame (ResultFilters proc) l2) as (_ & _ & P3 & _).
      destruct (overridePLT _ l2); simpl in *; rewrite P3, T5; auto.
    + auto.
  - destruct Ho as (e & He & ->). right. exists e. auto.
Qed.

Lemma dispatch_shape proc l0 :
  match dispatch proc l0 with
  | Panicked l =>
    Features proc = None ∧ trace l = trace l0 ∧ deferredStats l = deferredStats l0
  | AtResult l ret =>
    filterDisapproval l = filterDisapproval l0 ∧
    overrideLintText l = overrideLintText l0 ∧
    hasOverrideLintText l = hasOverrideLintText l0 ∧
    deferredStats l = deferredStats l0 ∧
    ((trace l = trace l0 ∧ deferredLog l = deferredLog l0 ∧
      logCommandContent l = Content (cmd l0) ∧ cmd l = cmd l0 ∧
      ret = errorResult (Some ErrBadPrefix)) ∨
     (∃ fs prefix feature,
        Features proc = Some fs ∧
        lookupTrigger (LookupByTrigger fs) (cmd l0) = Some (prefix, feature, cmd l) ∧
        logCommandContent l
          = (if sensitive prefix then hiddenContent else Content (cmd l0)) ∧
        trace l = trace l0 ++ [EvLogGoingToRun (logCommandContent l); EvExecute prefix (cmd l)] ∧
        deferredLog l = true ∧
        ret = Execute feature (cmd l)))
  end.
Proof.
  unfold_dispatch. destruct (Features proc) as [fs|]; [|now repeat split].
  simpl. destruct (lookupTrigger _ _) as [[[prefix feature] c']|] eqn:E.
  - unfold_sensitive. repeat split; try (now destruct (_ || _)).
    right. exists fs, prefix, feature. split; [reflexivity|].
    destruct (_ || _); simpl; rewrite <- app_assoc; repeat split; auto.
  - repeat split. left. repeat split.
Qed.

(** How the body ends, with what it has deferred and the events so far. *)
Lemma body_shape proc c :
  match body proc (initialLocals c) with
  | Panicked l =>
    Features proc = None ∧ commandFilterError (CommandFilters proc) c = None ∧
    deferredStats l = true ∧ Forall isCommandFilterEvent (trace l)
  | AtResult l ret =>
    filterDisapproval l = commandFilterError (CommandFilters proc) c ∧
    ((commandFilterError (CommandFilters proc) c = None ∧ deferredStats l = true) ∨
     (∃ e, commandFilterError (CommandFilters proc) c = Some e ∧
           ret = errorResult (Some e) ∧ deferredStats l = false ∧
           logCommandContent l = [])) ∧
    ((Forall isCommandFilterEvent (trace l) ∧ deferredLog l = false) ∨
     (∃ l0 fs prefix feature pre,
        prelude proc c = Next l0 ∧
        Features proc = Some fs ∧
        lookupTrigger (LookupByTrigger fs) (cmd l0) = Some (prefix, feature, cmd l) ∧
        logCommandContent l
          = (if sensitive prefix then hiddenContent else Content (cmd l0)) ∧
        Forall isCommandFilterEvent pre ∧
        trace l = pre ++ [EvLogGoingToRun (logCommandContent l); EvExecute prefix (cmd l)] ∧
        deferredLog l = true ∧
        ret = Execute feature (cmd l)))
  end.
Proof.
  rewrite body_prelude.
  pose proof (prelude_frame proc c) as (F1 & F2 & F3 & F4).
  pose proof (prelude_stats proc c) as Hs.
  destruct (prelude proc c) as [l0|l0 r0] eqn:Ep; simpl in *.
  - destruct Hs as [Hc Hd].
    pose proof (dispatch_shape proc l0) as Hdis.
    destruct (dispatch proc l0) as [l ret|l].
    + destruct Hdis as (D1 & _ & _ & D4 & Hcase).
      split; [congruence|]. split; [left; split; congruence|].
      destruct Hcase as [(T & DL & _)|(fs & prefix & feature & HF & HL & Hlog & T & DL & Hr)].
      * left. split; congruence.
      * right. exists l0, fs, prefix, feature, (trace l0). repeat split; assumption.
    + destruct Hdis as (HF & T & D). repeat split; congruence.
  - split; [assumption|]. split.
    + destruct Hs as [Hs|(e & He & Hr & Hd)]; [now left|right].
      exists e. repeat split; assumption.
    + left. split; assumption.
Qed.

Lemma finish_shape proc l ret run :
  ∃ t,
    (finish proc l ret run).2 = runDeferred l (finish proc l ret run).1 (trace l ++ t) ∧
    Forall isResultFilterCall t ∧
    (run = false → t = [] ∧ (finish proc l ret run).1 = atLabel l ret).
Proof.
  unfold_finish. destruct run.
  - pose proof (walkResultFilters_trace (ResultFilters proc) (hasOverrideLintText l)
                  (overrideLintText l) (atLabel l ret) (trace l)) as H.
    destruct (walkResultFilters _ _ _ _ _) as [[ret' err] tr'].
    destruct H as [(t & -> & HF) _]. exists t.
    assert (Forall isResultFilterCall t) as HF'.
    { eapply Forall_impl; [exact HF|]. intros [] He; simpl in *; tauto. }
    destruct err; simpl; repeat split; auto; discriminate.
  - exists []. simpl. rewrite app_nil_r. repeat split. constructor.
Qed.

Lemma runDeferred_stats l ret tr :
  EvStats ∉ tr →
  if deferredStats l
  then ∃ t, runDeferred l ret tr = t ++ [EvStats] ∧ EvStats ∉ t
  else EvStats ∉ runDeferred l ret tr.
Proof.
  intros H. unfold runDeferred. destruct (deferredStats l).
  - exists (tr ++ (if deferredLog l
                   then [EvLogFinished (logCommandContent l) (bool_decide (Error ret = None))]
                   else [])).
    split; [now rewrite app_assoc|].
    rewrite elem_of_app. intros [Hin|Hin]; [contradiction|].
    destruct (deferredLog l); [|inversion Hin].
    apply list_elem_of_singleton in Hin. discriminate.
  - rewrite app_nil_r. rewrite elem_of_app. intros [Hin|Hin]; [contradiction|].
    destruct (deferredLog l); [|inversion Hin].
    apply list_elem_of_singleton in Hin. discriminate.
Qed.

Lemma no_stats_among (P : event → Prop) (t : list event) :
  (∀ e, P e → e ≠ EvStats) → Forall P t → EvStats ∉ t.
Proof.
  intros HP HF Hin. rewrite Forall_forall in HF. now apply (HP _ (HF _ Hin)).
Qed.

Lemma commandFilterEvent_not_stats e : isCommandFilterEvent e → e ≠ EvStats.
Proof. now destruct e. Qed.

Lemma resultFilterCall_not_stats e : isResultFilterCall e → e ≠ EvStats.
Proof. now destruct e. Qed.

Lemma body_trace_no_stats proc c l ret :
  body proc (initialLocals c) = AtResult l ret → EvStats ∉ trace l.
Proof.
  intros Hb. pose proof (body_shape proc c) as H. rewrite Hb in H.
  destruct H as (_ & _ & [[HF _]|(l0 & fs & prefix & feature & pre & _ & _ & _ & _ & HF & -> & _)]).
  - exact (no_stats_among _ _ commandFilterEvent_not_stats HF).
  - rewrite elem_of_app. intros [Hin|Hin].
    + exact (no_stats_among _ _ commandFilterEvent_not_stats HF Hin).
    + apply elem_of_cons in Hin. destruct Hin as [Hin|Hin]; [discriminate|].
      apply list_elem_of_singleton in Hin. discriminate.
Qed.

Lemma runDeferred_no_execute l ret tr trigger c' :
  EvExecute trigger c' ∈ runDeferred l ret tr → EvExecute trigger c' ∈ tr.
Proof.
  unfold runDeferred. rewrite !elem_of_app. intros [H|[H|H]]; [exact H| |].
  - destruct (deferredLog l); [|inversion H].
    apply list_elem_of_singleton in H. discriminate.
  - destruct (deferredStats l); [|inversion H].
    apply list_elem_of_singleton in H. discriminate.
Qed.

(** X20. In a call of [Process] that the limiter admits, the statistics are
    triggered exactly when every command filter approves, and then as the
    last event of the call.  When a command filter fails with [e], the only
    events of the call are calls of command filters and of result filters:
    no feature is run, no log entry is written and the logged content stays
    empty; and when the result filters are not run, the result has the error
    [e], no output, and a command with empty content. *)
Theorem Process_stats_iff_approved (proc : CommandProcessor) (c : Command) (run : bool)
    (rl rl' : RateLimit) :
  rateLimit (initialiseOnce proc) = Some rl →
  RateLimit_Add rl (str "instance") = (rl', true) →
  (commandFilterError (CommandFilters proc) c = None →
   ∃ t, events (Process false proc c run) = t ++ [EvStats] ∧ EvStats ∉ t) ∧
  (∀ e, commandFilterError (CommandFilters proc) c = Some e →
     (EvStats ∉ events (Process false proc c run)) ∧
     (∀ ev, ev ∈ events (Process false proc c run) →
            isCommandFilterEvent ev ∨ isResultFilterCall ev) ∧
     (∀ trigger c', EvExecute trigger c' ∉ events (Process false proc c run)) ∧
     (∀ s, EvLogGoingToRun s ∉ events (Process false proc c run)) ∧
     (∀ s ok, EvLogFinished s ok ∉ events (Process false proc c run)) ∧
     logged (Process false proc c run) = [] ∧
     (run = false →
      ∃ r, returned (Process false proc c run) = Some r ∧
           Error r = Some e ∧ Output r = [] ∧
           Content (ResCommand r) = [])).
Proof.
  intros Hrl Hadd. rewrite (Process_admitted AESDecryptTrigger TwoFATrigger EmergencyLockDownText
             EmptyCommandText proc c run rl rl' Hrl Hadd).
  pose proof (body_shape proc c) as Hs.
  destruct (body proc (initialLocals c)) as [l ret|l] eqn:Hb.
  - destruct Hs as (_ & Hst & Htr). simpl.
    destruct (finish_shape proc l ret run) as (t & Hf & HF & Hrun).
    assert (EvStats ∉ trace l ++ t) as Hno.
    { rewrite elem_of_app. intros [Hin|Hin].
      - exact (body_trace_no_stats _ _ _ _ Hb Hin).
      - exact (no_stats_among _ _ resultFilterCall_not_stats HF Hin). }
    pose proof (runDeferred_stats l (finish proc l ret run).1 _ Hno) as Hd.
    rewrite <- Hf in Hd. split.
    + intros Hc. destruct Hst as [[_ Hds]|(e & He & _)]; [|congruence].
      now rewrite Hds in Hd.
    + intros e He. destruct Hst as [[Hc _]|(e' & He' & -> & Hds & Hlog)]; [congruence|].
      assert (e' = e) as -> by congruence.
      rewrite Hds in Hd.
      assert (Forall isCommandFilterEvent (trace l) ∧ deferredLog l = false) as [HFt HL].
      { destruct Htr as [Htr|(l0 & _ & _ & _ & _ & Hp & _)]; [exact Htr|].
        pose proof (prelude_stats proc c) as Hps. rewrite Hp in Hps.
        destruct Hps as [Hps _]. congruence. }
      assert (∀ ev, ev ∈ (finish proc l (errorResult (Some e)) run).2 →
                    isCommandFilterEvent ev ∨ isResultFilterCall ev) as Hev.
      { intros ev Hin. rewrite Hf in Hin. unfold runDeferred in Hin.
        rewrite HL, Hds in Hin. rewrite !app_nil_r in Hin.
        apply elem_of_app in Hin. destruct Hin as [Hin|Hin].
        - left. rewrite Forall_forall in HFt. exact (HFt _ Hin).
        - right. rewrite Forall_forall in HF. exact (HF _ Hin). }
      split; [exact Hd|]. split; [exact Hev|].
      split; [intros trigger c' Hin; destruct (Hev _ Hin) as [[]|[]]|].
      split; [intros s0 Hin; destruct (Hev _ Hin) as [[]|[]]|].
      split; [intros s0 ok Hin; destruct (Hev _ Hin) as [[]|[]]|].
      split; [exact Hlog|].
      intros ->. destruct (Hrun eq_refl) as [_ Hr]. eexists. split; [reflexivity|].
      rewrite Hr. unfold_atLabel. unfold ResetCombinedText. simpl.
      rewrite Hlog. repeat split.
  - destruct Hs as (_ & Hc & Hds & HF). simpl. rewrite Hds. split.
    + intros _. exists (trace l). split; [reflexivity|].
      exact (no_stats_among _ _ commandFilterEvent_not_stats HF).
    + intros e He. congruence.
Qed.

(** X21. The events of a call of [Process] that the limiter admits come in this
    order: the calls of command filters; then at most one run of a feature,
    right after the log entry that announces it; then the calls of result
    filters (none when they are switched off); then, when a feature was run,
    the log entry that tells whether the returned result has no error, and
    the statistics. *)
Theorem Process_trace_shape (proc : CommandProcessor) (c : Command) (run : bool)
    (rl rl' : RateLimit) :
  rateLimit (initialiseOnce proc) = Some rl →
  RateLimit_Add rl (str "instance") = (rl', true) →
  ∃ pre post,
    Forall isCommandFilterEvent pre ∧ Forall isResultFilterCall post ∧
    (run = false → post = []) ∧
    ((∃ stats, events (Process false proc c run) = pre ++ post ++ stats ∧
               (stats = [] ∨ stats = [EvStats])) ∨
     (∃ trigger c' r,
        returned (Process false proc c run) = Some r ∧
        events (Process false proc c run)
          = pre ++ [EvLogGoingToRun (logged (Process false proc c run));
                    EvExecute trigger c']
                ++ post
                ++ [EvLogFinished (logged (Process false proc c run))
                                  (bool_decide (Error r = None));
                    EvStats])).
Proof.
  intros Hrl Hadd. rewrite (Process_admitted AESDecryptTrigger TwoFATrigger EmergencyLockDownText
             EmptyCommandText proc c run rl rl' Hrl Hadd).
  pose proof (body_shape proc c) as Hs.
  destruct (body proc (initialLocals c)) as [l ret|l] eqn:Hb.
  - destruct Hs as (_ & Hst & Htr). simpl.
    destruct (finish_shape proc l ret run) as (t & Hf & HF & Hrun).
    rewrite Hf. unfold runDeferred.
    destruct Htr as [[HFt HL]|(l0 & fs & prefix & feature & pre & Hp & _ & _ & _ & HFp & Ht & HL & _)].
    + exists (trace l), t. split; [exact HFt|]. split; [exact HF|].
      split; [intros Hr; now apply Hrun|]. left. rewrite HL. simpl.
      exists (if deferredStats l then [EvStats] else []). split.
      * now rewrite <- app_assoc.
      * destruct (deferredStats l); auto.
    + exists pre, t. split; [exact HFp|]. split; [exact HF|].
      split; [intros Hr; now apply Hrun|]. right.
      exists prefix, (cmd l), (finish proc l ret run).1. split; [reflexivity|].
      rewrite HL, Ht.
      pose proof (prelude_stats proc c) as Hps. rewrite Hp in Hps.
      destruct Hps as [Hc Hd0].
      destruct Hst as [[_ Hds]|(e & He & _)]; [|congruence].
      rewrite Hds. simpl. now rewrite <- !app_assoc.
  - destruct Hs as (_ & _ & Hds & HF). simpl. rewrite Hds.
    exists (trace l), []. split; [exact HF|]. split; [constructor|].
    split; [reflexivity|]. left. exists [EvStats]. split; [reflexivity|now right].
Qed.

(** X22. When [Process] runs a feature under [AESDecryptTrigger] or
    [TwoFATrigger], the logged content and the content shown by both log
    entries is the redaction marker, and so is the content of the command in
    the result when no result filter changes that command.  Under any other
    trigger the logged content is the content from which the trigger was
    removed to give the command that the feature ran. *)
Theorem Process_hides_sensitive_command (proc : CommandProcessor) (c : Command) (run : bool)
    (rl rl' : RateLimit) (trigger : gostring) (c' : Command) :
  rateLimit (initialiseOnce proc) = Some rl →
  RateLimit_Add rl (str "instance") = (rl', true) →
  EvExecute trigger c' ∈ events (Process false proc c run) →
  (trigger = AESDecryptTrigger ∨ trigger = TwoFATrigger →
   logged (Process false proc c run) = hiddenContent ∧
   (∀ s, EvLogGoingToRun s ∈ events (Process false proc c run) → s = hiddenContent) ∧
   (∀ s ok, EvLogFinished s ok ∈ events (Process false proc c run) → s = hiddenContent) ∧
   (run = false ∨ Forall keepsCommand (ResultFilters proc) →
    ∃ r, returned (Process false proc c run) = Some r ∧
         Content (ResCommand r) = hiddenContent)) ∧
  (trigger ≠ AESDecryptTrigger → trigger ≠ TwoFATrigger →
   FindAndRemovePrefix (withContent c' (logged (Process false proc c run))) trigger
     = (c', true)).
Proof.
  intros Hrl Hadd. rewrite (Process_admitted AESDecryptTrigger TwoFATrigger EmergencyLockDownText
             EmptyCommandText proc c run rl rl' Hrl Hadd).
  pose proof (body_shape proc c) as Hs.
  destruct (body proc (initialLocals c)) as [l ret|l] eqn:Hb; simpl.
  - destruct Hs as (_ & Hst & Htr).
    destruct (finish_shape proc l ret run) as (t & Hf & HF & Hrun).
    destruct (finish_cases EmergencyLockDownText EmptyCommandText proc l ret run)
      as (_ & _ & _ & Hkeep).
    rewrite Hf. intros Hin. apply runDeferred_no_execute in Hin.
    assert (EvExecute trigger c' ∈ trace l) as Hin'.
    { apply elem_of_app in Hin. destruct Hin as [Hin|Hin]; [exact Hin|].
      rewrite Forall_forall in HF. destruct (HF _ Hin). }
    clear Hin.
    destruct Htr as [[HFt _]|(l0 & fs & prefix & feature & pre & Hp & HFs & Hlk & Hlog & HFp & Ht & HL & _)].
    { rewrite Forall_forall in HFt. destruct (HFt _ Hin'). }
    assert (prefix = trigger ∧ cmd l = c') as [-> Hc'].
    { rewrite Ht in Hin'. apply elem_of_app in Hin'. destruct Hin' as [Hin'|Hin'].
      - rewrite Forall_forall in HFp. destruct (HFp _ Hin').
      - apply elem_of_cons in Hin'. destruct Hin' as [Hin'|Hin']; [discriminate|].
        apply list_elem_of_singleton in Hin'. inversion Hin'. auto. }
    split.
    + intros Hsens.
      assert (sensitive trigger = true) as Hs1.
      { unfold_sensitive. destruct Hsens as [->| ->].
        - now rewrite bool_decide_eq_true_2.
        - rewrite (bool_decide_eq_true_2 (TwoFATrigger = TwoFATrigger)) by reflexivity.
          apply orb_true_r. }
      rewrite Hs1 in Hlog. split; [exact Hlog|].
      assert (∀ e, e ∈ runDeferred l (finish proc l ret run).1 (trace l ++ t) →
                   (∀ s, e = EvLogGoingToRun s → s = hiddenContent) ∧
                   (∀ s ok, e = EvLogFinished s ok → s = hiddenContent)) as Hall.
      { intros e. unfold runDeferred. rewrite HL, Ht, Hlog. rewrite !elem_of_app.
        intros [[[He|He]|He]|[He|He]].
        - rewrite Forall_forall in HFp. specialize (HFp _ He).
          split; intros; subst; destruct HFp.
        - apply elem_of_cons in He. destruct He as [->|He].
          + split; intros; congruence.
          + apply list_elem_of_singleton in He. subst. split; intros; discriminate.
        - rewrite Forall_forall in HF. specialize (HF _ He).
          split; intros; subst; destruct HF.
        - apply list_elem_of_singleton in He. subst. split; intros; congruence.
        - destruct (deferredStats l); [|inversion He].
          apply list_elem_of_singleton in He. subst. split; intros; discriminate. }
      split; [|split].
      * intros s Hs0. exact (proj1 (Hall _ Hs0) s eq_refl).
      * intros s ok Hs0. exact (proj2 (Hall _ Hs0) s ok eq_refl).
      * intros Hk. eexists. split; [reflexivity|]. rewrite (Hkeep Hk). simpl. exact Hlog.
    + intros H1 H2.
      assert (sensitive trigger = false) as Hs1.
      { unfold_sensitive. now rewrite !bool_decide_eq_false_2. }
      rewrite Hs1 in Hlog. rewrite Hlog.
      apply lookupTrigger_found in Hlk. destruct Hlk as [_ Hfr]. rewrite <- Hc'.
      pose proof (FindAndRemovePrefix_frame _ _ _ _ Hfr) as [Ht1 Ht2].
      assert (withContent (cmd l) (Content (cmd l0)) = cmd l0) as ->.
      { unfold withContent. rewrite Ht1, Ht2. now destruct (cmd l0). }
      exact Hfr.
  - destruct Hs as (_ & _ & _ & HF). intros Hin. exfalso.
    apply elem_of_app in Hin. destruct Hin as [Hin|Hin].
    + rewrite Forall_forall in HF. destruct (HF _ Hin).
    + destruct (deferredStats l); [|inversion Hin].
      apply list_elem_of_singleton in Hin. discriminate.
Qed.

Lemma overridePLT_refused rfs l1 c3 :
  FindAndRemovePrefix (cmd l1) PrefixCommandPLT = (c3, true) →
  findLintText rfs = None ∨ FindStringSubmatch RegexCommandWithPLT (Content c3) = None →
  ∃ l2, overridePLT rfs l1
          = GotoResult l2 (errorResult (Some (match findLintText rfs with
                                              | None => ErrPLTNotAvailable
                                              | Some _ => ErrBadPLT
                                              end))) ∧
        cmd l2 = c3.
Proof.
  intros HF H. unfold overridePLT. rewrite HF. simpl.
  destruct (findLintText rfs) as [lt|].
  - destruct H as [H|H]; [discriminate|]. simpl. rewrite H.
    eexists. split; reflexivity.
  - eexists. split; reflexivity.
Qed.

(** X23. When the command that passed the filters starts with the PLT prefix and
    no LintText is among the result filters, or the rest of the content does
    not match [RegexCommandWithPLT], then the only events of [Process] are the
    calls of command filters and of result filters and the statistics: no
    feature is run, no log entry is written and the logged content stays
    empty.  When the result filters are not run, or are all of package
    filter, the result has the error that PLT is not available when there is
    no LintText and [ErrBadPLT] otherwise, and the command without the prefix
    and with empty content.  Without result filters the only event after the
    command filters is the statistics. *)
Theorem Process_PLT_refused (proc : CommandProcessor) (c : Command)
    (rl rl' : RateLimit) (l1 : locals) (c3 : Command) :
  rateLimit (initialiseOnce proc) = Some rl →
  RateLimit_Add rl (str "instance") = (rl', true) →
  afterCommandFilters proc c = Next l1 →
  FindAndRemovePrefix (cmd l1) PrefixCommandPLT = (c3, true) →
  findLintText (ResultFilters proc) = None ∨
  FindStringSubmatch RegexCommandWithPLT (Content c3) = None →
  (∀ run ev, ev ∈ events (Process false proc c run) →
     isCommandFilterEvent ev ∨ isResultFilterCall ev ∨ ev = EvStats) ∧
  (∀ run trigger c', EvExecute trigger c' ∉ events (Process false proc c run)) ∧
  (∀ run s, EvLogGoingToRun s ∉ events (Process false proc c run)) ∧
  (∀ run s ok, EvLogFinished s ok ∉ events (Process false proc c run)) ∧
  (∀ run, logged (Process false proc c run) = []) ∧
  (∀ run, run = false ∨ Forall fromPackage (ResultFilters proc) →
     ∃ r, returned (Process false proc c run) = Some r ∧
          Error r = Some (match findLintText (ResultFilters proc) with
                          | None => ErrPLTNotAvailable
                          | Some _ => ErrBadPLT
                          end) ∧
          ResCommand r = withContent c3 []) ∧
  events (Process false proc c false) = trace l1 ++ [EvStats].
Proof.
  intros Hrl Hadd Ha HF H.
  destruct (overridePLT_refused (ResultFilters proc) l1 c3 HF H) as (l2 & Ho & Hc).
  set (err := Some (match findLintText (ResultFilters proc) with
                    | None => ErrPLTNotAvailable
                    | Some _ => ErrBadPLT
                    end)) in *.
  assert (prelude proc c = GotoResult l2 (errorResult err)) as Hp.
  { unfold prelude. rewrite Ha. exact Ho. }
  pose proof (prelude_frame proc c) as (_ & F2 & F3 & F4).
  assert (trace l2 = trace l1 ∧ deferredStats l2 = true) as [Ht Hds].
  { pose proof (overridePLT_frame (ResultFilters proc) l1) as (_ & _ & P3 & _ & P5).
    rewrite Ho in P3, P5. simpl in P3, P5. split; [exact P5|].
    unfold afterCommandFilters in Ha.
    destruct (walkCommandFilters _ _) as [l0|]; [|discriminate]. simpl in Ha.
    pose proof (trimCommand_frame l0) as (_ & _ & _ & _ & T5 & _).
    rewrite Ha in T5. simpl in T5. congruence. }
  rewrite Hp in F2, F3, F4. simpl in F2, F3, F4.
  assert (body proc (initialLocals c) = AtResult l2 (errorResult err)) as Hb.
  { rewrite body_prelude. now rewrite Hp. }
  assert (∀ run ev, ev ∈ events (Process false proc c run) →
            isCommandFilterEvent ev ∨ isResultFilterCall ev ∨ ev = EvStats) as Hev.
  { intros run ev.
    rewrite (Process_admitted AESDecryptTrigger TwoFATrigger EmergencyLockDownText
               EmptyCommandText proc c run rl rl' Hrl Hadd). rewrite Hb. simpl.
    destruct (finish_shape proc l2 (errorResult err) run) as (t & Hf & HFt & _).
    rewrite Hf. unfold runDeferred. rewrite F3, Hds. rewrite app_nil_l.
    rewrite !elem_of_app. intros [[Hin|Hin]|Hin].
    - left. rewrite Forall_forall in F4. exact (F4 _ Hin).
    - right; left. rewrite Forall_forall in HFt. exact (HFt _ Hin).
    - right; right. now apply list_elem_of_singleton in Hin. }
  split; [exact Hev|].
  split; [intros run trigger c' Hin; destruct (Hev _ _ Hin) as [[]|[[]|E]]; discriminate E|].
  split; [intros run s0 Hin; destruct (Hev _ _ Hin) as [[]|[[]|E]]; discriminate E|].
  split; [intros run s0 ok Hin; destruct (Hev _ _ Hin) as [[]|[[]|E]]; discriminate E|].
  split; [|split].
  - intros run.
    rewrite (Process_admitted AESDecryptTrigger TwoFATrigger EmergencyLockDownText
               EmptyCommandText proc c run rl rl' Hrl Hadd). rewrite Hb. exact F2.
  - intros run Hrun.
    rewrite (Process_admitted AESDecryptTrigger TwoFATrigger EmergencyLockDownText
               EmptyCommandText proc c run rl rl' Hrl Hadd). rewrite Hb. simpl.
    eexists. split; [reflexivity|]. unfold_finish.
    destruct run.
    + destruct Hrun as [Hrun|Hrun]; [discriminate|].
      destruct (walkResultFilters_package (ResultFilters proc) (hasOverrideLintText l2)
                  (overrideLintText l2) (atLabel l2 (errorResult err)) (trace l2) Hrun)
        as (ret' & t & Hw & W1 & _ & W3 & _).
      rewrite Hw. simpl. rewrite W3, W1. unfold_atLabel. unfold ResetCombinedText. simpl.
      rewrite F2, Hc. split; reflexivity.
    + simpl. rewrite F2, Hc. split; reflexivity.
  - rewrite (Process_admitted AESDecryptTrigger TwoFATrigger EmergencyLockDownText
               EmptyCommandText proc c false rl rl' Hrl Hadd). rewrite Hb. simpl.
    unfold_finish. simpl. unfold runDeferred. rewrite F3, Hds, Ht. reflexivity.
Qed.

Lemma Process_procAfter lockDown proc c run :
  procAfter (Process lockDown proc c run) = initialiseOnce proc ∨
  ∃ rl rl' ok, rateLimit (initialiseOnce proc) = Some rl ∧
               RateLimit_Add rl (str "instance") = (rl', ok) ∧
               procAfter (Process lockDown proc c run)
                 = withRateLimit (initialiseOnce proc) rl'.
Proof.
  destruct lockDown; [now left|].
  destruct (rateLimit (initialiseOnce proc)) as [rl|] eqn:Hrl.
  - right. destruct (RateLimit_Add rl (str "instance")) as [rl' ok] eqn:Hadd.
    exists rl, rl', ok. split; [reflexivity|]. split; [exact Hadd|]. destruct ok.
    + rewrite (Process_admitted AESDecryptTrigger TwoFATrigger EmergencyLockDownText
                 EmptyCommandText proc c run rl rl' Hrl Hadd).
      now destruct (body proc (initialLocals c)).
    + unfold_Process. now rewrite Hrl, Hadd.
  - left. unfold_Process. now rewrite Hrl.
Qed.

(** X25. [Process] leaves [Features] and both filter lists of the processor as
    they were and marks it initialised; [MaxCmdPerSec] is clamped on the first
    call and never touched again, a further [initialiseOnce] changes nothing,
    and a limiter that was there keeps its window and its limit. *)
Theorem Process_keeps_configuration (lockDown : bool) (proc : CommandProcessor)
    (c : Command) (run : bool) :
  Features (procAfter (Process lockDown proc c run)) = Features proc ∧
  CommandFilters (procAfter (Process lockDown proc c run)) = CommandFilters proc ∧
  ResultFilters (procAfter (Process lockDown proc c run)) = ResultFilters proc ∧
  initOnce (procAfter (Process lockDown proc c run)) = true ∧
  MaxCmdPerSec (procAfter (Process lockDown proc c run))
    = (if initOnce proc then MaxCmdPerSec proc
       else effectiveMaxCmdPerSec (MaxCmdPerSec proc)) ∧
  initialiseOnce (procAfter (Process lockDown proc c run))
    = procAfter (Process lockDown proc c run) ∧
  (∀ rl, rateLimit proc = Some rl →
         ∃ rl', rateLimit (procAfter (Process lockDown proc c run)) = Some rl' ∧
                UnitSecs rl' = UnitSecs rl ∧ MaxCount rl' = MaxCount rl).
Proof.
  destruct (initialiseOnce_fields proc) as (IF & IC & IR).
  destruct (initialiseOnce_done proc) as (ID & II).
  assert (MaxCmdPerSec (initialiseOnce proc)
          = (if initOnce proc then MaxCmdPerSec proc
             else effectiveMaxCmdPerSec (MaxCmdPerSec proc))) as HM.
  { unfold initialiseOnce, effectiveMaxCmdPerSec, MaxCmdPerSecHardLimit.
    destruct (initOnce proc); [reflexivity|]. simpl.
    destruct (MaxCmdPerSec proc <? 1) eqn:E1, (1000 <? MaxCmdPerSec proc) eqn:E2,
             (1 <=? MaxCmdPerSec proc) eqn:E3, (MaxCmdPerSec proc <=? 1000) eqn:E4;
      simpl; try reflexivity; lia. }
  assert (∀ rl, rateLimit proc = Some rl → rateLimit (initialiseOnce proc) = Some rl) as HR.
  { intros rl H. unfold initialiseOnce. destruct (initOnce proc); [exact H|].
    simpl. now rewrite H. }
  destruct (Process_procAfter lockDown proc c run) as [->|(rl & rl' & ok & Hrl & Hadd & ->)].
  - repeat split; try assumption. intros rl H. exists rl. now rewrite (HR rl H).
  - simpl. repeat split; try assumption.
    + unfold initialiseOnce at 1. simpl. now rewrite ID.
    + intros rl0 H. rewrite (HR rl0 H) in Hrl. inversion Hrl; subst rl0.
      exists rl'. split; [reflexivity|].
      pose proof (RateLimit_Add_limits rl (str "instance")) as HL.
      rewrite Hadd in HL. exact HL.
Qed.

Lemma Process_returns lockDown proc c run :
  is_Some (Features proc) → is_Some (rateLimit (initialiseOnce proc)) →
  is_Some (returned (Process lockDown proc c run)).
Proof.
  intros HF [rl Hrl]. destruct lockDown; [unfold_Process; simpl; eauto|].
  destruct (RateLimit_Add rl (str "instance")) as [rl' ok] eqn:Hadd. destruct ok.
  - rewrite (Process_admitted AESDecryptTrigger TwoFATrigger EmergencyLockDownText
               EmptyCommandText proc c run rl rl' Hrl Hadd).
    destruct (body proc (initialLocals c)) as [l ret|l] eqn:Hb; simpl; [eauto|].
    destruct (body_not_panicked AESDecryptTrigger TwoFATrigger proc c l HF Hb).
  - unfold_Process. rewrite Hrl, Hadd. simpl. eauto.
Qed.

Lemma overridePLT_errors rfs l l' ret :
  overridePLT rfs l = GotoResult l' ret →
  ret = errorResult (Some (match findLintText rfs with
                           | None => ErrPLTNotAvailable
                           | Some _ => ErrBadPLT
                           end)).
Proof.
  unfold overridePLT.
  repeat (simpl; match goal with
          | |- context [match ?x with _ => _ end] => destruct x
          | |- context [if ?x then _ else _] => destruct x
          end); simpl; intros H; inversion H; reflexivity.
Qed.

(** X26. On a processor that [IsSaneForInternet] accepts, [Process] always
    returns a result (it cannot panic on a nil feature set), and the PLT
    override can only fail with [ErrBadPLT], never for want of a LintText. *)
Theorem IsSaneForInternet_Process (features : option FeatureSet)
    (commandFilters : option (list CommandFilter))
    (resultFilters : option (list ResultFilter)) (m : Z) :
  IsSaneForInternet features commandFilters resultFilters = [] →
  (∀ lockDown c run,
     is_Some (returned (Process lockDown
                          (newCommandProcessor features (default [] commandFilters)
                                               (default [] resultFilters) m) c run))) ∧
  (∀ l l' ret,
     overridePLT (default [] resultFilters) l = GotoResult l' ret →
     ret = errorResult (Some ErrBadPLT)).
Proof.
  intros H. unfold IsSaneForInternet in H.
  apply app_eq_nil in H. destruct H as [H1 H2].
  apply app_eq_nil in H2. destruct H2 as [_ H3]. split.
  - intros lockDown c run. apply Process_returns.
    + destruct features; [simpl; eauto|discriminate].
    + rewrite initialiseOnce_fresh. eauto.
  - intros l l' ret Ho. apply overridePLT_errors in Ho.
    destruct resultFilters as [rf|]; [|discriminate].
    apply checkLinter_nil in H3. destruct H3 as (lt & Hlt & _).
    simpl in Ho. now rewrite Hlt in Ho.
Qed.

(** X27. With result filters of package filter only, the loop over the result
    filters never fails: the result that [Process] returns has the error and
    the output that the body ended with, and the command with the logged
    content. *)
Theorem Process_package_result_filters (proc : CommandProcessor) (c : Command)
    (rl rl' : RateLimit) (l : locals) (ret : Result) :
  rateLimit (initialiseOnce proc) = Some rl →
  RateLimit_Add rl (str "instance") = (rl', true) →
  body proc (initialLocals c) = AtResult l ret →
  Forall fromPackage (ResultFilters proc) →
  ∃ r, returned (Process false proc c true) = Some r ∧
       Error r = Error ret ∧ Output r = Output ret ∧
       ResCommand r = withContent (cmd l) (logCommandContent l).
Proof.
  intros Hrl Hadd Hb HF.
  rewrite (Process_admitted AESDecryptTrigger TwoFATrigger EmergencyLockDownText
             EmptyCommandText proc c true rl rl' Hrl Hadd). rewrite Hb. simpl.
  unfold_finish.
  destruct (walkResultFilters_package (ResultFilters proc) (hasOverrideLintText l)
              (overrideLintText l) (atLabel l ret) (trace l) HF)
    as (ret' & t & Hw & W1 & W2 & W3 & _).
  rewrite Hw. simpl. exists ret'. split; [reflexivity|].
  split; [exact W3|]. split; [exact W2|]. exact W1.
Qed.

(** X28. When the last LintText among the result filters is followed by
    [SayEmptyOutput] and [NotifyViaEmail] filters only and the [MaxLength] in
    force (that of the PLT override if there is one) is positive, the
    combined output that [Process] returns is at most that long, or the 12
    bytes of [EmptyOutputText]; with a [SayEmptyOutput] among them, and no
    filter from elsewhere before, it has a visible character. *)
Theorem Process_output_bounded (proc : CommandProcessor) (c : Command)
    (rl rl' : RateLimit) (l : locals) (ret : Result)
    (pre post : list ResultFilter) (lt : LintText.t) :
  rateLimit (initialiseOnce proc) = Some rl →
  RateLimit_Add rl (str "instance") = (rl', true) →
  body proc (initialLocals c) = AtResult l ret →
  ResultFilters proc = pre ++ RFLintText lt :: post →
  Forall sayOrNotify post →
  0 < LintText.MaxLength (if hasOverrideLintText l then overrideLintText l else lt) →
  ∃ r, returned (Process false proc c true) = Some r ∧
       Z.of_nat (length (CombinedOutput r))
         ≤ Z.max (LintText.MaxLength
                    (if hasOverrideLintText l then overrideLintText l else lt)) 12 ∧
       (Forall fromPackage pre → RFSayEmptyOutput ∈ post →
        existsb SayEmptyOutput.isGraph (CombinedOutput r) = true).
Proof.
  intros Hrl Hadd Hb HR HF HM.
  rewrite (Process_admitted AESDecryptTrigger TwoFATrigger EmergencyLockDownText
             EmptyCommandText proc c true rl rl' Hrl Hadd). rewrite Hb. simpl.
  unfold_finish. rewrite HR. rewrite walkResultFilters_app.
  destruct (walkResultFilters pre (hasOverrideLintText l) (overrideLintText l)
              (atLabel l ret) (trace l)) as [[r1 [e1|]] t1] eqn:Hpre.
  - simpl. eexists. split; [reflexivity|]. simpl. split; [lia|].
    intros HFp. destruct (walkResultFilters_package pre (hasOverrideLintText l)
              (overrideLintText l) (atLabel l ret) (trace l) HFp) as (? & ? & Hw & _).
    congruence.
  - set (applied := if hasOverrideLintText l then overrideLintText l else lt) in *.
    assert (walkResultFilters (RFLintText lt :: post) (hasOverrideLintText l)
              (overrideLintText l) r1 t1
            = walkResultFilters post (hasOverrideLintText l) (overrideLintText l)
                (withCombinedOutput r1 (LintText.lint applied (CombinedOutput r1)))
                (t1 ++ [EvResultFilter (RFLintText applied) r1])) as ->.
    { subst applied. simpl. now destruct (hasOverrideLintText l). }
    destruct (walkResultFilters_sayOrNotify post (hasOverrideLintText l) (overrideLintText l)
                (withCombinedOutput r1 (LintText.lint applied (CombinedOutput r1)))
                (t1 ++ [EvResultFilter (RFLintText applied) r1]) HF)
      as (ret' & tr' & Hw & Hc & Hg).
    rewrite Hw. simpl. exists ret'. split; [reflexivity|]. split.
    + destruct Hc as [-> | ->].
      * simpl. pose proof (lint_bound applied (CombinedOutput r1) HM). lia.
      * change (Z.of_nat (length SayEmptyOutput.EmptyOutputText)) with 12. lia.
    + intros _. exact Hg.
Qed.

(** X29. When the first command filter is a PIN filter with something defined and
    no trimmed line of the command is a shortcut or starts with the PIN, then
    with result filters of package filter only [Process] returns a result
    with [ErrPINAndShortcutNotFound] and the command with empty content;
    every result filter sees that error, so that [NotifyViaEmail] sends
    nothing; and apart from the call of the PIN filter and the calls of the
    result filters nothing happens: no feature is run, nothing is logged, no
    statistics are triggered. *)
Theorem Process_failed_PIN (proc : CommandProcessor) (c : Command) (run : bool)
    (rl rl' : RateLimit) (pin : PINAndShortcuts.t) (rest : list CommandFilter) :
  rateLimit (initialiseOnce proc) = Some rl →
  RateLimit_Add rl (str "instance") = (rl', true) →
  CommandFilters proc = CFPINAndShortcuts pin :: rest →
  PINAndShortcuts.undefined pin = false →
  Forall (λ line, matchesNothing pin (TrimSpace line)) (Lines c) →
  Forall fromPackage (ResultFilters proc) →
  (∃ r, returned (Process false proc c run) = Some r ∧
        Error r = Some ErrPINAndShortcutNotFound ∧
        ResCommand r = withContent c []) ∧
  (∀ f r, EvResultFilter f r ∈ events (Process false proc c run) →
          Error r = Some ErrPINAndShortcutNotFound) ∧
  (∀ n r, EvResultFilter (RFNotifyViaEmail n) r ∈ events (Process false proc c run) →
          NotifyViaEmail.sends n r = false) ∧
  (∀ e, e ∈ events (Process false proc c run) →
        e = EvCommandFilter (CFPINAndShortcuts pin) c ∨ isResultFilterCall e).
Proof.
  intros Hrl Hadd HC HU HL HF.
  rewrite (Process_admitted AESDecryptTrigger TwoFATrigger EmergencyLockDownText
             EmptyCommandText proc c run rl rl' Hrl Hadd).
  assert (body proc (initialLocals c)
          = AtResult (setFilterDisapproval
                        (setCmd (emit (initialLocals c)
                                      (EvCommandFilter (CFPINAndShortcuts pin) c)) c)
                        (Some ErrPINAndShortcutNotFound))
                     (errorResult (Some ErrPINAndShortcutNotFound))) as Hb.
  { unfold_body. rewrite HC. simpl. now rewrite (Transform_no_match pin c HU HL). }
  rewrite Hb. simpl. unfold_finish. destruct run.
  - match goal with |- context [walkResultFilters ?fs ?h ?o ?r ?t] =>
      destruct (walkResultFilters_package fs h o r t HF)
        as (ret' & t' & Hw & W1 & W2 & W3 & _ & W5)
    end.
    rewrite Hw. simpl. unfold runDeferred. simpl. rewrite !app_nil_r.
    assert (∀ f r, EvResultFilter f r ∈ [EvCommandFilter (CFPINAndShortcuts pin) c] ++ t' →
                   Error r = Some ErrPINAndShortcutNotFound) as Hev.
    { intros f r Hin. apply elem_of_app in Hin. destruct Hin as [Hin|Hin].
      - apply list_elem_of_singleton in Hin. discriminate.
      - rewrite Forall_forall in W5. destruct (W5 _ Hin) as (g & r0 & E & E1 & _).
        inversion E; subst. exact E1. }
    split; [|split; [|split]].
    + exists ret'. split; [reflexivity|]. split; [exact W3|]. exact W1.
    + exact Hev.
    + intros n r Hin. apply Hev in Hin. unfold NotifyViaEmail.sends.
      rewrite Hin. rewrite bool_decide_eq_true_2 by reflexivity. apply andb_false_r.
    + intros e Hin. apply elem_of_cons in Hin. destruct Hin as [Hin|Hin].
      * now left.
      * right. rewrite Forall_forall in W5. destruct (W5 _ Hin) as (g & r0 & -> & _).
        exact I.
  - simpl. unfold runDeferred. simpl.
    split; [|split; [|split]].
    + eexists. split; [reflexivity|]. split; reflexivity.
    + intros f r Hin. apply list_elem_of_singleton in Hin. discriminate.
    + intros n r Hin. apply list_elem_of_singleton in Hin. discriminate.
    + intros e Hin. apply list_elem_of_singleton in Hin. now left.
Qed.

End ProcessorCalls.

(* ===================================================================== *)
(** ** The further properties on concrete processors and commands *)
(* ===================================================================== *)

(** X1 on an example. *)
Lemma LintText_MaxLength_bound_witness :
  Z.of_nat (length (CombinedOutput
    (LintText.Transform (LintText.mk false false false false 0 3)
                        (mkResult zeroCommand [] None (str "abcdef"))).1)) ≤ 3.
Proof.
  exact (LintText_MaxLength_bound (LintText.mk false false false false 0 3)
           (mkResult zeroCommand [] None (str "abcdef")) eq_refl).
Defined.

(** X3 on an example. *)
Lemma LintText_BeginPosition_beyond_witness :
  CombinedOutput
    (LintText.Transform (LintText.mk false false false false 10 0)
                        (mkResult zeroCommand [] None (str "abcdef"))).1 = [].
Proof.
  exact (LintText_BeginPosition_beyond (LintText.mk false false false false 10 0)
           (mkResult zeroCommand [] None (str "abcdef")) eq_refl
           ltac:(vm_compute; discriminate)).
Defined.

(** X4 on an example. *)
Lemma LintText_keeps_visible_only_witness :
  Forall (λ b, (32 ≤ Byte.to_N b ≤ 126)%N ∨ asciiSpace b = true)
         (CombinedOutput
            (LintText.Transform (LintText.mk false false true false 0 0)
               (mkResult zeroCommand [] None (str "caf" ++ [xc3; xa9; x0a; x00]))).1).
Proof.
  exact (LintText_keeps_visible_only (LintText.mk false false true false 0 0)
           (mkResult zeroCommand [] None (str "caf" ++ [xc3; xa9; x0a; x00])) eq_refl).
Defined.

(** X5 on an example. *)
Lemma LintText_single_line_witness :
  CombinedOutput
    (LintText.Transform (LintText.mk false true false false 0 0)
       (mkResult zeroCommand [] None (str "a" ++ [x0a] ++ str "b"))).1 = str "a;b" ∧
  x0a ∉ CombinedOutput
    (LintText.Transform (LintText.mk false true false false 0 0)
       (mkResult zeroCommand [] None (str "a" ++ [x0a] ++ str "b"))).1.
Proof.
  split; [reflexivity|].
  exact (LintText_single_line (LintText.mk false true false false 0 0)
           (mkResult zeroCommand [] None (str "a" ++ [x0a] ++ str "b"))
           (or_introl eq_refl)).
Defined.

(** X6 on an example. *)
Lemma LintText_single_spaced_witness :
  singleSpaced (CombinedOutput
    (LintText.Transform (LintText.mk false false false true 1 4)
       (mkResult zeroCommand [] None (str "a  " ++ [x09; x0a] ++ str "b   c"))).1) = true.
Proof.
  exact (LintText_single_spaced (LintText.mk false false false true 1 4)
           (mkResult zeroCommand [] None (str "a  " ++ [x09; x0a] ++ str "b   c")) eq_refl).
Defined.

(** X7 on an example. *)
Lemma LintText_trims_lines_witness :
  let out := CombinedOutput
    (LintText.Transform (LintText.mk true false false false 0 0)
       (mkResult zeroCommand [] None (str "  a " ++ [x0a] ++ str " b  "))).1 in
  TrimSpace out = out ∧ Forall (λ line, TrimSpace line = line) (splitLF out).
Proof.
  exact (LintText_trims_lines (LintText.mk true false false false 0 0)
           (mkResult zeroCommand [] None (str "  a " ++ [x0a] ++ str " b  ")) eq_refl
           (Z.le_refl 0) (Z.le_refl 0)).
Defined.

(** X10 on an example. *)
Lemma TranslateSequences_Transform_no_occurrence_witness :
  TranslateSequences.Transform
    (TranslateSequences.mk (Some [[str "alpha"; str "beta"]]))
    (mkCommand (str ".s") 10 [])
  = (mkCommand (str ".s") 10 [], None).
Proof.
  apply TranslateSequences_Transform_no_occurrence.
  intros tuples old new E Hin. inversion E; subst; clear E.
  apply list_elem_of_singleton in Hin. inversion Hin; subst; clear Hin.
  intros (before & after & E). apply (f_equal length) in E.
  rewrite !length_app in E. simpl in E. lia.
Defined.

(** X11 on an example. *)
Lemma PINAndShortcuts_Transform_approval_witness :
  ∃ before line after,
    Lines commandWithPIN = before ++ line :: after ∧
    Forall (λ l, matchesNothing pinWithShortcut (TrimSpace l)) before ∧
    (isShortcut pinWithShortcut (TrimSpace line) (str ".s ls") ∨
     ((∀ v, ¬ isShortcut pinWithShortcut (TrimSpace line) v) ∧
      startsWithPIN pinWithShortcut (TrimSpace line) ∧
      str ".s ls" = drop (length (PINAndShortcuts.PIN pinWithShortcut)) (TrimSpace line) ∧
      str ".s ls" ≠ [] ∧ x0a ∉ str ".s ls")).
Proof.
  assert (PINAndShortcuts.Transform pinWithShortcut commandWithPIN
          = (withContent commandWithPIN (str ".s ls"), None)) as H
    by (vm_compute; reflexivity).
  exact (PINAndShortcuts_Transform_approval pinWithShortcut commandWithPIN
           (withContent commandWithPIN (str ".s ls")) H).
Defined.

(** X12 on an example. *)
Lemma PINAndShortcuts_Transform_disapproval_witness :
  Forall (λ l, matchesNothing pinWithShortcut (TrimSpace l)) (Lines commandWithoutMatch).
Proof.
  assert (PINAndShortcuts.Transform pinWithShortcut commandWithoutMatch
          = (commandWithoutMatch, Some ErrPINAndShortcutNotFound)) as H
    by (vm_compute; reflexivity).
  destruct (PINAndShortcuts_Transform_disapproval pinWithShortcut commandWithoutMatch
              commandWithoutMatch ErrPINAndShortcutNotFound H) as [(E & _)|(_ & _ & HF)].
  - discriminate E.
  - exact HF.
Defined.

(** X13 on an example. *)
Lemma PINAndShortcuts_Transform_empty_PIN_witness :
  ∃ ret line,
    PINAndShortcuts.Transform
      (PINAndShortcuts.mk [] (Some {[ str "ping" := str ".s echo pong" ]}))
      (mkCommand (str ".s rm -rf /tmp/x") 10 []) = (ret, None) ∧
    line ∈ Lines (mkCommand (str ".s rm -rf /tmp/x") 10 []) ∧
    (isShortcut (PINAndShortcuts.mk [] (Some {[ str "ping" := str ".s echo pong" ]}))
                (TrimSpace line) (Content ret) ∨
     Content ret = TrimSpace line).
Proof.
  apply PINAndShortcuts_Transform_empty_PIN.
  - reflexivity.
  - eexists. split; [reflexivity|]. apply map_non_empty_singleton.
  - exists (str ".s rm -rf /tmp/x"). split.
    + apply list_elem_of_here.
    + vm_compute. discriminate.
Defined.

(** X26 on an example. *)
Lemma IsSaneForInternet_Process_witness :
  IsSaneForInternet (Some (mkFeatureSet [(str ".s", echoFeature)]))
                    (Some testCommandFilters) (Some testResultFilters) = [] ∧
  is_Some (returned (Process (str ".a") (str ".2") [] [] false GetTestCommandProcessor
                             (mkCommand (str "verysecret.s echo hello") 10 []) true)).
Proof.
  assert (IsSaneForInternet (Some (mkFeatureSet [(str ".s", echoFeature)]))
                            (Some testCommandFilters) (Some testResultFilters) = []) as H
    by (vm_compute; reflexivity).
  split; [exact H|].
  exact (proj1 (IsSaneForInternet_Process (str ".a") (str ".2") [] [] _ _ _ 0 H) false
               (mkCommand (str "verysecret.s echo hello") 10 []) true).
Defined.

(** X20 on an example. *)
Lemma Process_stats_iff_approved_witness :
  (∃ t, events (Process (str ".a") (str ".2") [] [] false GetTestCommandProcessor
                        (mkCommand (str "verysecret.s echo hello") 10 []) true)
          = t ++ [EvStats] ∧ EvStats ∉ t) ∧
  (∀ ev, ev ∈ events (Process (str ".a") (str ".2") [] [] false GetTestCommandProcessor
                              commandWithoutMatch true) →
         isCommandFilterEvent ev ∨ isResultFilterCall ev).
Proof.
  split.
  - exact (proj1 (Process_stats_iff_approved (str ".a") (str ".2") [] []
                    GetTestCommandProcessor
                    (mkCommand (str "verysecret.s echo hello") 10 []) true
                    (mkRateLimit 1 1000 ∅) _ eq_refl eq_refl)
                 ltac:(vm_compute; reflexivity)).
  - exact (proj1 (proj2 (proj2 (Process_stats_iff_approved (str ".a") (str ".2") [] []
                    GetTestCommandProcessor commandWithoutMatch true
                    (mkRateLimit 1 1000 ∅) _ eq_refl eq_refl)
                 ErrPINAndShortcutNotFound ltac:(vm_compute; reflexivity)))).
Defined.

(** X21 on an example. *)
Lemma Process_trace_shape_witness :
  let o := Process (str ".a") (str ".2") [] [] false GetTestCommandProcessor
                   (mkCommand (str "verysecret.s echo hello") 10 []) true in
  ∃ pre post,
    Forall isCommandFilterEvent pre ∧ Forall isResultFilterCall post ∧
    (true = false → post = []) ∧
    ((∃ stats, events o = pre ++ post ++ stats ∧ (stats = [] ∨ stats = [EvStats])) ∨
     (∃ trigger c' r,
        returned o = Some r ∧
        events o = pre ++ [EvLogGoingToRun (logged o); EvExecute trigger c']
                       ++ post
                       ++ [EvLogFinished (logged o) (bool_decide (Error r = None));
                           EvStats])).
Proof.
  exact (Process_trace_shape (str ".a") (str ".2") [] [] GetTestCommandProcessor
           (mkCommand (str "verysecret.s echo hello") 10 []) true
           (mkRateLimit 1 1000 ∅) _ eq_refl eq_refl).
Defined.

(** X22 on an example. *)
Lemma Process_hides_sensitive_command_witness :
  let o := Process (str ".s") (str ".2") [] [] false GetTestCommandProcessor
                   (mkCommand (str "verysecret.s echo hello") 10 []) true in
  logged o = hiddenContent ∧
  (∀ s, EvLogGoingToRun s ∈ events o → s = hiddenContent) ∧
  (∀ s ok, EvLogFinished s ok ∈ events o → s = hiddenContent).
Proof.
  assert (EvExecute (str ".s") (mkCommand (str " echo hello") 10 [])
            ∈ events (Process (str ".s") (str ".2") [] [] false GetTestCommandProcessor
                              (mkCommand (str "verysecret.s echo hello") 10 []) true)) as Hin.
  { vm_compute. repeat first [apply list_elem_of_here | apply list_elem_of_further]. }
  destruct (proj1 (Process_hides_sensitive_command (str ".s") (str ".2") [] []
                     GetTestCommandProcessor
                     (mkCommand (str "verysecret.s echo hello") 10 []) true
                     (mkRateLimit 1 1000 ∅) _ (str ".s")
                     (mkCommand (str " echo hello") 10 []) eq_refl eq_refl Hin)
                  (or_introl eq_refl)) as (H1 & H2 & H3 & _).
  exact (conj H1 (conj H2 H3)).
Defined.

(** X23 on an example. *)
Lemma Process_PLT_refused_witness :
  let proc := newCommandProcessor (Some (mkFeatureSet [(str ".s", echoFeature)]))
                                  testCommandFilters [RFSayEmptyOutput] 0 in
  let c := mkCommand (str "verysecret.plt 0 5 10 .s echo hello") 30 [] in
  ∃ r, returned (Process (str ".a") (str ".2") [] [] false proc c true) = Some r ∧
       Error r = Some ErrPLTNotAvailable.
Proof.
  pose (proc := newCommandProcessor (Some (mkFeatureSet [(str ".s", echoFeature)]))
                                    testCommandFilters [RFSayEmptyOutput] 0).
  pose (c := mkCommand (str "verysecret.plt 0 5 10 .s echo hello") 30 []).
  let a := eval vm_compute in (afterCommandFilters proc c) in
  match a with
  | Next ?l1 =>
    assert (afterCommandFilters proc c = Next l1) as Ha by (vm_compute; reflexivity);
    let f := eval vm_compute in (FindAndRemovePrefix (cmd l1) PrefixCommandPLT) in
    match f with
    | (?c3, true) =>
      assert (FindAndRemovePrefix (cmd l1) PrefixCommandPLT = (c3, true)) as Hf
        by (vm_compute; reflexivity);
      pose proof (Process_PLT_refused (str ".a") (str ".2") [] [] proc c
                    (mkRateLimit 1 1000 ∅) (mkRateLimit 1 1000 {[ str "instance" := 1 ]})
                    l1 c3 ltac:(vm_compute; reflexivity) ltac:(vm_compute; reflexivity)
                    Ha Hf (or_introl eq_refl)) as (_ & _ & _ & _ & _ & Hret & _)
    end
  end.
  destruct (Hret true (or_intror (Forall_cons_2 fromPackage RFSayEmptyOutput [] I
                                     (Forall_nil_2 _)))) as (r & Hr & He & _).
  exists r. split; [exact Hr|exact He].
Defined.

(** X17 on an example. *)
Lemma RegexCommandWithPLT_groups_witness :
  ∃ whole p1 p2 p3 p4,
    [str " 0 5 10 .s echo"; str "0"; str "5"; str "10"; str " .s echo"]
      = [whole; p1; p2; p3; p4] ∧
    Forall (λ p, p ≠ [] ∧ forallb isDigit p = true ∧
                 0 ≤ (Atoi p).1 ≤ maxInt ∧
                 ((Atoi p).2 = false → (Atoi p).1 = digitsValue p) ∧
                 ((Atoi p).2 = true → maxInt < digitsValue p))
           [p1; p2; p3] ∧
    x0a ∉ p4.
Proof.
  assert (FindStringSubmatch RegexCommandWithPLT (str " 0 5 10 .s echo")
          = Some [str " 0 5 10 .s echo"; str "0"; str "5"; str "10"; str " .s echo"]) as H
    by (vm_compute; reflexivity).
  exact (RegexCommandWithPLT_groups (str " 0 5 10 .s echo") _ H).
Defined.

(** X27 on an example. *)
Lemma Process_package_result_filters_witness :
  ∃ r, returned (Process (str ".a") (str ".2") [] [] false GetTestCommandProcessor
                         (mkCommand (str "verysecret.s echo hello") 10 []) true) = Some r ∧
       Error r = None ∧ Output r = str " echo hello".
Proof.
  pose (proc := GetTestCommandProcessor).
  pose (c := mkCommand (str "verysecret.s echo hello") 10 []).
  assert (Forall fromPackage (ResultFilters proc)) as HFp
    by (repeat apply Forall_cons_2; try apply Forall_nil_2; exact I).
  let b := eval vm_compute in (body (str ".a") (str ".2") proc (initialLocals c)) in
  match b with
  | AtResult ?l ?ret =>
    assert (body (str ".a") (str ".2") proc (initialLocals c) = AtResult l ret) as Hb
      by (vm_compute; reflexivity);
    pose proof (Process_package_result_filters (str ".a") (str ".2") [] [] proc c
                  (mkRateLimit 1 1000 ∅) (mkRateLimit 1 1000 {[ str "instance" := 1 ]})
                  l ret ltac:(vm_compute; reflexivity) ltac:(vm_compute; reflexivity) Hb
                  HFp)
      as (r & Hr & He & Ho & _)
  end.
  exists r. split; [exact Hr|]. split; [exact He|exact Ho].
Defined.

(** X28 on an example. *)
Lemma Process_output_bounded_witness :
  ∃ r, returned (Process (str ".a") (str ".2") [] [] false GetTestCommandProcessor
                         (mkCommand (str "verysecret.s echo hello") 10 []) true) = Some r ∧
       Z.of_nat (length (CombinedOutput r)) ≤ 35 ∧
       existsb SayEmptyOutput.isGraph (CombinedOutput r) = true.
Proof.
  pose (proc := GetTestCommandProcessor).
  pose (c := mkCommand (str "verysecret.s echo hello") 10 []).
  assert (Forall sayOrNotify
            [RFSayEmptyOutput; RFNotifyViaEmail (NotifyViaEmail.mk None false)]) as HFs
    by (repeat apply Forall_cons_2; try apply Forall_nil_2; exact I).
  let b := eval vm_compute in (body (str ".a") (str ".2") proc (initialLocals c)) in
  match b with
  | AtResult ?l ?ret =>
    assert (body (str ".a") (str ".2") proc (initialLocals c) = AtResult l ret) as Hb
      by (vm_compute; reflexivity);
    pose proof (Process_output_bounded (str ".a") (str ".2") [] [] proc c
                  (mkRateLimit 1 1000 ∅) (mkRateLimit 1 1000 {[ str "instance" := 1 ]})
                  l ret [] [RFSayEmptyOutput; RFNotifyViaEmail (NotifyViaEmail.mk None false)]
                  (LintText.mk true false false false 0 35)
                  ltac:(vm_compute; reflexivity) ltac:(vm_compute; reflexivity) Hb
                  eq_refl
                  HFs
                  eq_refl)
      as (r & Hr & Hlen & Hg)
  end.
  exists r. split; [exact Hr|]. split.
  - exact Hlen.
  - exact (Hg (Forall_nil_2 _) (list_elem_of_here _ _)).
Defined.

(** X29 on an example. *)
Lemma Process_failed_PIN_witness :
  (∃ r, returned (Process (str ".a") (str ".2") [] [] false GetTestCommandProcessor
                          commandWithoutMatch true) = Some r ∧
        Error r = Some ErrPINAndShortcutNotFound ∧
        ResCommand r = withContent commandWithoutMatch []) ∧
  (∀ n r, EvResultFilter (RFNotifyViaEmail n) r
            ∈ events (Process (str ".a") (str ".2") [] [] false GetTestCommandProcessor
                              commandWithoutMatch true) →
          NotifyViaEmail.sends n r = false).
Proof.
  assert (Forall (λ line, matchesNothing (PINAndShortcuts.mk (str "verysecret") None)
                                         (TrimSpace line))
                 (Lines commandWithoutMatch)) as HF.
  { apply Forall_cons_2; [apply matchesNothing_intro; vm_compute; reflexivity|].
    apply Forall_cons_2; [apply matchesNothing_intro; vm_compute; reflexivity|].
    apply Forall_nil_2. }
  assert (Forall fromPackage (ResultFilters GetTestCommandProcessor)) as HFp
    by (repeat apply Forall_cons_2; try apply Forall_nil_2; exact I).
  destruct (Process_failed_PIN (str ".a") (str ".2") [] [] GetTestCommandProcessor
              commandWithoutMatch true
              (mkRateLimit 1 1000 ∅) (mkRateLimit 1 1000 {[ str "instance" := 1 ]})
              (PINAndShortcuts.mk (str "verysecret") None)
              [CFTranslateSequences (TranslateSequences.mk (Some [[str "alpha"; str "beta"]]))]
              ltac:(vm_compute; reflexivity) ltac:(vm_compute; reflexivity)
              eq_refl ltac:(vm_compute; reflexivity) HF
              HFp)
    as (H1 & _ & H3 & _).
  exact (conj H1 H3).
Defined.

(** X18 on an example. *)
Lemma GetEmptyCommandProcessor_sane_witness :
  let p := GetEmptyCommandProcessor (mkFeatureSet [(str ".s", echoFeature)])
                                    (replicate 128 x00) in
  IsSaneForInternet (Features p) (Some (CommandFilters p)) (Some (ResultFilters p)) = [] ∧
  IsEmpty p = false.
Proof.
  destruct (GetEmptyCommandProcessor_sane (mkFeatureSet [(str ".s", echoFeature)])
              (replicate 128 x00) eq_refl) as (H1 & H2 & _).
  exact (conj (H1 ltac:(discriminate)) H2).
Defined.
